(** * tuna-indexer: the incremental indexing pipeline of [app/lib/fileIndexer.js]

    A shallow embedding of the [fileIndexer] class.  The object's fields, the
    FileWatcher it polls, the four files it owns on disk and the queue of
    [setImmediate] callbacks are one explicit [World] value.  Method bodies
    are written in a small state monad with the three ways a JavaScript
    block can complete (normally, by [return], by [throw]), so that
    [try]/[catch]/[finally] read as they do in the source. *)

From Stdlib Require Import String Ascii List ZArith Bool Arith Lia.
Import ListNotations.
Local Open Scope Z_scope.
Local Open Scope list_scope.

(** ** Values *)

(** What a [catch] clause receives.  The code looks at [ex.type] and prints
    [JSON.stringify(ex)], nothing else. *)
Record Exn := mkExn { ex_type : option string; ex_json : string }.

(** Dereferencing [undefined] or [null]; [JSON.stringify] of an [Error] is [{}]. *)
Definition TypeError : Exn := mkExn None "{}".

Inductive result (A : Type) : Type :=
| Ok (a : A)
| Err (ex : Exn).
Arguments Ok {A} a.
Arguments Err {A} ex.

(** [tag.tags] as jsmediatags hands it over; a missing frame is [undefined]. *)
Record Tags := mkTags {
  title : option string;
  tags_album : option string;
  tags_track : option string;
  tags_artist : option string }.

Record Tag := mkTag { type : string; tags : Tags }.

(** [fileCachedData.tagData] *)
Record TagData := mkTagData {
  name : option string;
  album : option string;
  track : option string;
  artist : option string;
  clippedPath : string }.

(** A document of the lokijs collection [fileData].  A freshly made
    [{ file : file }] has every other property [undefined]. *)
Record FileRecord := mkFileRecord {
  file : string;
  dirty : option bool;
  mtime : option string;
  tagData : option TagData;
  isValid : option bool }.

Definition set_dirty (v : bool) (r : FileRecord) : FileRecord :=
  mkFileRecord (file r) (Some v) (mtime r) (tagData r) (isValid r).
Definition set_mtime (v : string) (r : FileRecord) : FileRecord :=
  mkFileRecord (file r) (dirty r) (Some v) (tagData r) (isValid r).
Definition set_tagData (v : option TagData) (r : FileRecord) : FileRecord :=
  mkFileRecord (file r) (dirty r) (mtime r) v (isValid r).
Definition set_isValid (v : bool) (r : FileRecord) : FileRecord :=
  mkFileRecord (file r) (dirty r) (mtime r) (tagData r) (Some v).

(** One [<item>] element of the xml index, and the document. *)
Record Item := mkItem {
  item_album : option string;
  item_artist : option string;
  item_name : option string;
  item_path : string }.

Record IndexDocument := mkIndex { date : Z; items : list Item }.

(** The json status file holds [{ date }]. *)
Record Status := mkStatus { status_date : Z }.

(** What [loki.json] holds once lokijs has read it: the documents of the
    collection [fileData], or no such collection. *)
Inductive LokiFile : Type :=
| FileData (docs : list FileRecord)
| NoFileData.

Inductive Event : Type :=
| IndexingStart
| IndexingDone
| Progress (percent : Z) (title artist : option string).

(** ** The lokijs collection, unique on [file] *)

Module Loki.

Definition Collection := list FileRecord.

Definition has_file (f : string) (r : FileRecord) : bool := String.eqb (file r) f.

(** [collection.by('file', f)] *)
Definition by_file (f : string) (c : Collection) : option FileRecord :=
  find (has_file f) c.

(** [collection.insert(doc)]; the callers insert only after [by] found nothing,
    so the unique index never rejects the document. *)
Definition insert (doc : FileRecord) (c : Collection) : Collection := c ++ [doc].

(** [collection.update(doc)]: the document with that key is replaced.  The
    callers pass documents they got from [by], so there is one. *)
Definition update (doc : FileRecord) (c : Collection) : Collection :=
  map (fun r => if has_file (file doc) r then doc else r) c.

(** A property assignment through a reference obtained from [by]: the
    collection holds the very same object, so the stored document changes
    with it.  No document has the key of a fresh object, which is then
    left to [insert]. *)
Definition assign (f : string) (g : FileRecord -> FileRecord) (c : Collection) : Collection :=
  map (fun r => if has_file f r then g r else r) c.

(** [collection.find({ dirty : true })] *)
Definition is_dirty (r : FileRecord) : bool :=
  match dirty r with Some true => true | _ => false end.
Definition find_dirty (c : Collection) : list FileRecord := filter is_dirty c.

(** [collection.where(fun)] *)
Definition where_ (p : FileRecord -> bool) (c : Collection) : list FileRecord := filter p c.

(** [collection.remove(doc)] *)
Definition remove (doc : FileRecord) (c : Collection) : Collection :=
  filter (fun r => negb (has_file (file doc) r)) c.

End Loki.

(** ** The FileWatcher *)

Module FileWatcher.

(** [files] is an object used as a map; the indexer only takes
    [Object.keys] of it, so the keys are kept, in their order. *)
Record t := mk { dirty : bool; files : list string; watchPath : string }.

(** Modelled from the spec: FileWatcher is not part of the sources at hand;
    [remove(path)] drops that path from the tracked set. *)
Definition remove (p : string) (w : t) : t :=
  mk (dirty w) (filter (fun q => negb (String.eqb q p)) (files w)) (watchPath w).

Definition set_dirty (b : bool) (w : t) : t := mk b (files w) (watchPath w).

End FileWatcher.

(** ** The world *)

(** The fields of the indexer object.  A callback field is [true] when a
    callback has been registered.  [_fileTable] is the collection [fileData]
    of [this._loki] and the reference the indexer keeps to it: both are
    absent until [start] has run. *)
Record Indexer := mkIndexer {
  _busy : bool;
  _errorsOccurred : bool;
  _processedCount : Z;
  _toProcessCount : Z;
  _fileKeys : list string;
  _fileTable : option Loki.Collection;
  _interval : bool;
  _onIndexingStart : bool;
  _onIndexingDone : bool;
  _onProgress : bool }.

(** The files the indexer owns.  The index file, the status file and the
    emptying of the log are written by calls the indexer waits for.  The
    cache file and the lines of the log are written by calls it does not
    wait for ([saveDatabase], [fs.appendFile]): [lokiFile] and [logFile]
    hold what has been handed over to those calls, which is what the files
    hold once the writes have landed. *)
Record Disk := mkDisk {
  lokiFile : option LokiFile;
  logFile : list string;
  indexFile : option IndexDocument;
  statusFile : option Status }.

(** What the run leaves behind besides its files: the [setImmediate] queue,
    how often the clock was read, which files went to the tag reader, the
    callbacks made, and the rejections nobody handles. *)
Record Trace := mkTrace {
  immediates : nat;
  clockReads : nat;
  tagReads : list string;
  events : list Event;
  unhandled : list Exn }.

Record World := mkWorld {
  this : Indexer;
  _fileWatcher : FileWatcher.t;
  disk : Disk;
  trace : Trace }.

Definition on_this (f : Indexer -> Indexer) (w : World) : World :=
  mkWorld (f (this w)) (_fileWatcher w) (disk w) (trace w).
Definition on_watcher (f : FileWatcher.t -> FileWatcher.t) (w : World) : World :=
  mkWorld (this w) (f (_fileWatcher w)) (disk w) (trace w).
Definition on_disk (f : Disk -> Disk) (w : World) : World :=
  mkWorld (this w) (_fileWatcher w) (f (disk w)) (trace w).
Definition on_trace (f : Trace -> Trace) (w : World) : World :=
  mkWorld (this w) (_fileWatcher w) (disk w) (f (trace w)).

Definition set_busy (v : bool) (i : Indexer) : Indexer :=
  mkIndexer v (_errorsOccurred i) (_processedCount i) (_toProcessCount i) (_fileKeys i)
    (_fileTable i) (_interval i) (_onIndexingStart i) (_onIndexingDone i) (_onProgress i).
Definition set_errorsOccurred (v : bool) (i : Indexer) : Indexer :=
  mkIndexer (_busy i) v (_processedCount i) (_toProcessCount i) (_fileKeys i)
    (_fileTable i) (_interval i) (_onIndexingStart i) (_onIndexingDone i) (_onProgress i).
Definition set_processedCount (v : Z) (i : Indexer) : Indexer :=
  mkIndexer (_busy i) (_errorsOccurred i) v (_toProcessCount i) (_fileKeys i)
    (_fileTable i) (_interval i) (_onIndexingStart i) (_onIndexingDone i) (_onProgress i).
Definition set_snapshot (keys : list string) (i : Indexer) : Indexer :=
  mkIndexer (_busy i) (_errorsOccurred i) (_processedCount i) (Z.of_nat (length keys)) keys
    (_fileTable i) (_interval i) (_onIndexingStart i) (_onIndexingDone i) (_onProgress i).
Definition set_fileTable (v : option Loki.Collection) (i : Indexer) : Indexer :=
  mkIndexer (_busy i) (_errorsOccurred i) (_processedCount i) (_toProcessCount i) (_fileKeys i)
    v (_interval i) (_onIndexingStart i) (_onIndexingDone i) (_onProgress i).
Definition set_interval (v : bool) (i : Indexer) : Indexer :=
  mkIndexer (_busy i) (_errorsOccurred i) (_processedCount i) (_toProcessCount i) (_fileKeys i)
    (_fileTable i) v (_onIndexingStart i) (_onIndexingDone i) (_onProgress i).

Definition set_onIndexingStart (v : bool) (i : Indexer) : Indexer :=
  mkIndexer (_busy i) (_errorsOccurred i) (_processedCount i) (_toProcessCount i) (_fileKeys i)
    (_fileTable i) (_interval i) v (_onIndexingDone i) (_onProgress i).
Definition set_onIndexingDone (v : bool) (i : Indexer) : Indexer :=
  mkIndexer (_busy i) (_errorsOccurred i) (_processedCount i) (_toProcessCount i) (_fileKeys i)
    (_fileTable i) (_interval i) (_onIndexingStart i) v (_onProgress i).
Definition set_onProgress (v : bool) (i : Indexer) : Indexer :=
  mkIndexer (_busy i) (_errorsOccurred i) (_processedCount i) (_toProcessCount i) (_fileKeys i)
    (_fileTable i) (_interval i) (_onIndexingStart i) (_onIndexingDone i) v.

Definition set_lokiFile (v : option LokiFile) (d : Disk) : Disk :=
  mkDisk v (logFile d) (indexFile d) (statusFile d).
Definition set_logFile (v : list string) (d : Disk) : Disk :=
  mkDisk (lokiFile d) v (indexFile d) (statusFile d).
Definition set_indexFile (v : option IndexDocument) (d : Disk) : Disk :=
  mkDisk (lokiFile d) (logFile d) v (statusFile d).
Definition set_statusFile (v : option Status) (d : Disk) : Disk :=
  mkDisk (lokiFile d) (logFile d) (indexFile d) v.

Definition set_immediates (v : nat) (t : Trace) : Trace :=
  mkTrace v (clockReads t) (tagReads t) (events t) (unhandled t).
Definition set_clockReads (v : nat) (t : Trace) : Trace :=
  mkTrace (immediates t) v (tagReads t) (events t) (unhandled t).
Definition add_tagRead (f : string) (t : Trace) : Trace :=
  mkTrace (immediates t) (clockReads t) (tagReads t ++ [f]) (events t) (unhandled t).
Definition add_event (e : Event) (t : Trace) : Trace :=
  mkTrace (immediates t) (clockReads t) (tagReads t) (events t ++ [e]) (unhandled t).
Definition add_unhandled (ex : Exn) (t : Trace) : Trace :=
  mkTrace (immediates t) (clockReads t) (tagReads t) (events t) (unhandled t ++ [ex]).

(** ** What the indexer asks of its surroundings *)

Record Env := mkEnv {
(** [fs.pathExists(file)].  fs-extra's [pathExists] resolves for every
    path, to [true] or to [false]; [Err] is an existence check that throws,
    which the indexer does not meet with this library. *)
  pathExists : string -> result bool;
(** [fs.statSync(file).mtime.toString()] *)
  statSync_mtime : string -> result string;
(** [jsmediatags.read]: [onSuccess] gives [Ok], [onError] the error *)
  jsmediatags_read : string -> result Tag;
(** the n-th reading of [new Date().getTime()] *)
  getTime : nat -> Z;
(** does [fs.outputFile(indexPath, xml)] fail, and with what *)
  outputFile_index : option Exn;
(** does [jsonfile.writeFileSync(statusPath, status)] fail, and with what *)
  writeFileSync_status : option Exn;
(** [require('./istagValid')] *)
  isTagValid : TagData -> bool;
(** [pathHelper.toUnixPath] *)
  toUnixPath : string -> string;
(** [Math.floor(processed / toProcess * 100)], computed in floating point *)
  floorPercent : Z -> Z -> Z }.

(** ** Completions and the method monad *)

(** How a block of statements ends. *)
Inductive completion (A : Type) : Type :=
| Normal (a : A)
| Return
| Throw (ex : Exn).
Arguments Normal {A} a.
Arguments Return {A}.
Arguments Throw {A} ex.

Definition M (S A : Type) : Type := S -> S * completion A.

Definition ret {S A} (a : A) : M S A := fun s => (s, Normal a).

Definition bind {S A B} (m : M S A) (k : A -> M S B) : M S B :=
  fun s =>
    match m s with
    | (s', Normal a) => k a s'
    | (s', Return) => (s', Return)
    | (s', Throw ex) => (s', Throw ex)
    end.

Definition gets {S A} (f : S -> A) : M S A := fun s => (s, Normal (f s)).
Definition modify {S} (f : S -> S) : M S unit := fun s => (f s, Normal tt).
Definition return_ {S A} : M S A := fun s => (s, Return).
Definition throw {S A} (ex : Exn) : M S A := fun s => (s, Throw ex).

(** [await] of a promise, or a call that may throw. *)
Definition await {S A} (r : result A) : M S A :=
  match r with Ok a => ret a | Err ex => throw ex end.

(** [try { body } catch (ex) { handler }] *)
Definition try_catch {S A} (body : M S A) (handler : Exn -> M S A) : M S A :=
  fun s =>
    match body s with
    | (s', Throw ex) => handler ex s'
    | done => done
    end.

(** [try { body } finally { fin }]: [fin] always runs, and the completion of
    [body] stands unless [fin] ends abruptly itself. *)
Definition try_finally {S A B} (body : M S A) (fin : M S B) : M S A :=
  fun s =>
    let (s', c) := body s in
    match fin s' with
    | (s'', Normal _) => (s'', c)
    | (s'', Return) => (s'', Return)
    | (s'', Throw ex) => (s'', Throw ex)
    end.

Declare Scope method_scope.
Delimit Scope method_scope with method.
Notation "x <- m ;; k" := (bind m (fun x => k))
  (at level 61, m at next level, right associativity) : method_scope.
Notation "m ;; k" := (bind m (fun _ => k))
  (at level 61, right associativity) : method_scope.
Local Open Scope method_scope.

(** [when c m] is [if (c) m]. *)
Definition when {S} (c : bool) (m : M S unit) : M S unit := if c then m else ret tt.

(** ** Strings *)

(** [s.replace(pattern, replacement)] with a string pattern: the first
    occurrence only. *)
Fixpoint replace (pattern replacement s : string) : string :=
  if String.prefix pattern s
  then (replacement ++ substring (String.length pattern)
                         (String.length s - String.length pattern) s)%string
  else match s with
       | EmptyString => EmptyString
       | String c s' => String c (replace pattern replacement s')
       end.

(** A path in a template string or a concatenation; [undefined] prints as such. *)
Definition show (f : option string) : string :=
  match f with Some p => p | None => "undefined"%string end.

(** ** Methods of the indexer *)

Section Indexer.

Variable env : Env.

(** [this._fileTable], which is [null] until [start] has run. *)
Definition fileTable_deref : M World Loki.Collection :=
  t <- gets (fun w => _fileTable (this w));;
  match t with
  | Some c => ret c
  | None => throw TypeError
  end.

Definition fileTable_set (c : Loki.Collection) : M World unit :=
  modify (on_this (set_fileTable (Some c))).

(** [writeToLog(text)] hands one line to [fs.appendFile], which the source
    does not wait for and whose error it only prints.  [logFile] takes the
    line at the call: it is the log as the appends handed over so far leave
    it, each in its turn. *)
Definition writeToLog (text : string) : M World unit :=
  modify (on_disk (fun d => set_logFile (logFile d ++ [text]) d)).

(** [this._loki.saveDatabase()], which the source calls without a callback
    and does not wait for.  [lokiFile] takes the collection as it is at the
    call: it is the cache file as this save leaves it, not what the file
    holds at the moment the method goes on. *)
Definition saveDatabase : M World unit :=
  modify (fun w =>
    on_disk (set_lokiFile (Some (match _fileTable (this w) with
                                 | Some c => FileData c
                                 | None => NoFileData
                                 end))) w).

(** [new Date().getTime()] *)
Definition Date_getTime : M World Z :=
  n <- gets (fun w => clockReads (trace w));;
  modify (on_trace (set_clockReads (S n)));;
  ret (getTime env n).

Definition emit (e : Event) : M World unit := modify (on_trace (add_event e)).

(** [_createCollection]: [addCollection] hands back the collection of that
    name when the database has one. *)
Definition _createCollection : M World unit :=
  t <- gets (fun w => _fileTable (this w));;
  match t with
  | Some _ => ret tt
  | None => fileTable_set []
  end.

(** [_loadLokiFromFile] *)
Definition _loadLokiFromFile : M World unit :=
  persisted <- gets (fun w => lokiFile (disk w));;
  modify (on_this (set_fileTable
    match persisted with
    | Some (FileData docs) => Some docs
    | _ => None
    end));;
  t <- gets (fun w => _fileTable (this w));;
  match t with
  | Some _ => ret tt
  | None =>
      modify (on_disk (set_lokiFile None));;
      _createCollection
  end.

(** [constructor(fileWatcher)], with the files found on disk. *)
Definition new_Indexer (fileWatcher : FileWatcher.t) (d : Disk) : World :=
  mkWorld (mkIndexer false false 0 0 [] None false false false false)
    fileWatcher d (mkTrace 0 0 [] [] []).

(** [onProgress(callback)], [onIndexingStart(callback)], [onIndexingDone(callback)] *)
Definition onProgress : M World unit := modify (on_this (set_onProgress true)).
Definition onIndexingStart : M World unit := modify (on_this (set_onIndexingStart true)).
Definition onIndexingDone : M World unit := modify (on_this (set_onIndexingDone true)).

(** [start] *)
Definition start : M World unit :=
  persisted <- gets (fun w => lokiFile (disk w));;
  match persisted with
  | Some _ => _loadLokiFromFile
  | None => _createCollection
  end;;
  modify (on_this (set_interval true)).

(** [dispose] *)
Definition dispose : M World unit := modify (on_this (set_interval false)).

(** [getAllFiles] *)
Definition getAllFiles : M World (list FileRecord) := fileTable_deref.

(** [wipe] *)
Definition wipe : M World unit :=
  modify (on_disk (set_indexFile None));;
  modify (on_disk (set_statusFile None));;
  fileTable_deref;;
  fileTable_set [];;
  saveDatabase.

(** [_readID3Tag(filePath)] *)
Definition _readID3Tag (filePath : string) : M World Tag :=
  modify (on_trace (add_tagRead filePath));;
  await (jsmediatags_read env filePath).

(** [_handleNextFile()] itself only queues its callback. *)
Definition _handleNextFile : M World unit :=
  modify (on_trace (fun t => set_immediates (S (immediates t)) t)).

(** [_startHandlingFileChanges], the body of the interval callback.
    [emptied] is what the awaited [fs.outputFile(this.logPath, '')] comes
    back with: when it rejects, the method ends there, with [_busy] up and
    no callback queued. *)
Definition _startHandlingFileChanges (emptied : result unit) : M World unit :=
  d <- gets (fun w => FileWatcher.dirty (_fileWatcher w));;
  (if negb d then return_ else ret tt);;
  b <- gets (fun w => _busy (this w));;
  (if b then return_ else ret tt);;
  modify (on_watcher (FileWatcher.set_dirty false));;
  modify (on_this (set_busy true));;
  modify (on_this (set_errorsOccurred false));;
  hook <- gets (fun w => _onIndexingStart (this w));;
  when hook (emit IndexingStart);;
  await emptied;;
  modify (on_disk (set_logFile []));;
  modify (on_this (set_processedCount (-1)));;
  keys <- gets (fun w => FileWatcher.files (_fileWatcher w));;
  modify (on_this (set_snapshot keys));;
  _handleNextFile.

(** *** The callback of [_handleNextFile] *)

(** The activation of the callback: the world, and the callback's [var]s,
    which are hoisted and therefore in scope (and possibly still
    [undefined]) in the [catch] clause. *)
Record Frame := mkFrame {
  world : World;
  var_file : option string;
  fileStats : option string;
  fileCachedData : option FileRecord;
  insert : option bool }.

Definition enter (w : World) : Frame := mkFrame w None None None None.

Definition set_world (w : World) (fr : Frame) : Frame :=
  mkFrame w (var_file fr) (fileStats fr) (fileCachedData fr) (insert fr).
Definition set_var_file (v : option string) (fr : Frame) : Frame :=
  mkFrame (world fr) v (fileStats fr) (fileCachedData fr) (insert fr).
Definition set_fileStats (v : option string) (fr : Frame) : Frame :=
  mkFrame (world fr) (var_file fr) v (fileCachedData fr) (insert fr).
Definition set_fileCachedData (v : option FileRecord) (fr : Frame) : Frame :=
  mkFrame (world fr) (var_file fr) (fileStats fr) v (insert fr).
Definition set_insert (v : option bool) (fr : Frame) : Frame :=
  mkFrame (world fr) (var_file fr) (fileStats fr) (fileCachedData fr) v.

(** A method or a statement on [this], run inside the callback. *)
Definition in_world {A} (m : M World A) : M Frame A :=
  fun fr => let (w, c) := m (world fr) in (set_world w fr, c).

(** [fileCachedData.p = v].  The variable may be [undefined]; when it holds
    a document of the collection, the collection sees the assignment. *)
Definition fileCachedData_assign (g : FileRecord -> FileRecord) : M Frame unit :=
  r <- gets fileCachedData;;
  match r with
  | None => throw TypeError
  | Some doc =>
      modify (set_fileCachedData (Some (g doc)));;
      modify (fun fr => set_world
        (on_this (fun i => set_fileTable
           (option_map (Loki.assign (file doc) g) (_fileTable i)) i) (world fr)) fr)
  end.

(** [fileStats ? fileStats.mtime.toString() : ''] *)
Definition fileStats_mtime_or_empty : M Frame string :=
  stats <- gets fileStats;;
  ret (match stats with Some m => m | None => EmptyString end).

(** [if (insert) this._fileTable.insert(fileCachedData) else this._fileTable.update(fileCachedData)] *)
Definition insert_or_update : M Frame unit :=
  ins <- gets insert;;
  doc <- gets fileCachedData;;
  c <- in_world fileTable_deref;;
  match doc with
  | None => throw TypeError
  | Some d =>
      match ins with
      | Some true => in_world (fileTable_set (Loki.insert d c))
      | _ => in_world (fileTable_set (Loki.update d c))
      end
  end.

Definition eligible (t : Tag) : bool :=
  (String.eqb (type t) "ID3" || String.eqb (type t) "MP4")%bool.

(** The [try] block, from the path that was looked up in [_fileKeys]. *)
Definition try_block_at (f : string) : M Frame unit :=
  present <- await (pathExists env f);;
  (if negb present
   then in_world (modify (on_watcher (FileWatcher.remove f)));; return_
   else ret tt);;
  c <- in_world fileTable_deref;;
  modify (set_fileCachedData (Loki.by_file f c));;
  cached <- gets fileCachedData;;
  match cached with
  | Some doc =>
      m <- await (statSync_mtime env f);;
      modify (set_fileStats (Some m));;
      (if match mtime doc with Some m' => String.eqb m m' | None => false end
       then return_ else ret tt)
  | None => ret tt
  end;;
  modify (set_insert (Some false));;
  match cached with
  | None =>
      modify (set_fileCachedData (Some (mkFileRecord f None None None None)));;
      modify (set_insert (Some true))
  | Some _ => ret tt
  end;;
  tag <- in_world (_readID3Tag f);;
  when (eligible tag) (
    let fileNormalized := toUnixPath env f in
    fileCachedData_assign (set_dirty true);;
    m <- fileStats_mtime_or_empty;;
    fileCachedData_assign (set_mtime m);;
    watchPath <- gets (fun fr => FileWatcher.watchPath (_fileWatcher (world fr)));;
    let data := mkTagData (title (tags tag)) (tags_album (tags tag)) (tags_track (tags tag))
                  (tags_artist (tags tag)) (replace watchPath "/" fileNormalized) in
    fileCachedData_assign (set_tagData (Some data));;
    fileCachedData_assign (set_isValid (isTagValid env data));;
    pc <- gets (fun fr => _processedCount (this (world fr)));;
    tpc <- gets (fun fr => _toProcessCount (this (world fr)));;
    hook <- gets (fun fr => _onProgress (this (world fr)));;
    when hook (in_world (emit (Progress (floorPercent env pc tpc)
                                 (title (tags tag)) (tags_artist (tags tag)))));;
    insert_or_update).

(** [this._fileKeys[this._processedCount]] *)
Definition fileKeys_at (w : World) : option string :=
  let pc := _processedCount (this w) in
  if pc <? 0 then None else nth_error (_fileKeys (this w)) (Z.to_nat pc).

(** The whole [try] block.  An index outside the snapshot yields
    [undefined], for which [pathExists] resolves to [false] and the watcher
    has nothing to remove. *)
Definition try_block : M Frame unit :=
  f <- gets (fun fr => fileKeys_at (world fr));;
  modify (set_var_file f);;
  match f with
  | Some p => try_block_at p
  | None => return_
  end.

(** The [catch] clause. *)
Definition catch_block (ex : Exn) : M Frame unit :=
  f <- gets var_file;;
  let message :=
    match ex_type ex with
    | Some t => if String.eqb t "tagfail"
                then (show f ++ " tag read fail.")%string
                else (show f ++ " could not be read, is it properly tagged?")%string
    | None => (show f ++ " could not be read, is it properly tagged?")%string
    end in
  fileCachedData_assign (set_dirty false);;
  m <- fileStats_mtime_or_empty;;
  fileCachedData_assign (set_mtime m);;
  fileCachedData_assign (set_tagData None);;
  insert_or_update;;
  in_world (writeToLog (message ++ " : " ++ ex_json ex)%string);;
  in_world (modify (on_this (set_errorsOccurred true))).

(** [try { ... } catch (ex) { ... } finally { this._handleNextFile() }] *)
Definition process_file : M Frame unit :=
  try_finally (try_catch try_block catch_block) (in_world _handleNextFile).

(** *** [_finishHandlingChanges] *)

Definition item_of (id3 : TagData) : Item :=
  mkItem (album id3) (artist id3) (name id3) (clippedPath id3).

(** The [for] loop over [allProperties]; [written] are the [<item>]s the
    writer holds so far. *)
Fixpoint write_items (allProperties : list string) (written : list Item) : M World (list Item) :=
  match allProperties with
  | [] => ret written
  | p :: rest =>
      c <- fileTable_deref;;
      match Loki.by_file p c with
      | None => write_items rest written
      | Some fileData =>
          match tagData fileData with
          | None =>
              writeToLog (p ++ " has no tag data")%string;;
              write_items rest written
          | Some id3 =>
              if negb (isTagValid env id3)
              then
                writeToLog (clippedPath id3 ++ " isn't properly tagged")%string;;
                modify (on_this (set_errorsOccurred true));;
                write_items rest written
              else write_items rest (written ++ [item_of id3])
          end
      end
  end.

(** [record.dirty = false; this._fileTable.update(record)] for each of [dirty] *)
Fixpoint clean_dirty (dirty : list FileRecord) : M World unit :=
  match dirty with
  | [] => ret tt
  | record :: rest =>
      c <- fileTable_deref;;
      fileTable_set (Loki.update (set_dirty false record)
                       (Loki.assign (file record) (set_dirty false) c));;
      clean_dirty rest
  end.

(** [this._fileTable.remove(orphans[i])] for each of [orphans] *)
Fixpoint remove_all (orphans : list FileRecord) : M World unit :=
  match orphans with
  | [] => ret tt
  | o :: rest =>
      c <- fileTable_deref;;
      fileTable_set (Loki.remove o c);;
      remove_all rest
  end.

(** [allProperties.indexOf(r.file) === -1] *)
Definition not_listed (allProperties : list string) (r : FileRecord) : bool :=
  negb (existsb (String.eqb (file r)) allProperties).

(** The [try] block of [_finishHandlingChanges]. *)
Definition finish_block : M World unit :=
  saveDatabase;;
  c <- fileTable_deref;;
  let dirty := Loki.find_dirty c in
  (match dirty with [] => return_ | _ :: _ => ret tt end);;
  allProperties <- gets (fun w => FileWatcher.files (_fileWatcher w));;
  built <- Date_getTime;;
  written <- write_items allProperties [];;
  let xml := mkIndex built written in
  await (match outputFile_index env with Some ex => Err ex | None => Ok tt end);;
  modify (on_disk (set_indexFile (Some xml)));;
  now <- Date_getTime;;
  let status := mkStatus now in
  await (match writeFileSync_status env with Some ex => Err ex | None => Ok tt end);;
  modify (on_disk (set_statusFile (Some status)));;
  clean_dirty dirty;;
  c' <- fileTable_deref;;
  let orphans := Loki.where_ (not_listed allProperties) c' in
  remove_all orphans;;
  saveDatabase.

(** The [finally] clause of [_finishHandlingChanges]. *)
Definition finish_finally : M World unit :=
  hook <- gets (fun w => _onIndexingDone (this w));;
  when hook (emit IndexingDone);;
  modify (on_this (set_busy false)).

Definition _finishHandlingChanges : M World unit :=
  try_finally finish_block finish_finally.

(** *** Running callbacks *)

(** A promise nobody awaits: when the method throws, the rejection is unhandled. *)
Definition settle {S} (world_of : S -> World) (r : S * completion unit) : World :=
  match r with
  | (s, Throw ex) => on_trace (add_unhandled ex) (world_of s)
  | (s, _) => world_of s
  end.

(** One run of the callback that [_handleNextFile] passed to [setImmediate]. *)
Definition _handleNextFile_callback (w : World) : World :=
  let w := on_trace (fun t => set_immediates (pred (immediates t)) t) w in
  let w := on_this (fun i => set_processedCount (_processedCount i + 1) i) w in
  if _toProcessCount (this w) <=? _processedCount (this w)
  then settle (fun s => s) (_finishHandlingChanges w)
  else settle world (process_file (enter w)).

(** One run of the interval callback that [start] installed; nothing
    handles its rejection. *)
Definition tick (emptied : result unit) (w : World) : World :=
  settle (fun s => s) (_startHandlingFileChanges emptied w).

(** The tick whose log is emptied. *)
Definition interval_callback (w : World) : World := tick (Ok tt) w.

(** The event loop: queued callbacks run while there are any.  [fuel]
    bounds how many. *)
Fixpoint drain (fuel : nat) (w : World) : World :=
  match fuel with
  | O => w
  | S k =>
      match immediates (trace w) with
      | O => w
      | S _ => drain k (_handleNextFile_callback w)
      end
  end.

(** How many callbacks a run still needs: one for each path not yet
    visited and the one that finishes. *)
Definition callbacks_left (w : World) : nat :=
  Z.to_nat (_toProcessCount (this w) - _processedCount (this w)).

(** A tick of the interval whose log is emptied, and everything it sets off. *)
Definition run (w : World) : World :=
  let w := interval_callback w in
  drain (callbacks_left w) w.

End Indexer.

(** * The vocabulary of the properties *)

(** The unique index on [file]. *)
Definition unique (c : Loki.Collection) : Prop := NoDup (map file c).

(** An assignment that leaves the key alone. *)
Definition keeps_file (g : FileRecord -> FileRecord) : Prop := forall r, file (g r) = file r.

Section Vocabulary.
Variable env : Env.

(** A method leaves a projection of the world as it found it. *)
Definition preserves {A B : Type} (proj : World -> B) (m : M World A) : Prop :=
  forall w, proj (fst (m w)) = proj w.

(** Projections that no assignment to the collection, the log, the flag
    [_errorsOccurred], the clock count or the output files can change. *)
Definition beside_outputs {B} (proj : World -> B) : Prop :=
  (forall f w, proj (on_disk f w) = proj w) /\
  (forall v w, proj (on_this (set_fileTable v) w) = proj w) /\
  (forall v w, proj (on_this (set_errorsOccurred v) w) = proj w) /\
  (forall v w, proj (on_trace (set_clockReads v) w) = proj w).

(** Nothing or one element. *)
Definition olist {A} (o : option A) : list A :=
  match o with Some a => [a] | None => [] end.

(** What the loop does with one path, read off the collection. *)
Definition entry (c : Loki.Collection) (p : string) : option Item :=
  match Loki.by_file p c with
  | Some fileData =>
      match tagData fileData with
      | Some id3 => if isTagValid env id3 then Some (item_of id3) else None
      | None => None
      end
  | None => None
  end.

(** The line the loop logs for one path, if any. *)
Definition complaint (c : Loki.Collection) (p : string) : option string :=
  match Loki.by_file p c with
  | Some fileData =>
      match tagData fileData with
      | Some id3 => if isTagValid env id3 then None
                    else Some (clippedPath id3 ++ " isn't properly tagged")%string
      | None => Some (p ++ " has no tag data")%string
      end
  | None => None
  end.

(** Does the loop raise [_errorsOccurred] for this path. *)
Definition mistagged (c : Loki.Collection) (p : string) : bool :=
  match Loki.by_file p c with
  | Some fileData =>
      match tagData fileData with
      | Some id3 => negb (isTagValid env id3)
      | None => false
      end
  | None => false
  end.

(** The items and the lines of the whole loop. *)
Definition entries (c : Loki.Collection) (props : list string) : list Item :=
  flat_map (fun p => olist (entry c p)) props.
Definition complaints (c : Loki.Collection) (props : list string) : list string :=
  flat_map (fun p => olist (complaint c p)) props.

(** Lines appended to the log and the flag raised. *)
Definition noted (lines : list string) (flag : bool) (w : World) : World :=
  on_this (fun i => set_errorsOccurred (_errorsOccurred i || flag) i)
    (on_disk (fun d => set_logFile (logFile d ++ lines) d) w).

(** The collection after the loop that clears [dirty], and after the loop
    that removes the orphans. *)
Definition cleaned (ds : list FileRecord) (c : Loki.Collection) : Loki.Collection :=
  fold_left (fun c' record =>
               Loki.update (set_dirty false record)
                 (Loki.assign (file record) (set_dirty false) c')) ds c.

(** The collection after [remove] of each of [os]. *)
Definition removed (os : list FileRecord) (c : Loki.Collection) : Loki.Collection :=
  fold_left (fun c' o => Loki.remove o c') os c.

(** The collection once the orphans are gone. *)
Definition pruned (props : list string) (c : Loki.Collection) : Loki.Collection :=
  removed (Loki.where_ (not_listed props) c) c.

(** The [finally] clause, explicitly. *)
Definition done (w : World) : World :=
  on_this (set_busy false)
    (if _onIndexingDone (this w) then on_trace (add_event IndexingDone) w else w).

(** The world after the [try] block went all the way through. *)
Definition rebuilt (w : World) (c : Loki.Collection) : World :=
  let props := FileWatcher.files (_fileWatcher w) in
  let n := clockReads (trace w) in
  let c' := pruned props (cleaned (Loki.find_dirty c) c) in
  mkWorld
    (mkIndexer (_busy (this w))
       (_errorsOccurred (this w) || existsb (mistagged c) props)
       (_processedCount (this w)) (_toProcessCount (this w)) (_fileKeys (this w))
       (Some c') (_interval (this w)) (_onIndexingStart (this w))
       (_onIndexingDone (this w)) (_onProgress (this w)))
    (_fileWatcher w)
    (mkDisk (Some (FileData c')) (logFile (disk w) ++ complaints c props)
       (Some (mkIndex (getTime env n) (entries c props)))
       (Some (mkStatus (getTime env (S n)))))
    (mkTrace (immediates (trace w)) (S (S n)) (tagReads (trace w)) (events (trace w))
       (unhandled (trace w))).

(** The callback's bookkeeping before its [try]. *)
Definition advance (w : World) : World :=
  on_this (fun i => set_processedCount (_processedCount i + 1) i)
    (on_trace (fun t => set_immediates (pred (immediates t)) t) w).

(** The path the next callback looks at. *)
Definition next_file (w : World) : option string := fileKeys_at (advance w).

(** The callback when it does not finish the run. *)
Definition visit (w : World) : World := settle world (process_file env (enter (advance w))).

(** [this._handleNextFile()] in the [finally] clause. *)
Definition queued (w : World) : World :=
  on_trace (fun t => set_immediates (S (immediates t)) t) w.

(** A rejection nobody handles. *)
Definition lost (ex : Exn) (w : World) : World := on_trace (add_unhandled ex) w.

(** Assignments to the properties of one document, then [insert] or [update]. *)
Definition apply_all (gs : list (FileRecord -> FileRecord)) (doc : FileRecord) : FileRecord :=
  fold_left (fun d g => g d) gs doc.

(** The collection after these assignments to the document of [f]. *)
Definition assigned (f : string) (gs : list (FileRecord -> FileRecord)) (c : Loki.Collection) :=
  fold_left (fun c' g => Loki.assign f g c') gs c.

(** [insert] of a fresh document, [update] of a cached one. *)
Definition upsert (ins : bool) (doc : FileRecord) (gs : list (FileRecord -> FileRecord))
    (c : Loki.Collection) : Loki.Collection :=
  if ins then Loki.insert (apply_all gs doc) (assigned (file doc) gs c)
  else Loki.update (apply_all gs doc) (assigned (file doc) gs c).

(** [fileStats ? fileStats.mtime.toString() : ''] *)
Definition or_empty (stats : option string) : string :=
  match stats with Some m => m | None => EmptyString end.

(** The assignments of the [catch] clause. *)
Definition failure_changes (stats : option string) : list (FileRecord -> FileRecord) :=
  [set_dirty false; set_mtime (or_empty stats); set_tagData None].

(** The line the [catch] clause logs. *)
Definition failure_line (f : string) (ex : Exn) : string :=
  ((match ex_type ex with
    | Some t => if String.eqb t "tagfail"
                then (f ++ " tag read fail.")
                else (f ++ " could not be read, is it properly tagged?")
    | None => (f ++ " could not be read, is it properly tagged?")
    end) ++ " : " ++ ex_json ex)%string.

(** The object assigned to [fileCachedData.tagData]. *)
Definition tagData_of (tag : Tag) (f watchPath : string) : TagData :=
  mkTagData (title (tags tag)) (tags_album (tags tag)) (tags_track (tags tag))
    (tags_artist (tags tag)) (replace watchPath "/" (toUnixPath env f)).

(** The assignments of the [try] block for an ID3 or MP4 tag. *)
Definition success_changes (stats : option string) (data : TagData)
  : list (FileRecord -> FileRecord) :=
  [set_dirty true; set_mtime (or_empty stats); set_tagData (Some data);
   set_isValid (isTagValid env data)].

(** The world after the [catch] clause has recorded a failure. *)
Definition failed (f : string) (ins : bool) (doc : FileRecord) (stats : option string) (ex : Exn)
    (c : Loki.Collection) (w : World) : World :=
  on_this (set_errorsOccurred true)
    (on_disk (fun d => set_logFile (logFile d ++ [failure_line f ex]) d)
       (on_this (set_fileTable (Some (upsert ins doc (failure_changes stats) c))) w)).

(** The world after the tag was stored. *)
Definition indexed (f : string) (ins : bool) (doc : FileRecord) (stats : option string) (tag : Tag)
    (c : Loki.Collection) (w : World) : World :=
  let data := tagData_of tag f (FileWatcher.watchPath (_fileWatcher w)) in
  on_this (set_fileTable (Some (upsert ins doc (success_changes stats data) c)))
    (if _onProgress (this w)
     then on_trace (add_event (Progress
            (floorPercent env (_processedCount (this w)) (_toProcessCount (this w)))
            (title (tags tag)) (tags_artist (tags tag)))) w
     else w).

(** The tag reader was called for [f]. *)
Definition read (f : string) (w : World) : World := on_trace (add_tagRead f) w.

(** [fileStats.mtime.toString() === fileCachedData.mtime] *)
Definition unchanged_since (doc : FileRecord) (m : string) : bool :=
  match mtime doc with Some m' => String.eqb m m' | None => false end.

(** What became of the document the callback worked on: the one found in
    the collection together with the [mtime] just read, or a fresh one. *)
Inductive subject (f : string) (c : Loki.Collection) : bool -> FileRecord -> option string -> Prop :=
| subject_cached doc m :
    Loki.by_file f c = Some doc -> statSync_mtime env f = Ok m ->
    unchanged_since doc m = false ->
    subject f c false doc (Some m)
| subject_new :
    Loki.by_file f c = None ->
    subject f c true (mkFileRecord f None None None None) None.

(** The outcomes of one visit. *)
Inductive visited (w : World) (f : string) : World -> Prop :=
| visit_threw ex :
    pathExists env f = Err ex ->
    visited w f (lost TypeError (queued (advance w)))
| visit_vanished :
    pathExists env f = Ok false ->
    visited w f (queued (on_watcher (FileWatcher.remove f) (advance w)))
| visit_no_table :
    pathExists env f = Ok true -> _fileTable (this w) = None ->
    visited w f (lost TypeError (queued (advance w)))
| visit_stat_threw c doc ex :
    pathExists env f = Ok true -> _fileTable (this w) = Some c ->
    Loki.by_file f c = Some doc -> statSync_mtime env f = Err ex ->
    visited w f (queued (failed f false doc None ex c (advance w)))
| visit_unchanged c doc m :
    pathExists env f = Ok true -> _fileTable (this w) = Some c ->
    Loki.by_file f c = Some doc -> statSync_mtime env f = Ok m ->
    unchanged_since doc m = true ->
    visited w f (queued (advance w))
| visit_read_failed c ins doc stats ex :
    pathExists env f = Ok true -> _fileTable (this w) = Some c ->
    subject f c ins doc stats ->
    jsmediatags_read env f = Err ex ->
    visited w f (queued (failed f ins doc stats ex c (read f (advance w))))
| visit_ignored c ins doc stats tag :
    pathExists env f = Ok true -> _fileTable (this w) = Some c ->
    subject f c ins doc stats ->
    jsmediatags_read env f = Ok tag -> eligible tag = false ->
    visited w f (queued (read f (advance w)))
| visit_indexed c ins doc stats tag :
    pathExists env f = Ok true -> _fileTable (this w) = Some c ->
    subject f c ins doc stats ->
    jsmediatags_read env f = Ok tag -> eligible tag = true ->
    visited w f (queued (indexed f ins doc stats tag c (read f (advance w)))).

(** No run is under way. *)
Definition idle (w : World) : Prop :=
  _busy (this w) = false /\ immediates (trace w) = 0%nat.

(** The cached record of a path. *)
Definition cached (f : string) (w : World) : option FileRecord :=
  match _fileTable (this w) with
  | Some c => Loki.by_file f c
  | None => None
  end.

(** The world right after a tick that starts a run. *)
Definition started (w : World) : World :=
  let keys := FileWatcher.files (_fileWatcher w) in
  mkWorld
    (mkIndexer true false (-1) (Z.of_nat (length keys)) keys (_fileTable (this w))
       (_interval (this w)) (_onIndexingStart (this w)) (_onIndexingDone (this w))
       (_onProgress (this w)))
    (FileWatcher.set_dirty false (_fileWatcher w))
    (set_logFile [] (disk w))
    (mkTrace (S (immediates (trace w))) (clockReads (trace w)) (tagReads (trace w))
       (events (trace w) ++ (if _onIndexingStart (this w) then [IndexingStart] else []))
       (unhandled (trace w))).

(** The world right after a tick that would have started a run and could
    not empty the log: the signal is taken, the guard is up, the callback of
    [onIndexingStart] has been called, and nothing is queued. *)
Definition stuck (ex : Exn) (w : World) : World :=
  mkWorld
    (mkIndexer true false (_processedCount (this w)) (_toProcessCount (this w))
       (_fileKeys (this w)) (_fileTable (this w))
       (_interval (this w)) (_onIndexingStart (this w)) (_onIndexingDone (this w))
       (_onProgress (this w)))
    (FileWatcher.set_dirty false (_fileWatcher w))
    (disk w)
    (mkTrace (immediates (trace w)) (clockReads (trace w)) (tagReads (trace w))
       (events (trace w) ++ (if _onIndexingStart (this w) then [IndexingStart] else []))
       (unhandled (trace w) ++ [ex])).

(** [k] paths of the snapshot have been visited and the next callback is queued. *)
Definition scanning (k : nat) (w : World) : Prop :=
  immediates (trace w) = 1%nat /\
  _processedCount (this w) = Z.of_nat k - 1 /\
  _toProcessCount (this w) = Z.of_nat (length (_fileKeys (this w))) /\
  (k <= length (_fileKeys (this w)))%nat.

(** The callback that finds every path visited. *)
Definition finishing (w : World) : World :=
  settle (fun s => s) (_finishHandlingChanges env (advance w)).

(** What the scan keeps true of a path whose cached [mtime] is the one on
    disk: its document, that the tag reader was not called for it, and its
    place in the watcher's set as long as it exists. *)
Definition kept (f : string) (r : FileRecord) (before : list string) (w : World) : Prop :=
  exists c new,
    _fileTable (this w) = Some c /\ unique c /\ Loki.by_file f c = Some r /\
    tagReads (trace w) = before ++ new /\ ~ In f new /\
    (pathExists env f = Ok true -> In f (FileWatcher.files (_fileWatcher w))).

(** The paths the loop writes an item for. *)
Definition accepted (c : Loki.Collection) (p : string) : Prop :=
  exists fileData id3,
    Loki.by_file p c = Some fileData /\ tagData fileData = Some id3 /\
    isTagValid env id3 = true.

(** The same, decided. *)
Definition has_entry (c : Loki.Collection) (p : string) : bool :=
  match entry c p with Some _ => true | None => false end.

(** The run at the point where every path of the snapshot has been visited. *)
Definition scanned (w : World) : World :=
  drain env (length (FileWatcher.files (_fileWatcher w))) (started w).

(** The tag reader is reached for a path without a cached record, and for a
    path whose cached [mtime] differs from the one on disk. *)
Definition due (f : string) (c : Loki.Collection) : Prop :=
  Loki.by_file f c = None \/
  exists doc m, Loki.by_file f c = Some doc /\ statSync_mtime env f = Ok m /\
                mtime doc <> Some m.

(** Every listed path is on disk with the [mtime] its record has. *)
Definition settled (c : Loki.Collection) (paths : list string) : Prop :=
  forall f, In f paths ->
    exists doc m, Loki.by_file f c = Some doc /\ statSync_mtime env f = Ok m /\
                  mtime doc = Some m.

End Vocabulary.

(** ** Further vocabulary *)

(** One document after the loop that clears [dirty] has gone over [ds]. *)
Definition clean_one (ds : list FileRecord) (x : FileRecord) : FileRecord :=
  fold_left (fun cur d => if Loki.has_file (file d) cur then set_dirty false d else cur) ds x.

(** A document with its [dirty] flag cleared when it was up. *)
Definition clear (x : FileRecord) : FileRecord :=
  if Loki.is_dirty x then set_dirty false x else x.

(** Some elements of a list, in their order. *)
Inductive picked {A : Type} : list A -> list A -> Prop :=
| picked_nil : picked [] []
| picked_skip x l l' : picked l l' -> picked l (x :: l')
| picked_take x l l' : picked l l' -> picked (x :: l) (x :: l').

(** The paths of the snapshot the scan has been through. *)
Definition been_through (w : World) : list string :=
  firstn (Z.to_nat (_processedCount (this w) + 1)) (_fileKeys (this w)).

(** The existence check finds the path on disk. *)
Definition present (env : Env) (p : string) : bool :=
  match pathExists env p with Ok true => true | _ => false end.

(** The existence check finds the path gone. *)
Definition gone (env : Env) (p : string) : bool :=
  match pathExists env p with Ok false => true | _ => false end.

(** The events that report progress. *)
Definition is_progress (e : Event) : Prop :=
  match e with Progress _ _ _ => True | _ => False end.

(** What a hooked callback adds to the events. *)
Definition fired (hook : bool) (e : Event) : list Event := if hook then [e] else [].

(** The record of a file seen for the first time whose tag was stored. *)
Definition first_record (env : Env) (tag_of : string -> Tag) (watchPath f : string)
  : FileRecord :=
  mkFileRecord f (Some true) (Some EmptyString)
    (Some (tagData_of env (tag_of f) f watchPath)) (Some true).

(** What the run needs of a file to leave its record settled: the file is
    on disk with a record and a readable [mtime], and when the record is
    stale the tag reader either rejects or delivers an ID3 or MP4 tag. *)
Definition settles (env : Env) (c : Loki.Collection) (f : string) : Prop :=
  pathExists env f = Ok true /\
  exists doc m,
    Loki.by_file f c = Some doc /\ statSync_mtime env f = Ok m /\
    (mtime doc = Some m \/ forall tag, jsmediatags_read env f = Ok tag -> eligible tag = true).

(** ** The life of a started indexer *)

(** What can happen to a started indexer: the interval fires (and the log
    is emptied or not), a queued callback runs (against whatever is on disk
    at that time), the watcher changes its state, the application calls a
    method. *)
Inductive step : World -> World -> Prop :=
| step_interval emptied w :
    _interval (this w) = true -> step w (tick emptied w)
| step_immediate env w :
    (0 < immediates (trace w))%nat -> step w (_handleNextFile_callback env w)
| step_watcher fw w :
    step w (on_watcher (fun _ => fw) w)
| step_onProgress w : step w (fst (onProgress w))
| step_onIndexingStart w : step w (fst (onIndexingStart w))
| step_onIndexingDone w : step w (fst (onIndexingDone w))
| step_wipe w : step w (settle (fun s => s) (wipe w))
| step_dispose w : step w (fst (dispose w)).

(** The worlds a started indexer can get to. *)
Inductive reachable : World -> Prop :=
| reachable_start fileWatcher d : reachable (fst (start (new_Indexer fileWatcher d)))
| reachable_step w w' : reachable w -> step w w' -> reachable w'.

(** The runs under way.  A run is under way from the tick that starts it to
    the end of [_finishHandlingChanges]; all that time it has exactly one
    callback in the queue: the tick queues the first, and each callback
    either queues the next or finishes the run. *)
Definition runs_under_way (w : World) : nat := immediates (trace w).

(** There is never more than one run under way, and none while the guard
    [_busy] is down. *)
Definition guarded (w : World) : Prop :=
  (runs_under_way w <= if _busy (this w) then 1 else 0)%nat.

(** ** A watched folder, for the examples *)

Module Scenario.

Local Open Scope string_scope.

(** Modelled from the spec: [./istagValid] is not among the sources at hand.
    A tag is valid only if name, album, artist and the relative path are
    present and not empty; the track number is not required. *)
Definition isTagValid_spec (t : TagData) : bool :=
  let filled o := match o with Some s => negb (String.eqb s "") | None => false end in
  (filled (name t) && filled (album t) && filled (artist t)
   && negb (String.eqb (clippedPath t) ""))%bool.

Definition a_mp3 : string := "/music/a.mp3".
Definition b_mp3 : string := "/music/b.mp3".
Definition c_mp3 : string := "/music/c.mp3".

(** [Date.prototype.toString()] of the files' modification time. *)
Definition stamp : string := "Sat Mar 07 2020 10:00:00 GMT+0000 (Greenwich Mean Time)".
Definition older : string := "Fri Mar 06 2020 10:00:00 GMT+0000 (Greenwich Mean Time)".

Definition song : Tag :=
  mkTag "ID3" (mkTags (Some "Song") (Some "Record") (Some "1") (Some "Band")).

Definition flac_song : Tag :=
  mkTag "FLAC" (mkTags (Some "Song") (Some "Record") (Some "1") (Some "Band")).

(** A clock that moves on by a millisecond from one reading to the next. *)
Definition clock (n : nat) : Z := 1583575200000 + Z.of_nat n.

(** Every file is there, was last modified at [stamp] and carries [song]. *)
Definition steady : Env :=
  mkEnv (fun _ => Ok true) (fun _ => Ok stamp) (fun _ => Ok song) clock None None
    isTagValid_spec (fun p => p) (fun processed toProcess => processed * 100 / toProcess).

(** The same folder when the tag reader reports another kind of tag. *)
Definition other_kind : Env :=
  mkEnv (fun _ => Ok true) (fun _ => Ok stamp) (fun _ => Ok flac_song) clock None None
    isTagValid_spec (fun p => p) (fun processed toProcess => processed * 100 / toProcess).

(** The same folder when the existence check throws. *)
Definition check_throws : Env :=
  mkEnv (fun _ => Err (mkExn None "{}")) (fun _ => Ok stamp) (fun _ => Ok song) clock None None
    isTagValid_spec (fun p => p) (fun processed toProcess => processed * 100 / toProcess).

Definition watcher (paths : list string) : FileWatcher.t := FileWatcher.mk true paths "/music/".

(** A started indexer with the three callbacks registered, nothing cached. *)
Definition fresh : World :=
  fst (start (fst (onIndexingDone (fst (onIndexingStart (fst (onProgress
    (new_Indexer (watcher [a_mp3]) (mkDisk None [] None None))))))))).

(** The watcher raises its signal again; nothing else changes. *)
Definition retrigger (w : World) : World := on_watcher (FileWatcher.set_dirty true) w.

Definition song_data (p : string) : TagData :=
  mkTagData (Some "Song") (Some "Record") (Some "1") (Some "Band") p.

Definition a_record : FileRecord :=
  mkFileRecord a_mp3 (Some false) (Some stamp) (Some (song_data "/a.mp3")) (Some true).
Definition a_stale : FileRecord :=
  mkFileRecord a_mp3 (Some false) (Some older) (Some (song_data "/a.mp3")) (Some true).
Definition a_pending : FileRecord :=
  mkFileRecord a_mp3 (Some true) (Some stamp) (Some (song_data "/a.mp3")) (Some true).
Definition b_record : FileRecord :=
  mkFileRecord b_mp3 (Some false) (Some stamp) (Some (song_data "/b.mp3")) (Some true).
Definition b_stale : FileRecord :=
  mkFileRecord b_mp3 (Some false) (Some older) (Some (song_data "/b.mp3")) (Some true).
Definition b_untagged : FileRecord :=
  mkFileRecord b_mp3 (Some false) (Some stamp) None None.
Definition c_nameless : FileRecord :=
  mkFileRecord c_mp3 (Some false) (Some stamp)
    (Some (mkTagData None (Some "Record") None (Some "Band") "/c.mp3")) (Some false).

(** An idle indexer with the given cache, watching the given paths. *)
Definition idling (docs : list FileRecord) (paths : list string) : World :=
  mkWorld (mkIndexer false false 0 0 [] (Some docs) true true true true)
    (watcher paths) (mkDisk (Some (FileData docs)) [] None None) (mkTrace 0 0 [] [] []).

(** The same indexer about to finish a run over these paths. *)
Definition finishing_up (docs : list FileRecord) (paths : list string) : World :=
  mkWorld (mkIndexer true false (Z.of_nat (length paths)) (Z.of_nat (length paths)) paths
             (Some docs) true true true true)
    (FileWatcher.mk false paths "/music/") (mkDisk (Some (FileData docs)) [] None None)
    (mkTrace 0 0 [] [IndexingStart] []).

(** A started indexer in the middle of its second run: the first run went
    over [a_mp3] and finished, the watcher signalled again, a tick started
    the second run, and the next tick found the guard up. *)
Definition second_run : World :=
  let w0 := fst (start (new_Indexer (watcher [a_mp3]) (mkDisk None [] None None))) in
  let w1 := tick (Ok tt) w0 in
  let w2 := _handleNextFile_callback steady w1 in
  let w3 := _handleNextFile_callback steady w2 in
  let w4 := on_watcher (fun _ => watcher [a_mp3]) w3 in
  let w5 := tick (Ok tt) w4 in
  tick (Ok tt) w5.

End Scenario.

(** ** The same folder when things go wrong *)

Module Mishaps.
Import Scenario.

Local Open Scope string_scope.

(** An [Error] thrown while a tag is read: it has no [type], and
    [JSON.stringify] makes [{}] of it. *)
Definition read_error : Exn := mkExn None "{}".

(** The files are there but the tag reader fails for each. *)
Definition unreadable : Env :=
  mkEnv (fun _ => Ok true) (fun _ => Ok stamp) (fun _ => Err read_error) clock None None
    isTagValid_spec (fun p => p) (fun processed toProcess => processed * 100 / toProcess).

(** [statSync] throws for every file. *)
Definition stat_throws : Env :=
  mkEnv (fun _ => Ok true) (fun _ => Err (mkExn None "{}")) (fun _ => Ok song) clock None None
    isTagValid_spec (fun p => p) (fun processed toProcess => processed * 100 / toProcess).

(** Every file is gone from disk. *)
Definition all_gone : Env :=
  mkEnv (fun _ => Ok false) (fun _ => Err (mkExn None "{}")) (fun _ => Ok song) clock None None
    isTagValid_spec (fun p => p) (fun processed toProcess => processed * 100 / toProcess).

(** The index file cannot be written. *)
Definition disk_full : Env :=
  mkEnv (fun _ => Ok true) (fun _ => Ok stamp) (fun _ => Ok song) clock
    (Some (mkExn None "{}")) None
    isTagValid_spec (fun p => p) (fun processed toProcess => processed * 100 / toProcess).

(** The status file cannot be written. *)
Definition status_locked : Env :=
  mkEnv (fun _ => Ok true) (fun _ => Ok stamp) (fun _ => Ok song) clock
    None (Some (mkExn None "{}"))
    isTagValid_spec (fun p => p) (fun processed toProcess => processed * 100 / toProcess).

End Mishaps.

(** * Properties *)

(** ** The collection *)

Module LokiFacts.
Import Loki.

Lemma has_file_true f r : has_file f r = true <-> file r = f.
Proof. unfold has_file. apply String.eqb_eq. Qed.

Lemma has_file_false f r : has_file f r = false <-> file r <> f.
Proof. unfold has_file. apply String.eqb_neq. Qed.

Lemma by_file_some f c r : by_file f c = Some r -> In r c /\ file r = f.
Proof.
  unfold by_file. intros H. apply find_some in H. now rewrite has_file_true in H.
Qed.

Lemma by_file_none f c : by_file f c = None <-> ~ In f (map file c).
Proof.
  unfold by_file. induction c as [|r c IH]; cbn.
  - tauto.
  - destruct (has_file f r) eqn:E.
    + apply has_file_true in E. split; [discriminate | intros H; exfalso; apply H; now left].
    + apply has_file_false in E. rewrite IH. tauto.
Qed.

Lemma by_file_in_unique f c r : unique c -> In r c -> file r = f -> by_file f c = Some r.
Proof.
  unfold unique, by_file. induction c as [|x c IH]; cbn; intros U Hin Hf; [tauto|].
  inversion U as [|? ? Hx Uc]; subst.
  destruct Hin as [->|Hin].
  - now rewrite (proj2 (has_file_true (file r) r) eq_refl).
  - destruct (has_file (file r) x) eqn:E.
    + apply has_file_true in E. exfalso. apply Hx. rewrite E. now apply in_map.
    + now apply IH.
Qed.

Lemma by_file_assign_same f g c :
  keeps_file g -> by_file f (assign f g c) = option_map g (by_file f c).
Proof.
  intros K. unfold by_file, assign. induction c as [|r c IH]; cbn; [reflexivity|].
  destruct (has_file f r) eqn:E.
  - unfold has_file. rewrite K. fold (has_file f r). now rewrite E.
  - now rewrite E.
Qed.

Lemma by_file_assign_other f f' g c :
  keeps_file g -> f <> f' -> by_file f (assign f' g c) = by_file f c.
Proof.
  intros K N. unfold by_file, assign. induction c as [|r c IH]; cbn; [reflexivity|].
  destruct (has_file f' r) eqn:E'.
  - apply has_file_true in E'.
    assert (has_file f (g r) = false) as -> by (apply has_file_false; rewrite K; congruence).
    assert (has_file f r = false) as -> by (apply has_file_false; congruence).
    exact IH.
  - destruct (has_file f r); [reflexivity | exact IH].
Qed.

Lemma by_file_update_same doc c r :
  by_file (file doc) c = Some r -> by_file (file doc) (update doc c) = Some doc.
Proof.
  unfold by_file, update. induction c as [|x c IH]; cbn; [discriminate|].
  destruct (has_file (file doc) x) eqn:E.
  - intros _. now rewrite (proj2 (has_file_true (file doc) doc) eq_refl).
  - rewrite E. exact IH.
Qed.

Lemma by_file_update_other f doc c :
  f <> file doc -> by_file f (update doc c) = by_file f c.
Proof.
  intros N. unfold by_file, update. induction c as [|x c IH]; cbn; [reflexivity|].
  destruct (has_file (file doc) x) eqn:E.
  - apply has_file_true in E.
    assert (has_file f doc = false) as -> by (apply has_file_false; congruence).
    assert (has_file f x = false) as -> by (apply has_file_false; congruence).
    exact IH.
  - destruct (has_file f x); [reflexivity | exact IH].
Qed.

Lemma by_file_insert_new doc c :
  by_file (file doc) c = None -> by_file (file doc) (insert doc c) = Some doc.
Proof.
  unfold by_file, insert. induction c as [|x c IH]; cbn.
  - intros _. now rewrite (proj2 (has_file_true (file doc) doc) eq_refl).
  - destruct (has_file (file doc) x); [discriminate | exact IH].
Qed.

Lemma by_file_insert_other f doc c :
  f <> file doc -> by_file f (insert doc c) = by_file f c.
Proof.
  intros N. unfold by_file, insert. induction c as [|x c IH]; cbn.
  - now assert (has_file f doc = false) as -> by (apply has_file_false; congruence).
  - destruct (has_file f x); [reflexivity | exact IH].
Qed.

Lemma by_file_filter f keep c :
  (forall r, file r = f -> keep r = true) -> by_file f (filter keep c) = by_file f c.
Proof.
  intros K. unfold by_file. induction c as [|x c IH]; cbn; [reflexivity|].
  destruct (has_file f x) eqn:E.
  - rewrite K by now apply has_file_true. cbn. now rewrite E.
  - destruct (keep x); cbn; [now rewrite E | exact IH].
Qed.

Lemma map_file_assign f g c : keeps_file g -> map file (assign f g c) = map file c.
Proof.
  intros K. unfold assign. rewrite map_map. apply map_ext_in. intros r _.
  destruct (has_file f r); [apply K | reflexivity].
Qed.

Lemma map_file_update doc c : map file (update doc c) = map file c.
Proof.
  unfold update. rewrite map_map. apply map_ext_in. intros r _.
  destruct (has_file (file doc) r) eqn:E; [|reflexivity].
  apply has_file_true in E. congruence.
Qed.

Lemma unique_insert doc c : unique c -> by_file (file doc) c = None -> unique (insert doc c).
Proof.
  unfold unique, insert. intros U N. rewrite by_file_none in N.
  rewrite map_app. cbn. apply NoDup_app; [exact U | constructor; [tauto | constructor] | ].
  intros a Ha [<-|[]]. tauto.
Qed.

Lemma unique_filter keep c : unique c -> unique (filter keep c).
Proof.
  unfold unique. induction c as [|x c IH]; cbn; [trivial|].
  intros U. inversion U as [|? ? Hx Uc]; subst.
  destruct (keep x); cbn; [constructor|]; auto.
  intros H. apply Hx. apply in_map_iff in H as [r [Hr Hin]].
  apply filter_In in Hin. rewrite <- Hr. apply in_map. tauto.
Qed.

Lemma keeps_set_dirty v : keeps_file (set_dirty v).
Proof. intros r. reflexivity. Qed.

End LokiFacts.

(** ** What a method leaves alone *)

Section Preserves.
Context {B : Type} (proj : World -> B).

Lemma preserves_ret A (a : A) : preserves proj (ret a).
Proof. intros w. reflexivity. Qed.

Lemma preserves_gets A (f : World -> A) : preserves proj (gets f).
Proof. intros w. reflexivity. Qed.

Lemma preserves_return A : preserves proj (@return_ World A).
Proof. intros w. reflexivity. Qed.

Lemma preserves_throw A ex : preserves proj (@throw World A ex).
Proof. intros w. reflexivity. Qed.

Lemma preserves_await A (r : result A) : preserves proj (await r).
Proof. intros w. destruct r; reflexivity. Qed.

Lemma preserves_modify (f : World -> World) :
  (forall w, proj (f w) = proj w) -> preserves proj (modify f).
Proof. intros H w. apply H. Qed.

Lemma preserves_bind A C (m : M World A) (k : A -> M World C) :
  preserves proj m -> (forall a, preserves proj (k a)) -> preserves proj (bind m k).
Proof.
  intros Hm Hk w. unfold bind. specialize (Hm w).
  destruct (m w) as [w1 [a| |ex]]; cbn in *; [|assumption|assumption].
  now rewrite Hk.
Qed.

End Preserves.

(** ** What finishing leaves alone *)

Section Finishing.
Variable env : Env.

Lemma write_items_preserves {B} (proj : World -> B) props written :
  beside_outputs proj -> preserves proj (write_items env props written).
Proof.
  intros (Hd & Ht & He & Hc). revert written.
  induction props as [|p rest IH]; intros written; cbn [write_items].
  - apply preserves_ret.
  - unfold fileTable_deref, writeToLog.
    repeat first
      [ apply IH
      | apply preserves_bind; [|intros ?]
      | apply preserves_ret | apply preserves_gets | apply preserves_throw
      | apply preserves_modify; intros ?; solve [apply Hd | apply He]
      | match goal with |- preserves _ (match ?x with _ => _ end) => destruct x end
      | match goal with |- preserves _ (if ?x then _ else _) => destruct x end ].
Qed.

Lemma clean_dirty_preserves {B} (proj : World -> B) ds :
  beside_outputs proj -> preserves proj (clean_dirty ds).
Proof.
  intros (Hd & Ht & He & Hc).
  induction ds as [|r rest IH]; cbn [clean_dirty].
  - apply preserves_ret.
  - unfold fileTable_deref, fileTable_set.
    repeat first
      [ apply IH
      | apply preserves_bind; [|intros ?]
      | apply preserves_ret | apply preserves_gets | apply preserves_throw
      | apply preserves_modify; intros ?; solve [apply Ht]
      | match goal with |- preserves _ (match ?x with _ => _ end) => destruct x end ].
Qed.

Lemma remove_all_preserves {B} (proj : World -> B) os :
  beside_outputs proj -> preserves proj (remove_all os).
Proof.
  intros (Hd & Ht & He & Hc).
  induction os as [|r rest IH]; cbn [remove_all].
  - apply preserves_ret.
  - unfold fileTable_deref, fileTable_set.
    repeat first
      [ apply IH
      | apply preserves_bind; [|intros ?]
      | apply preserves_ret | apply preserves_gets | apply preserves_throw
      | apply preserves_modify; intros ?; solve [apply Ht]
      | match goal with |- preserves _ (match ?x with _ => _ end) => destruct x end ].
Qed.

Lemma finish_block_preserves {B} (proj : World -> B) :
  beside_outputs proj -> preserves proj (finish_block env).
Proof.
  intros H. pose proof H as (Hd & Ht & He & Hc).
  unfold finish_block, saveDatabase, Date_getTime, fileTable_deref.
  repeat first
    [ apply write_items_preserves; exact H
    | apply clean_dirty_preserves; exact H
    | apply remove_all_preserves; exact H
    | apply preserves_bind; [|intros ?]
    | apply preserves_ret | apply preserves_gets | apply preserves_return
    | apply preserves_throw | apply preserves_await
    | apply preserves_modify; intros ?; solve [apply Hd | apply Hc]
    | match goal with |- preserves _ (match ?x with _ => _ end) => destruct x end ].
Qed.

End Finishing.

(** ** The loops of [_finishHandlingChanges] *)

Section Rebuild.
Variable env : Env.

Lemma noted_nothing w : noted [] false w = w.
Proof.
  destruct w as [[] ? [] ?]. cbv [noted on_this on_disk set_errorsOccurred set_logFile]. cbn.
  now rewrite app_nil_r, orb_false_r.
Qed.

Lemma noted_line line lines flag w :
  noted lines flag (on_disk (fun d => set_logFile (logFile d ++ [line]) d) w)
  = noted (line :: lines) flag w.
Proof.
  destruct w as [[] ? [] ?]. cbv [noted on_this on_disk set_errorsOccurred set_logFile]. cbn.
  now rewrite <- app_assoc.
Qed.

Lemma noted_flag lines flag w :
  noted lines flag (on_this (set_errorsOccurred true) w) = noted lines true w.
Proof.
  destruct w as [[] ? [] ?]. cbv [noted on_this on_disk set_errorsOccurred set_logFile]. cbn.
  now rewrite orb_true_r.
Qed.

Lemma bind_normal {S A C} (m : M S A) (k : A -> M S C) s s' a :
  m s = (s', Normal a) -> bind m k s = k a s'.
Proof. unfold bind. now intros ->. Qed.

Lemma deref_some w c : _fileTable (this w) = Some c -> fileTable_deref w = (w, Normal c).
Proof. unfold fileTable_deref, bind, gets. now intros ->. Qed.

Lemma write_items_spec props : forall written w c,
  _fileTable (this w) = Some c ->
  write_items env props written w =
  (noted (complaints env c props) (existsb (mistagged env c) props) w,
   Normal (written ++ entries env c props)).
Proof.
  induction props as [|p rest IH]; intros written w c Hc.
  - unfold entries, complaints. cbn [write_items flat_map existsb]. unfold ret.
    now rewrite noted_nothing, app_nil_r.
  - cbn [write_items]. rewrite (bind_normal _ _ _ _ _ (deref_some _ _ Hc)).
    unfold entries, complaints. cbn [flat_map existsb].
    unfold entry at 1, complaint at 1, mistagged at 1.
    fold (entries env c rest). fold (complaints env c rest).
    destruct (Loki.by_file p c) as [fileData|]; [|now apply IH].
    destruct (tagData fileData) as [id3|].
    + destruct (isTagValid env id3); cbn [negb olist app orb].
      * rewrite (IH _ w c Hc). now rewrite <- app_assoc.
      * unfold writeToLog, bind, modify.
        rewrite (IH _ _ c) by exact Hc.
        f_equal. now rewrite noted_flag, noted_line.
    + unfold writeToLog, bind, modify. cbn [olist app].
      rewrite (IH _ _ c) by exact Hc.
      f_equal. now rewrite noted_line.
Qed.

Lemma set_same_table w c :
  _fileTable (this w) = Some c -> on_this (set_fileTable (Some c)) w = w.
Proof. destruct w as [[] ? ? ?]. cbn. now intros ->. Qed.

Lemma clean_dirty_spec ds : forall w c,
  _fileTable (this w) = Some c ->
  clean_dirty ds w = (on_this (set_fileTable (Some (cleaned ds c))) w, Normal tt).
Proof.
  induction ds as [|r rest IH]; intros w c Hc.
  - cbn. unfold ret. now rewrite set_same_table.
  - cbn [clean_dirty cleaned fold_left].
    rewrite (bind_normal _ _ _ _ _ (deref_some _ _ Hc)).
    unfold fileTable_set, bind, modify.
    erewrite IH by reflexivity. reflexivity.
Qed.

Lemma remove_all_spec os : forall w c,
  _fileTable (this w) = Some c ->
  remove_all os w = (on_this (set_fileTable (Some (removed os c))) w, Normal tt).
Proof.
  induction os as [|r rest IH]; intros w c Hc.
  - cbn. unfold ret. now rewrite set_same_table.
  - cbn [remove_all removed fold_left].
    rewrite (bind_normal _ _ _ _ _ (deref_some _ _ Hc)).
    unfold fileTable_set, bind, modify.
    erewrite IH by reflexivity. reflexivity.
Qed.

End Rebuild.

Ltac open_world w :=
  destruct w as [[busy0 errors0 pc0 tpc0 keys0 table0 interval0 hookStart hookDone hookProgress]
                 [fdirty ffiles fpath] [loki0 log0 index0 status0]
                 [imm0 clock0 reads0 events0 unhandled0]].

(** ** The outcome of [_finishHandlingChanges] *)

Section FinishExplicit.
Variable env : Env.
Import LokiFacts.

Lemma filter_filter {A} (f g : A -> bool) l :
  filter f (filter g l) = filter (fun x => g x && f x) l.
Proof.
  induction l as [|x l IH]; cbn; [reflexivity|].
  destruct (g x); cbn; [destruct (f x)|]; now rewrite IH.
Qed.

Lemma removed_filter os : forall c,
  removed os c = filter (fun r => negb (existsb (fun o => Loki.has_file (file o) r) os)) c.
Proof.
  induction os as [|o os IH]; intros c; cbn.
  - induction c as [|x c IHc]; cbn; [reflexivity | now rewrite <- IHc].
  - unfold removed in IH. rewrite IH. unfold Loki.remove. rewrite filter_filter.
    apply filter_ext. intros r. now rewrite negb_orb.
Qed.

Lemma pruned_filter props c :
  pruned props c = filter (fun r => negb (not_listed props r)) c.
Proof.
  unfold pruned. rewrite removed_filter. apply filter_ext_in. intros r Hr. f_equal.
  unfold Loki.where_.
  destruct (not_listed props r) eqn:E.
  - apply existsb_exists. exists r. split.
    + apply filter_In. now split.
    + now apply has_file_true.
  - apply not_true_is_false. intros H. apply existsb_exists in H as [o [Ho Hf]].
    apply filter_In in Ho as [_ Ho]. apply has_file_true in Hf.
    unfold not_listed in *. rewrite Hf in E. congruence.
Qed.

Lemma listed_iff props r : not_listed props r = false <-> In (file r) props.
Proof.
  unfold not_listed. rewrite negb_false_iff, existsb_exists. split.
  - intros [p [Hp E]]. apply String.eqb_eq in E. now subst.
  - intros H. exists (file r). split; [exact H | apply String.eqb_refl].
Qed.

Lemma by_file_pruned_listed props c p :
  In p props -> Loki.by_file p (pruned props c) = Loki.by_file p c.
Proof.
  intros H. rewrite pruned_filter. apply by_file_filter. intros r <-.
  apply negb_true_iff. now apply listed_iff.
Qed.

Lemma by_file_pruned_orphan props c p :
  ~ In p props -> Loki.by_file p (pruned props c) = None.
Proof.
  intros H. apply by_file_none. intros Hin. apply in_map_iff in Hin as [r [<- Hr]].
  rewrite pruned_filter in Hr. apply filter_In in Hr as [_ Hr].
  apply negb_true_iff in Hr. now apply listed_iff in Hr.
Qed.

Lemma in_pruned props c r : In r (pruned props c) <-> In r c /\ In (file r) props.
Proof.
  rewrite pruned_filter, filter_In, negb_true_iff, listed_iff. tauto.
Qed.

Lemma cleaned_cons d ds c :
  cleaned (d :: ds) c =
  cleaned ds (Loki.update (set_dirty false d) (Loki.assign (file d) (set_dirty false) c)).
Proof. reflexivity. Qed.

Lemma map_file_cleaned ds : forall c, map file (cleaned ds c) = map file c.
Proof.
  induction ds as [|d ds IH]; intros c; [reflexivity|].
  rewrite cleaned_cons, IH, map_file_update.
  apply map_file_assign, keeps_set_dirty.
Qed.

Lemma by_file_cleaned_other ds f : forall c,
  (forall d, In d ds -> file d <> f) ->
  Loki.by_file f (cleaned ds c) = Loki.by_file f c.
Proof.
  induction ds as [|d ds IH]; intros c H; [reflexivity|].
  rewrite cleaned_cons, IH by (intros; apply H; now right).
  assert (f <> file d) by (intros ->; now apply (H d); [left|]).
  rewrite by_file_update_other by (cbn; assumption).
  now apply by_file_assign_other; [apply keeps_set_dirty|].
Qed.

Lemma by_file_cleaned_clean c f r :
  unique c -> Loki.by_file f c = Some r -> Loki.is_dirty r = false ->
  Loki.by_file f (cleaned (Loki.find_dirty c) c) = Some r.
Proof.
  intros U Hr Hd. rewrite by_file_cleaned_other; [exact Hr|].
  intros d Hin Hf. apply filter_In in Hin as [Hin Hdd].
  rewrite (by_file_in_unique f c d U Hin Hf) in Hr. congruence.
Qed.

Lemma unique_cleaned ds c : unique c -> unique (cleaned ds c).
Proof. unfold unique. now rewrite map_file_cleaned. Qed.

Lemma unique_pruned props c : unique c -> unique (pruned props c).
Proof. rewrite pruned_filter. apply unique_filter. Qed.

Lemma step_clean d c :
  Loki.update (set_dirty false d) (Loki.assign (file d) (set_dirty false) c) =
  map (fun x => if Loki.has_file (file d) x then set_dirty false d else x) c.
Proof.
  unfold Loki.update, Loki.assign. rewrite map_map. apply map_ext. intros x.
  cbn [file set_dirty].
  destruct (Loki.has_file (file d) x) eqn:E.
  - unfold Loki.has_file in *. cbn [file set_dirty]. now rewrite E.
  - now rewrite E.
Qed.

Lemma cleaned_map ds : forall c, cleaned ds c = map (clean_one ds) c.
Proof.
  induction ds as [|d ds IH]; intros c.
  - cbn. symmetry. apply map_id.
  - rewrite cleaned_cons, step_clean, IH, map_map. reflexivity.
Qed.

Lemma clean_one_cons d ds x :
  clean_one (d :: ds) x =
  clean_one ds (if Loki.has_file (file d) x then set_dirty false d else x).
Proof. reflexivity. Qed.

(** With a unique index, every document the loop goes over is the stored one. *)
Lemma clean_one_unique ds x : forall cur,
  file cur = file x ->
  (forall d, In d ds -> file d = file x -> d = x) ->
  clean_one ds cur =
  if existsb (fun d => Loki.has_file (file x) d) ds then set_dirty false x else cur.
Proof.
  induction ds as [|d ds IH]; intros cur Hf Hu; [reflexivity|].
  rewrite clean_one_cons. cbn [existsb].
  destruct (Loki.has_file (file d) cur) eqn:E.
  - apply has_file_true in E.
    assert (d = x) as -> by (apply Hu; [now left | congruence]).
    rewrite (proj2 (has_file_true (file x) x) eq_refl). cbn [orb].
    rewrite IH; [now destruct (existsb _ ds) | reflexivity | intros; apply Hu; auto; now right].
  - assert (Loki.has_file (file x) d = false) as ->.
    { apply has_file_false. apply has_file_false in E. congruence. }
    cbn [orb]. apply IH; [exact Hf | intros; apply Hu; auto; now right].
Qed.

Lemma cleaned_clears c :
  unique c -> cleaned (Loki.find_dirty c) c = map clear c.
Proof.
  intros U. rewrite cleaned_map. apply map_ext_in. intros x Hx.
  rewrite (clean_one_unique _ x x eq_refl).
  - unfold clear. destruct (Loki.is_dirty x) eqn:Hd.
    + replace (existsb _ _) with true; [reflexivity|]. symmetry.
      apply existsb_exists. exists x. split; [now apply filter_In | now apply has_file_true].
    + replace (existsb _ _) with false; [reflexivity|]. symmetry.
      apply not_true_is_false. intros H. apply existsb_exists in H as (d & Hin & Hf).
      apply filter_In in Hin as [Hin Hdd]. apply has_file_true in Hf.
      assert (Loki.by_file (file x) c = Some d) by now apply by_file_in_unique.
      assert (Loki.by_file (file x) c = Some x) by now apply by_file_in_unique.
      congruence.
  - intros d Hin Hf. apply filter_In in Hin as [Hin _].
    assert (Loki.by_file (file x) c = Some d) by now apply by_file_in_unique.
    assert (Loki.by_file (file x) c = Some x) by now apply by_file_in_unique.
    congruence.
Qed.

Lemma filter_nothing {A} (f : A -> bool) l :
  (forall x, In x l -> f x = false) -> filter f l = [].
Proof.
  induction l as [|x l IH]; intros H; [reflexivity|]. cbn.
  rewrite (H x (or_introl eq_refl)). apply IH. intros y Hy. apply H. now right.
Qed.

Lemma clear_not_dirty x : Loki.is_dirty (clear x) = false.
Proof.
  unfold clear. destruct (Loki.is_dirty x) eqn:E; [reflexivity | exact E].
Qed.

Lemma clear_keeps_file : keeps_file clear.
Proof. intros x. unfold clear. now destruct (Loki.is_dirty x). Qed.

Lemma by_file_mapped f g c :
  keeps_file g -> Loki.by_file f (map g c) = option_map g (Loki.by_file f c).
Proof.
  intros K. unfold Loki.by_file. induction c as [|r c IH]; cbn; [reflexivity|].
  unfold Loki.has_file at 1. rewrite K. fold (Loki.has_file f r).
  destruct (Loki.has_file f r); [reflexivity | exact IH].
Qed.

Lemma finish_finally_done w : finish_finally w = (done w, Normal tt).
Proof.
  unfold finish_finally, done, when, emit, bind, gets, modify, ret.
  now destruct (_onIndexingDone (this w)).
Qed.

Lemma finish_always w :
  _finishHandlingChanges env w =
  (done (fst (finish_block env w)), snd (finish_block env w)).
Proof.
  unfold _finishHandlingChanges, try_finally.
  destruct (finish_block env w) as [w1 c1]. now rewrite finish_finally_done.
Qed.

Lemma finish_block_rebuilds w c :
  _fileTable (this w) = Some c ->
  Loki.find_dirty c <> [] ->
  outputFile_index env = None ->
  writeFileSync_status env = None ->
  finish_block env w = (rebuilt env w c, Normal tt).
Proof.
  intros Hc Hd Ho Hs. open_world w. cbn in Hc. subst.
  unfold finish_block, saveDatabase, fileTable_deref, Date_getTime.
  cbv [bind modify gets ret return_ await throw]. cbn.
  destruct (Loki.find_dirty c) as [|d ds] eqn:E; [congruence|].
  erewrite write_items_spec by reflexivity. rewrite Ho. cbn. rewrite Hs. cbn.
  erewrite clean_dirty_spec by reflexivity. cbn.
  erewrite remove_all_spec by reflexivity. cbn.
  unfold rebuilt. cbn. rewrite E. reflexivity.
Qed.

Lemma finish_block_nothing_dirty w c :
  _fileTable (this w) = Some c ->
  Loki.find_dirty c = [] ->
  finish_block env w = (on_disk (set_lokiFile (Some (FileData c))) w, Return).
Proof.
  intros Hc Hd.
  unfold finish_block, saveDatabase, fileTable_deref.
  cbv [bind modify gets ret return_ await throw]. cbn. rewrite Hc, Hd. reflexivity.
Qed.

Lemma finish_block_table w c :
  _fileTable (this w) = Some c ->
  _fileTable (this (fst (finish_block env w))) = Some c \/
  (Loki.find_dirty c <> [] /\
   _fileTable (this (fst (finish_block env w))) =
   Some (pruned (FileWatcher.files (_fileWatcher w)) (cleaned (Loki.find_dirty c) c))).
Proof.
  intros Hc.
  destruct (Loki.find_dirty c) as [|d ds] eqn:E.
  - left. now rewrite (finish_block_nothing_dirty w c).
  - destruct (outputFile_index env) as [ex|] eqn:Ho;
      [|destruct (writeFileSync_status env) as [ex|] eqn:Hs].
    3: { right. split; [congruence|].
         rewrite (finish_block_rebuilds w c); try congruence. cbn. now rewrite E. }
    all: left; unfold finish_block, saveDatabase, fileTable_deref, Date_getTime;
      cbv [bind modify gets ret return_ await throw]; cbn; rewrite Hc, E;
      erewrite write_items_spec by (cbn; exact Hc); rewrite Ho; cbn; try rewrite Hs; cbn;
      exact Hc.
Qed.

End FinishExplicit.

Ltac methods :=
  unfold process_file, try_finally, try_catch, try_block, try_block_at, catch_block,
    insert_or_update, fileCachedData_assign, fileStats_mtime_or_empty,
    _readID3Tag, _handleNextFile, writeToLog, emit, fileTable_deref, fileTable_set,
    in_world, when, await, bind, gets, modify, ret, return_, throw, settle, enter.

(** ** One visit *)

Section Steps.
Variable env : Env.
Import LokiFacts.

Lemma callback_visits w :
  _processedCount (this w) + 1 < _toProcessCount (this w) ->
  _handleNextFile_callback env w = visit env w.
Proof.
  intros H. unfold _handleNextFile_callback, visit. fold (advance w).
  replace (_toProcessCount (this (advance w)) <=? _processedCount (this (advance w)))
    with false; [reflexivity|].
  symmetry. apply Z.leb_gt. destruct w as [[] ? ? ?]. cbn in *. lia.
Qed.

Lemma visit_visited w f : next_file w = Some f -> visited env w f (visit env w).
Proof.
  unfold next_file. intros Hf.
  destruct (pathExists env f) as [[|]|ex] eqn:Hp.
  3: { replace (visit env w) with (lost TypeError (queued (advance w))); [exact (visit_threw env _ _ ex Hp)|].
       unfold visit. methods. cbn. rewrite Hf. cbn. rewrite Hp. reflexivity. }
  2: { replace (visit env w) with (queued (on_watcher (FileWatcher.remove f) (advance w)));
         [exact (visit_vanished env _ _ Hp)|].
       unfold visit. methods. cbn. rewrite Hf. cbn. rewrite Hp. reflexivity. }
  destruct (_fileTable (this w)) as [c|] eqn:Ht.
  2: { replace (visit env w) with (lost TypeError (queued (advance w))); [exact (visit_no_table env _ _ Hp Ht)|].
       unfold visit. methods. cbn. rewrite Hf. cbn. rewrite Hp. cbn. rewrite Ht. reflexivity. }
  open_world w. cbn in Ht, Hf. subst.
  destruct (Loki.by_file f c) as [doc|] eqn:Hb.
  - pose proof (by_file_some _ _ _ Hb) as [_ Hfile].
    destruct (statSync_mtime env f) as [m|ex] eqn:Hs.
    2: { eapply eq_ind; [eapply (visit_stat_threw env _ _ c doc ex); eauto|].
         unfold visit. methods. cbn. rewrite Hf. cbn. rewrite Hp. cbn. rewrite Hb. cbn.
         rewrite Hs. cbn. reflexivity. }
    destruct (unchanged_since doc m) eqn:Hu.
    { eapply eq_ind; [eapply (visit_unchanged env _ _ c doc m); eauto|].
      unfold visit. methods. cbn. rewrite Hf. cbn. rewrite Hp. cbn. rewrite Hb. cbn.
      rewrite Hs. cbn. unfold unchanged_since in Hu. rewrite Hu. reflexivity. }
    assert (Hsub : subject env f c false doc (Some m)) by now constructor.
    destruct (jsmediatags_read env f) as [tag|ex] eqn:Hr.
    2: { eapply eq_ind; [eapply (visit_read_failed env _ _ c _ _ _ ex); eauto|].
         unfold visit. methods. cbn. rewrite Hf. cbn. rewrite Hp. cbn. rewrite Hb. cbn.
         rewrite Hs. cbn. unfold unchanged_since in Hu. rewrite Hu. cbn. rewrite Hr. cbn.
         reflexivity. }
    destruct (eligible tag) eqn:He.
    2: { eapply eq_ind; [eapply (visit_ignored env _ _ c _ _ _ tag); eauto|].
         unfold visit. methods. cbn. rewrite Hf. cbn. rewrite Hp. cbn. rewrite Hb. cbn.
         rewrite Hs. cbn. unfold unchanged_since in Hu. rewrite Hu. cbn. rewrite Hr. cbn.
         rewrite He. reflexivity. }
    unfold unchanged_since in Hu.
    destruct hookProgress;
      (eapply eq_ind; [eapply (visit_indexed env _ _ c _ _ _ tag); eauto|]);
      unfold visit; methods; cbn; rewrite Hf; cbn; rewrite Hp; cbn; rewrite Hb; cbn;
      rewrite Hs; cbn; rewrite Hu; cbn; rewrite Hr; cbn; rewrite He; reflexivity.
  - assert (Hsub : subject env f c true (mkFileRecord f None None None None) None) by now constructor.
    destruct (jsmediatags_read env f) as [tag|ex] eqn:Hr.
    2: { eapply eq_ind; [eapply (visit_read_failed env _ _ c _ _ _ ex); eauto|].
         unfold visit. methods. cbn. rewrite Hf. cbn. rewrite Hp. cbn. rewrite Hb. cbn.
         rewrite Hr. cbn. reflexivity. }
    destruct (eligible tag) eqn:He.
    2: { eapply eq_ind; [eapply (visit_ignored env _ _ c _ _ _ tag); eauto|].
         unfold visit. methods. cbn. rewrite Hf. cbn. rewrite Hp. cbn. rewrite Hb. cbn.
         rewrite Hr. cbn. rewrite He. reflexivity. }
    destruct hookProgress;
      (eapply eq_ind; [eapply (visit_indexed env _ _ c _ _ _ tag); eauto|]);
      unfold visit; methods; cbn; rewrite Hf; cbn; rewrite Hp; cbn; rewrite Hb; cbn;
      rewrite Hr; cbn; rewrite He; reflexivity.
Qed.

End Steps.

Section Visits.
Variable env : Env.
Import LokiFacts.

Lemma apply_all_cons g gs doc : apply_all (g :: gs) doc = apply_all gs (g doc).
Proof. reflexivity. Qed.

Lemma assigned_cons f g gs c : assigned f (g :: gs) c = assigned f gs (Loki.assign f g c).
Proof. reflexivity. Qed.

Lemma apply_all_file gs : forall doc,
  Forall keeps_file gs -> file (apply_all gs doc) = file doc.
Proof.
  induction gs as [|g gs IH]; intros doc H; [reflexivity|].
  inversion H as [|? ? Hg Hgs]; subst. now rewrite apply_all_cons, IH, Hg.
Qed.

Lemma map_file_assigned f gs : forall c,
  Forall keeps_file gs -> map file (assigned f gs c) = map file c.
Proof.
  induction gs as [|g gs IH]; intros c H; [reflexivity|].
  inversion H as [|? ? Hg Hgs]; subst.
  now rewrite assigned_cons, IH, map_file_assign.
Qed.

Lemma by_file_assigned_other f f' gs : forall c,
  Forall keeps_file gs -> f <> f' ->
  Loki.by_file f (assigned f' gs c) = Loki.by_file f c.
Proof.
  induction gs as [|g gs IH]; intros c H N; [reflexivity|].
  inversion H as [|? ? Hg Hgs]; subst.
  now rewrite assigned_cons, IH, by_file_assign_other.
Qed.

Lemma by_file_assigned_same f gs : forall c,
  Forall keeps_file gs ->
  Loki.by_file f (assigned f gs c) = option_map (apply_all gs) (Loki.by_file f c).
Proof.
  induction gs as [|g gs IH]; intros c H.
  { change (assigned f [] c) with c. now destruct (Loki.by_file f c). }
  inversion H as [|? ? Hg Hgs]; subst.
  rewrite assigned_cons, IH, by_file_assign_same by assumption.
  now destruct (Loki.by_file f c).
Qed.

Lemma by_file_upsert_other f ins doc gs c :
  Forall keeps_file gs -> f <> file doc ->
  Loki.by_file f (upsert ins doc gs c) = Loki.by_file f c.
Proof.
  intros K N. unfold upsert.
  destruct ins.
  - rewrite by_file_insert_other by now rewrite apply_all_file.
    now apply by_file_assigned_other.
  - rewrite by_file_update_other by now rewrite apply_all_file.
    now apply by_file_assigned_other.
Qed.

Lemma by_file_upsert_same (ins : bool) doc gs c :
  Forall keeps_file gs ->
  Loki.by_file (file doc) c = (if ins then @None FileRecord else Some doc) ->
  Loki.by_file (file doc) (upsert ins doc gs c) = Some (apply_all gs doc).
Proof.
  intros K H. unfold upsert.
  rewrite <- (apply_all_file gs doc K). destruct ins.
  - apply by_file_insert_new. rewrite apply_all_file by assumption.
    now rewrite by_file_assigned_same, H.
  - eapply by_file_update_same. rewrite apply_all_file by assumption.
    now rewrite by_file_assigned_same, H.
Qed.

Lemma unique_upsert ins doc gs c :
  Forall keeps_file gs -> unique c ->
  (ins = true -> Loki.by_file (file doc) c = None) ->
  unique (upsert ins doc gs c).
Proof.
  intros K U H. unfold upsert. destruct ins.
  - apply unique_insert.
    + unfold unique. now rewrite map_file_assigned.
    + rewrite apply_all_file by assumption.
      rewrite by_file_assigned_same by assumption. now rewrite H.
  - unfold unique. now rewrite map_file_update, map_file_assigned.
Qed.

Lemma keeps_failure stats : Forall keeps_file (failure_changes stats).
Proof. repeat constructor. Qed.

Lemma keeps_success stats data : Forall keeps_file (success_changes env stats data).
Proof. repeat constructor. Qed.

Lemma subject_lookup f c ins doc stats :
  subject env f c ins doc stats ->
  file doc = f /\ Loki.by_file f c = (if ins then @None FileRecord else Some doc).
Proof.
  intros [d m H _ _|H]; [|now split]. split; [now apply by_file_some in H | exact H].
Qed.

Lemma table_failed f ins doc stats ex c w :
  _fileTable (this (queued (failed f ins doc stats ex c w))) =
  Some (upsert ins doc (failure_changes stats) c).
Proof. reflexivity. Qed.

Lemma table_indexed f ins doc stats tag c w :
  _fileTable (this (queued (indexed env f ins doc stats tag c w))) =
  Some (upsert ins doc
          (success_changes env stats
             (tagData_of env tag f (FileWatcher.watchPath (_fileWatcher w)))) c).
Proof. unfold indexed. now destruct (_onProgress (this w)). Qed.

(** The counters, the queue and the files on disk that a visit leaves alone. *)
Lemma visited_bookkeeping w f w' :
  visited env w f w' ->
  _fileKeys (this w') = _fileKeys (this w) /\
  _toProcessCount (this w') = _toProcessCount (this w) /\
  _processedCount (this w') = _processedCount (this w) + 1 /\
  immediates (trace w') = S (pred (immediates (trace w))) /\
  _busy (this w') = _busy (this w) /\
  _interval (this w') = _interval (this w) /\
  indexFile (disk w') = indexFile (disk w) /\
  statusFile (disk w') = statusFile (disk w) /\
  clockReads (trace w') = clockReads (trace w) /\
  FileWatcher.dirty (_fileWatcher w') = FileWatcher.dirty (_fileWatcher w) /\
  (_fileTable (this w) = None -> _fileTable (this w') = None).
Proof.
  intros V. destruct V; unfold indexed; try destruct (_onProgress (this (read f (advance w))));
    cbn; repeat split; try reflexivity; congruence.
Qed.

(** The collection after a visit: only the document of the visited path can
    differ, and the index stays unique. *)
Lemma visited_table w f w' c :
  visited env w f w' -> _fileTable (this w) = Some c -> unique c ->
  exists c', _fileTable (this w') = Some c' /\ unique c' /\
             forall g, g <> f -> Loki.by_file g c' = Loki.by_file g c.
Proof.
  intros V Hc U.
  destruct V as [ex Hp|Hp|Hp Ht|c0 doc ex Hp Ht Hb Hs|c0 doc m Hp Ht Hb Hs Hu
                |c0 ins doc stats ex Hp Ht Hsub Hr|c0 ins doc stats tag Hp Ht Hsub Hr He
                |c0 ins doc stats tag Hp Ht Hsub Hr He];
    try (exists c; cbn; now repeat split);
    try congruence.
  - assert (c0 = c) by congruence. subst c0.
    pose proof (by_file_some _ _ _ Hb) as [_ Hf].
    eexists. split; [apply table_failed|]. split.
    + apply unique_upsert; [apply keeps_failure | exact U | discriminate].
    + intros g N. apply by_file_upsert_other; [apply keeps_failure | congruence].
  - assert (c0 = c) by congruence. subst c0.
    destruct (subject_lookup _ _ _ _ _ Hsub) as [Hf Hl].
    eexists. split; [apply table_failed|]. split.
    + apply unique_upsert; [apply keeps_failure | exact U |]. intros ->. now rewrite Hf.
    + intros g N. apply by_file_upsert_other; [apply keeps_failure | congruence].
  - assert (c0 = c) by congruence. subst c0.
    destruct (subject_lookup _ _ _ _ _ Hsub) as [Hf Hl].
    eexists. split; [apply table_indexed|]. split.
    + apply unique_upsert; [apply keeps_success | exact U |]. intros ->. now rewrite Hf.
    + intros g N. apply by_file_upsert_other; [apply keeps_success | congruence].
Qed.

Lemma visited_table_some w f w' c :
  visited env w f w' -> _fileTable (this w) = Some c ->
  exists c', _fileTable (this w') = Some c'.
Proof.
  intros V Hc.
  destruct V; try (exists c; exact Hc); try congruence;
    eexists; first [apply table_failed | apply table_indexed].
Qed.

(** The tag reader is called for the visited path or not at all. *)
Lemma visited_reads w f w' :
  visited env w f w' ->
  tagReads (trace w') = tagReads (trace w) \/
  tagReads (trace w') = tagReads (trace w) ++ [f].
Proof.
  intros V. destruct V; unfold indexed; try destruct (_onProgress (this (read f (advance w))));
    cbn; auto.
Qed.

(** The watcher loses the visited path when it is gone from disk, and
    nothing else. *)
Lemma visited_watcher w f w' :
  visited env w f w' ->
  _fileWatcher w' = _fileWatcher w \/
  (pathExists env f = Ok false /\ _fileWatcher w' = FileWatcher.remove f (_fileWatcher w)).
Proof.
  intros V. destruct V; unfold indexed; try destruct (_onProgress (this (read f (advance w))));
    cbn; auto.
Qed.

Lemma unchanged_since_same doc m : mtime doc = Some m -> unchanged_since doc m = true.
Proof. unfold unchanged_since. intros ->. apply String.eqb_refl. Qed.

(** A path whose cached [mtime] is the one on disk is passed over. *)
Lemma visited_unchanged w f w' c doc m :
  visited env w f w' -> _fileTable (this w) = Some c ->
  Loki.by_file f c = Some doc -> statSync_mtime env f = Ok m -> mtime doc = Some m ->
  _fileTable (this w') = Some c /\ tagReads (trace w') = tagReads (trace w).
Proof.
  intros V Hc Hb Hs Hm.
  assert (forall c0 ins d stats, _fileTable (this w) = Some c0 ->
            subject env f c0 ins d stats -> False) as Hno.
  { intros c0 ins d stats Ht Hsub. assert (c0 = c) by congruence. subst c0.
    destruct Hsub as [d m' Hb' Hs' Hu|Hb']; [|congruence].
    assert (d = doc) by congruence. assert (m' = m) by congruence. subst.
    rewrite unchanged_since_same in Hu by assumption. discriminate. }
  destruct V; try (cbn; now split); try congruence; exfalso; eauto.
Qed.

End Visits.

(** ** A run: the tick, the scan, the finishing callback *)

Section Runs.
Variable env : Env.
Import LokiFacts.

Lemma tick_starts w :
  FileWatcher.dirty (_fileWatcher w) = true -> _busy (this w) = false ->
  interval_callback w = started w.
Proof.
  intros Hd Hb. open_world w. cbn in Hd, Hb. subst.
  unfold interval_callback, tick, _startHandlingFileChanges, _handleNextFile, emit, when,
    settle.
  cbv [bind gets modify return_ ret await]. unfold started.
  destruct hookStart; cbn; now rewrite ?app_nil_r.
Qed.

Lemma tick_rejected ex w :
  FileWatcher.dirty (_fileWatcher w) = true -> _busy (this w) = false ->
  tick (Err ex) w = stuck ex w.
Proof.
  intros Hd Hb. open_world w. cbn in Hd, Hb. subst.
  unfold tick, _startHandlingFileChanges, _handleNextFile, emit, when, settle.
  cbv [bind gets modify return_ ret await throw]. unfold stuck.
  destruct hookStart; cbn; now rewrite ?app_nil_r.
Qed.

Lemma tick_passes emptied w :
  FileWatcher.dirty (_fileWatcher w) = false \/ _busy (this w) = true ->
  tick emptied w = w.
Proof.
  intros H. unfold tick, _startHandlingFileChanges, settle.
  cbv [bind gets return_ ret].
  destruct (FileWatcher.dirty (_fileWatcher w)); cbn; [|reflexivity].
  destruct H as [H|H]; [discriminate | now rewrite H].
Qed.

Lemma tick_ignored w :
  FileWatcher.dirty (_fileWatcher w) = false \/ _busy (this w) = true ->
  interval_callback w = w.
Proof. apply tick_passes. Qed.

Lemma started_scanning w : immediates (trace w) = 0%nat -> scanning 0 (started w).
Proof. intros H. unfold scanning. cbn. rewrite H. repeat split. lia. Qed.

Lemma scanning_next k w :
  scanning k w -> (k < length (_fileKeys (this w)))%nat ->
  exists f, next_file w = Some f /\ nth_error (_fileKeys (this w)) k = Some f.
Proof.
  intros (_ & Hpc & _ & _) Hk.
  destruct (nth_error (_fileKeys (this w)) k) as [f|] eqn:E.
  - exists f. split; [|reflexivity].
    unfold next_file, fileKeys_at. open_world w. cbn in *. subst.
    replace (Z.of_nat k - 1 + 1) with (Z.of_nat k) by lia.
    destruct (Z.ltb_spec (Z.of_nat k) 0); [lia|]. now rewrite Nat2Z.id.
  - apply nth_error_None in E. lia.
Qed.

Lemma scanning_visit k w f :
  scanning k w -> (k < length (_fileKeys (this w)))%nat -> next_file w = Some f ->
  _handleNextFile_callback env w = visit env w /\ scanning (S k) (visit env w) /\
  _fileKeys (this (visit env w)) = _fileKeys (this w).
Proof.
  intros (Hi & Hpc & Htpc & Hle) Hk Hf.
  pose proof (visited_bookkeeping env _ _ _ (visit_visited env w f Hf))
    as (Hkeys & Ht & Hp & Him & _).
  split; [apply callback_visits; lia|]. split; [|exact Hkeys].
  unfold scanning. rewrite Hkeys, Ht, Hp, Him, Hi, Hpc, Htpc. repeat split; lia.
Qed.

(** An invariant of the visits is an invariant of the scan. *)
Lemma scan_invariant (P : World -> Prop) :
  (forall w f, P w -> In f (_fileKeys (this w)) -> next_file w = Some f -> P (visit env w)) ->
  forall n k w,
    scanning k w -> (k + n <= length (_fileKeys (this w)))%nat -> P w ->
    P (drain env n w) /\ scanning (k + n) (drain env n w) /\
    _fileKeys (this (drain env n w)) = _fileKeys (this w).
Proof.
  intros Hstep. induction n as [|n IH]; intros k w Hs Hk HP.
  - cbn. now rewrite Nat.add_0_r.
  - destruct (scanning_next k w Hs) as (f & Hf & Hnth); [lia|].
    destruct (scanning_visit k w f Hs) as (Hcb & Hs' & Hkeys); [lia|exact Hf|].
    cbn [drain]. destruct Hs as (Hi & _). rewrite Hi, Hcb.
    destruct (IH (S k) (visit env w)) as (HP' & Hs'' & Hkeys').
    + exact Hs'.
    + rewrite Hkeys. lia.
    + apply (Hstep w f HP); [eapply nth_error_In; eassumption | exact Hf].
    + rewrite Hkeys in Hkeys'. replace (k + S n)%nat with (S k + n)%nat by lia. auto.
Qed.

(** The same, from the tick that took the snapshot. *)
Lemma scan_from_start (P : World -> Prop) :
  (forall w f, P w -> In f (_fileKeys (this w)) -> next_file w = Some f -> P (visit env w)) ->
  forall w n,
    immediates (trace w) = 0%nat ->
    (n <= length (FileWatcher.files (_fileWatcher w)))%nat -> P (started w) ->
    P (drain env n (started w)) /\ scanning n (drain env n (started w)) /\
    _fileKeys (this (drain env n (started w))) = FileWatcher.files (_fileWatcher w).
Proof.
  intros Hstep w n Hi Hn HP.
  apply (scan_invariant P Hstep n 0 (started w)); [now apply started_scanning | exact Hn | exact HP].
Qed.

Lemma drain_idle n w : immediates (trace w) = 0%nat -> drain env n w = w.
Proof. intros H. destruct n; cbn; [reflexivity | now rewrite H]. Qed.

Lemma drain_add n m : forall w, drain env (n + m) w = drain env m (drain env n w).
Proof.
  induction n as [|n IH]; intros w; [reflexivity|].
  cbn [drain Nat.add]. destruct (immediates (trace w)) eqn:E.
  - now rewrite drain_idle.
  - apply IH.
Qed.

Lemma callback_finishes w :
  scanning (length (_fileKeys (this w))) w -> _handleNextFile_callback env w = finishing env w.
Proof.
  intros (_ & Hpc & Htpc & _). unfold _handleNextFile_callback, finishing. fold (advance w).
  replace (_toProcessCount (this (advance w)) <=? _processedCount (this (advance w)))
    with true; [reflexivity|].
  symmetry. apply Z.leb_le. open_world w. cbn in *. lia.
Qed.

(** A triggered run is the scan of the snapshot followed by the finishing callback. *)
Lemma run_triggered w :
  idle w -> FileWatcher.dirty (_fileWatcher w) = true ->
  run env w =
  finishing env (drain env (length (FileWatcher.files (_fileWatcher w))) (started w)).
Proof.
  intros [Hb Hi] Hd. unfold run. rewrite tick_starts by assumption.
  set (L := length (FileWatcher.files (_fileWatcher w))).
  replace (callbacks_left (started w)) with (L + 1)%nat
    by (unfold callbacks_left; cbn; fold L; lia).
  rewrite drain_add.
  destruct (scan_from_start (fun _ => True) (fun _ _ _ _ _ => I) w L Hi (le_n L) I)
    as (_ & Hs & Hkeys).
  cbn [drain]. destruct Hs as (Him & Hrest). rewrite Him.
  apply callback_finishes. rewrite Hkeys. fold L. now split.
Qed.

Lemma run_not_triggered w :
  idle w -> FileWatcher.dirty (_fileWatcher w) = false -> run env w = w.
Proof.
  intros [Hb Hi] Hd. unfold run. rewrite tick_ignored by now left.
  now apply drain_idle.
Qed.

Lemma finishing_done w :
  _busy (this (finishing env w)) = false /\ immediates (trace (finishing env w)) = pred (immediates (trace w)).
Proof.
  unfold finishing. rewrite finish_always.
  pose proof (finish_block_preserves env (fun w => immediates (trace w))) as Hp.
  specialize (Hp ltac:(repeat split) (advance w)).
  destruct (finish_block env (advance w)) as [w1 c1]. cbn [fst snd] in *.
  assert (immediates (trace (done w1)) = pred (immediates (trace w))) as Hd.
  { unfold done. destruct (_onIndexingDone (this w1)); cbn; rewrite Hp; now destruct w as [? ? ? []]. }
  destruct c1; cbn; split; try exact Hd; unfold done; now destruct (_onIndexingDone (this w1)).
Qed.

(** Every run comes to its end: the queue is empty again and the guard is down. *)
Lemma run_completes w : idle w -> idle (run env w).
Proof.
  intros Hidle. destruct (FileWatcher.dirty (_fileWatcher w)) eqn:Hd.
  - rewrite run_triggered by assumption.
    destruct (scan_from_start (fun _ => True) (fun _ _ _ _ _ => I) w
                (length (FileWatcher.files (_fileWatcher w))) (proj2 Hidle) (le_n _) I)
      as (_ & (Him & _) & _).
    destruct (finishing_done (drain env (length (FileWatcher.files (_fileWatcher w))) (started w)))
      as [Hb Hi].
    split; [exact Hb|]. rewrite Hi. now rewrite Him.
  - now rewrite run_not_triggered.
Qed.

End Runs.

(** ** Incrementality *)

Section Incrementality.
Variable env : Env.
Import LokiFacts.

Lemma finishing_reads w : tagReads (trace (finishing env w)) = tagReads (trace w).
Proof.
  unfold finishing. rewrite finish_always.
  pose proof (finish_block_preserves env (fun w => tagReads (trace w))
                ltac:(repeat split) (advance w)) as Hp.
  destruct (finish_block env (advance w)) as [w1 c1]. cbn [fst snd] in *.
  assert (tagReads (trace (done w1)) = tagReads (trace w)) as Hd.
  { unfold done. destruct (_onIndexingDone (this w1)); cbn; rewrite Hp; now destruct w as [? ? ? []]. }
  now destruct c1.
Qed.

Lemma finishing_table w c :
  _fileTable (this w) = Some c ->
  _fileTable (this (finishing env w)) = Some c \/
  (Loki.find_dirty c <> [] /\
   _fileTable (this (finishing env w)) =
   Some (pruned (FileWatcher.files (_fileWatcher w)) (cleaned (Loki.find_dirty c) c))).
Proof.
  intros Hc. unfold finishing. rewrite finish_always.
  assert (_fileTable (this (advance w)) = Some c) as Hc' by (now destruct w as [[] ? ? ?]).
  pose proof (finish_block_table env (advance w) c Hc') as H.
  destruct (finish_block env (advance w)) as [w1 c1]. cbn [fst snd] in *.
  assert (_fileTable (this (settle (fun s => s) (done w1, c1))) = _fileTable (this w1)) as ->.
  { unfold done. destruct c1, (_onIndexingDone (this w1)); reflexivity. }
  replace (FileWatcher.files (_fileWatcher (advance w)))
    with (FileWatcher.files (_fileWatcher w)) in H by reflexivity.
  exact H.
Qed.

Lemma kept_visit f r m before w g :
  statSync_mtime env f = Ok m -> mtime r = Some m ->
  kept env f r before w -> next_file w = Some g -> kept env f r before (visit env w).
Proof.
  intros Hs Hm (c & new & Hc & U & Hb & Hr & Hn & Hw) Hg.
  pose proof (visit_visited env w g Hg) as V.
  assert (pathExists env f = Ok true ->
          In f (FileWatcher.files (_fileWatcher (visit env w)))) as Hw'.
  { intros Hp. destruct (visited_watcher env _ _ _ V) as [->|[Hgone ->]]; [auto|].
    cbn. apply filter_In. split; [auto|].
    apply negb_true_iff, String.eqb_neq. intros ->. congruence. }
  destruct (string_dec g f) as [->|N].
  - destruct (visited_unchanged env _ _ _ c r m V Hc Hb Hs Hm) as [Hc' Hr'].
    exists c, new. rewrite Hc', Hr'. auto 10.
  - destruct (visited_table env _ _ _ c V Hc U) as (c' & Hc' & U' & Hother).
    destruct (visited_reads env _ _ _ V) as [Hr'|Hr'].
    + exists c', new. rewrite Hc', Hr', Hother by congruence. auto 10.
    + exists c', (new ++ [g]). rewrite Hc', Hr', Hr, Hother, app_assoc by congruence.
      repeat split; auto.
      intros Hin. apply in_app_iff in Hin as [Hin|[Hin|[]]]; [auto | congruence].
Qed.

(** C1, as the code has it.  A file of the snapshot that has a cached
    record whose [mtime] is the modification-time string the file has on
    disk is never handed to the tag reader during the run, and every
    per-file callback of the run leaves its cached record as it was.  When
    the run is over the record is as it was if it was not marked dirty; a
    record that was marked dirty is either as it was or has lost that mark
    and nothing else, since finishing clears the marks when it rebuilds the
    index. *)
Theorem unchanged_file_is_not_read_again w c f r m :
  idle w ->
  _fileTable (this w) = Some c -> unique c ->
  In f (FileWatcher.files (_fileWatcher w)) ->
  Loki.by_file f c = Some r ->
  statSync_mtime env f = Ok m -> mtime r = Some m ->
  (exists new, tagReads (trace (run env w)) = tagReads (trace w) ++ new /\ ~ In f new) /\
  (forall n, (n <= length (FileWatcher.files (_fileWatcher w)))%nat ->
             cached f (drain env n (interval_callback w)) = Some r) /\
  (Loki.is_dirty r = false -> pathExists env f = Ok true -> cached f (run env w) = Some r) /\
  (pathExists env f = Ok true ->
     cached f (run env w) = Some r \/ cached f (run env w) = Some (set_dirty false r)).
Proof.
  intros Hidle Hc U Hin Hb Hs Hm.
  destruct (FileWatcher.dirty (_fileWatcher w)) eqn:Hd.
  - assert (kept env f r (tagReads (trace w)) (started w)) as K0.
    { exists c, []. cbn. rewrite app_nil_r. auto 10. }
    assert (forall n, (n <= length (FileWatcher.files (_fileWatcher w)))%nat ->
                      kept env f r (tagReads (trace w)) (drain env n (started w))) as K.
    { intros n Hn.
      apply (scan_from_start env (kept env f r (tagReads (trace w)))); [|apply Hidle|exact Hn|exact K0].
      intros w' g K' _ Hg. now apply (kept_visit f r m _ w' g). }
    rewrite run_triggered, tick_starts by (assumption || apply Hidle).
    set (L := length (FileWatcher.files (_fileWatcher w))) in *.
    destruct (K L (le_n L)) as (c' & new & Hc' & U' & Hb' & Hr' & Hn' & Hw').
    split; [|split; [|split]].
    + exists new. now rewrite finishing_reads.
    + intros n Hn. destruct (K n Hn) as (cn & _ & Hcn & _ & Hbn & _).
      unfold cached. now rewrite Hcn.
    + intros Hclean Hp. unfold cached.
      destruct (finishing_table _ c' Hc') as [->|[_ ->]]; [exact Hb'|].
      rewrite by_file_pruned_listed by auto.
      now apply by_file_cleaned_clean.
    + intros Hp. unfold cached.
      destruct (finishing_table _ c' Hc') as [->|[_ ->]]; [now left|].
      rewrite by_file_pruned_listed by auto.
      rewrite cleaned_clears by exact U'.
      rewrite by_file_mapped by apply clear_keeps_file.
      rewrite Hb'. cbn [option_map]. unfold clear.
      destruct (Loki.is_dirty r); [now right | now left].
  - rewrite run_not_triggered, tick_ignored by (assumption || now left).
    split; [|split; [|split]].
    + exists []. now rewrite app_nil_r.
    + intros n _. rewrite drain_idle by apply Hidle. unfold cached. now rewrite Hc.
    + intros _ _. unfold cached. now rewrite Hc.
    + intros _. left. unfold cached. now rewrite Hc.
Qed.

End Incrementality.

(** ** The rebuilt index *)

Section Snapshot.
Variable env : Env.
Import LokiFacts.

Lemma entry_accepted c p it :
  entry env c p = Some it <->
  exists fileData id3,
    Loki.by_file p c = Some fileData /\ tagData fileData = Some id3 /\
    isTagValid env id3 = true /\ it = item_of id3.
Proof.
  unfold entry. split.
  - destruct (Loki.by_file p c) as [r|]; [|discriminate].
    destruct (tagData r) as [id3|] eqn:Et; [|discriminate].
    destruct (isTagValid env id3) eqn:Ev; [|discriminate].
    intros [= <-]. now exists r, id3.
  - intros (r & id3 & -> & Ht & Hv & ->). now rewrite Ht, Hv.
Qed.

Lemma has_entry_accepted c p : has_entry env c p = true <-> accepted env c p.
Proof.
  unfold has_entry, accepted. split.
  - destruct (entry env c p) as [it|] eqn:E; [|discriminate]. intros _.
    apply entry_accepted in E as (r & id3 & ? & ? & ? & _). now exists r, id3.
  - intros (r & id3 & Hb & Ht & Hv).
    now rewrite (proj2 (entry_accepted c p (item_of id3))) by now exists r, id3.
Qed.

Lemma entries_listed c props :
  Forall2 (fun p it => entry env c p = Some it) (filter (has_entry env c) props) (entries env c props).
Proof.
  unfold entries, has_entry. induction props as [|p props IH]; cbn; [constructor|].
  destruct (entry env c p) as [it|] eqn:E; cbn; [constructor|]; auto.
Qed.

Lemma complaint_in c props p line :
  In p props -> complaint env c p = Some line -> In line (complaints env c props).
Proof.
  intros Hin Hc. unfold complaints. apply in_flat_map. exists p. split; [exact Hin|].
  rewrite Hc. now left.
Qed.

(** The index file and the log once [fs.outputFile] has gone through,
    whatever happens to the status file. *)
Lemma finish_block_index w c :
  _fileTable (this w) = Some c ->
  Loki.find_dirty c <> [] ->
  outputFile_index env = None ->
  let w' := fst (finish_block env w) in
  let props := FileWatcher.files (_fileWatcher w) in
  indexFile (disk w') =
    Some (mkIndex (getTime env (clockReads (trace w))) (entries env c props)) /\
  logFile (disk w') = logFile (disk w) ++ complaints env c props /\
  _errorsOccurred (this w') = (_errorsOccurred (this w) || existsb (mistagged env c) props)%bool.
Proof.
  intros Hc Hd Ho.
  destruct (writeFileSync_status env) as [ex|] eqn:Hs.
  - cbn zeta. unfold finish_block, saveDatabase, fileTable_deref, Date_getTime.
    cbv [bind modify gets ret return_ await throw]. cbn. rewrite Hc.
    destruct (Loki.find_dirty c) as [|d ds] eqn:E; [congruence|].
    erewrite write_items_spec by (cbn; exact Hc). rewrite Ho. cbn. rewrite Hs. cbn.
    now repeat split.
  - cbn zeta. rewrite (finish_block_rebuilds env w c) by assumption. now repeat split.
Qed.

Lemma done_outputs w :
  disk (done w) = disk w /\ _errorsOccurred (this (done w)) = _errorsOccurred (this w) /\
  _fileTable (this (done w)) = _fileTable (this w).
Proof. unfold done. now destruct (_onIndexingDone (this w)). Qed.

Lemma Forall2_in_l {A B} (R : A -> B -> Prop) l l' x :
  Forall2 R l l' -> In x l -> exists y, In y l' /\ R x y.
Proof.
  induction 1 as [|a b l l' Hab _ IH]; intros Hin; [destruct Hin|].
  destruct Hin as [->|Hin].
  - exists b. split; [now left | exact Hab].
  - destruct (IH Hin) as (y & Hy & HR). exists y. split; [now right | exact HR].
Qed.

(** C3. When a record is dirty as the run finishes, the index file is written
    anew with exactly one item (album, artist, name, relative path) for each
    path of the watcher's current set whose cached record has tag data that
    passes validation at that moment, in the order of the set, whichever
    paths the run itself touched; a path whose record has no tag data or
    invalid tag data gets a line in the log and no item. *)
Theorem rebuild_is_a_full_snapshot w c :
  _fileTable (this w) = Some c ->
  Loki.find_dirty c <> [] ->
  outputFile_index env = None ->
  let w' := fst (_finishHandlingChanges env w) in
  let props := FileWatcher.files (_fileWatcher w) in
  exists doc listed,
    indexFile (disk w') = Some doc /\
    Forall2 (fun p it => exists fileData id3,
                 Loki.by_file p c = Some fileData /\ tagData fileData = Some id3 /\
                 isTagValid env id3 = true /\
                 it = mkItem (album id3) (artist id3) (name id3) (clippedPath id3))
            listed (items doc) /\
    (forall p, In p listed <-> In p props /\ accepted env c p) /\
    (NoDup props -> NoDup listed) /\
    (forall p fileData,
        In p props -> Loki.by_file p c = Some fileData -> tagData fileData = None ->
        In (p ++ " has no tag data")%string (logFile (disk w'))) /\
    (forall p fileData id3,
        In p props -> Loki.by_file p c = Some fileData -> tagData fileData = Some id3 ->
        isTagValid env id3 = false ->
        In (clippedPath id3 ++ " isn't properly tagged")%string (logFile (disk w')) /\
        _errorsOccurred (this w') = true).
Proof.
  intros Hc Hd Ho w' props.
  destruct (finish_block_index w c Hc Hd Ho) as (Hix & Hlog & Herr).
  assert (Hw' : w' = done (fst (finish_block env w))) by (unfold w'; now rewrite finish_always).
  destruct (done_outputs (fst (finish_block env w))) as (Hdisk & Herrs & _).
  exists (mkIndex (getTime env (clockReads (trace w))) (entries env c props)),
         (filter (has_entry env c) props).
  rewrite Hw', Hdisk, Herrs, Hix, Hlog, Herr. fold props.
  split; [reflexivity|]. split; [|split; [|split; [|split]]].
  - eapply Forall2_impl; [|apply entries_listed]. intros p it Hit.
    apply entry_accepted in Hit as (r & id3 & Hb & Ht & Hv & ->).
    exists r, id3. now repeat split.
  - intros p. rewrite filter_In. now rewrite has_entry_accepted.
  - apply NoDup_filter.
  - intros p r Hin Hb Ht. apply in_or_app. right.
    apply (complaint_in c props p); [exact Hin|]. unfold complaint. now rewrite Hb, Ht.
  - intros p r id3 Hin Hb Ht Hv. split.
    + apply in_or_app. right.
      apply (complaint_in c props p); [exact Hin|]. unfold complaint. now rewrite Hb, Ht, Hv.
    + apply orb_true_iff. right. apply existsb_exists. exists p. split; [exact Hin|].
      unfold mistagged. now rewrite Hb, Ht, Hv.
Qed.

End Snapshot.

(** ** Orphans and dates *)

Section Finalization.
Variable env : Env.
Import LokiFacts.

Lemma run_scanned w :
  idle w -> FileWatcher.dirty (_fileWatcher w) = true ->
  run env w = finishing env (scanned env w).
Proof. apply run_triggered. Qed.

(** The scan never adds a path to the watcher's set. *)
Lemma scanned_files w :
  immediates (trace w) = 0%nat ->
  incl (FileWatcher.files (_fileWatcher (scanned env w))) (FileWatcher.files (_fileWatcher w)).
Proof.
  intros Hi.
  apply (scan_from_start env
           (fun w' => incl (FileWatcher.files (_fileWatcher w'))
                           (FileWatcher.files (_fileWatcher w))));
    [|exact Hi|apply le_n|apply incl_refl].
  intros w' g H _ Hg.
  destruct (visited_watcher env _ _ _ (visit_visited env w' g Hg)) as [->|[_ ->]]; [exact H|].
  intros q Hq. apply H. cbn in Hq. now apply filter_In in Hq.
Qed.

(** X1. The unique index survives a run. *)
Lemma run_keeps_unique w c :
  idle w -> _fileTable (this w) = Some c -> unique c ->
  exists c', _fileTable (this (run env w)) = Some c' /\ unique c'.
Proof.
  intros Hidle Hc U.
  destruct (FileWatcher.dirty (_fileWatcher w)) eqn:Hd.
  - rewrite run_scanned by assumption.
    assert (exists c', _fileTable (this (scanned env w)) = Some c' /\ unique c')
      as (c' & Hc' & U').
    { apply (scan_from_start env
               (fun w' => exists c', _fileTable (this w') = Some c' /\ unique c'));
        [|apply Hidle|apply le_n|now exists c].
      intros w' g (c0 & Hc0 & U0) _ Hg.
      destruct (visited_table env _ _ _ c0 (visit_visited env w' g Hg) Hc0 U0)
        as (c1 & Hc1 & U1 & _).
      now exists c1. }
    destruct (finishing_table env _ c' Hc') as [->|[_ ->]].
    + now exists c'.
    + eexists. split; [reflexivity|]. now apply unique_pruned, unique_cleaned.
  - rewrite run_not_triggered by assumption. now exists c.
Qed.

Lemma finishing_rebuilt w c :
  _fileTable (this w) = Some c -> Loki.find_dirty c <> [] ->
  outputFile_index env = None -> writeFileSync_status env = None ->
  finishing env w = done (rebuilt env (advance w) c).
Proof.
  intros Hc Hd Ho Hs. unfold finishing. rewrite finish_always.
  rewrite (finish_block_rebuilds env (advance w) c) by assumption.
  reflexivity.
Qed.

Lemma done_rebuilt_table w c :
  _fileTable (this (done (rebuilt env (advance w) c))) =
  Some (pruned (FileWatcher.files (_fileWatcher w)) (cleaned (Loki.find_dirty c) c)).
Proof. unfold done. now destruct (_onIndexingDone (this (rebuilt env (advance w) c))). Qed.

Lemma done_rebuilt_disk w c :
  disk (done (rebuilt env (advance w) c)) = disk (rebuilt env (advance w) c).
Proof. apply done_outputs. Qed.

Lemma done_rebuilt_watcher w c :
  _fileWatcher (done (rebuilt env (advance w) c)) = _fileWatcher w.
Proof. unfold done. now destruct (_onIndexingDone (this (rebuilt env (advance w) c))). Qed.

Lemma entries_from c props it :
  In it (entries env c props) -> exists q, In q props /\ entry env c q = Some it.
Proof.
  unfold entries. intros H. apply in_flat_map in H as (q & Hq & Hit).
  exists q. split; [exact Hq|]. destruct (entry env c q); cbn in Hit; [|tauto].
  destruct Hit as [->|[]]. reflexivity.
Qed.

(** C4, as the code has it.  A path that has left the watcher's set loses
    its cached record in the next run that rebuilds the index, that is, a
    run that finds a dirty record when it finishes and whose two writes go
    through: after that run the path has no cached record, no item of the
    rebuilt index comes from it, and every record still cached belongs to a
    path of the watcher's current set. *)
Theorem orphan_is_reaped_when_the_run_rebuilds w c p :
  idle w -> FileWatcher.dirty (_fileWatcher w) = true ->
  _fileTable (this (scanned env w)) = Some c -> Loki.find_dirty c <> [] ->
  outputFile_index env = None -> writeFileSync_status env = None ->
  ~ In p (FileWatcher.files (_fileWatcher w)) ->
  cached p (run env w) = None /\
  (exists doc, indexFile (disk (run env w)) = Some doc /\
     forall it, In it (items doc) ->
       exists q, q <> p /\ In q (FileWatcher.files (_fileWatcher w)) /\
                 entry env c q = Some it) /\
  (forall c' r, _fileTable (this (run env w)) = Some c' -> In r c' ->
     In (file r) (FileWatcher.files (_fileWatcher (run env w)))).
Proof.
  intros Hidle Hd Hc Hdirty Ho Hs Hp.
  pose proof (scanned_files w (proj2 Hidle)) as Hincl.
  rewrite run_scanned, (finishing_rebuilt _ c) by assumption.
  unfold cached. rewrite done_rebuilt_table, done_rebuilt_disk, done_rebuilt_watcher.
  split; [|split].
  - apply by_file_pruned_orphan. intros H. apply Hp, Hincl, H.
  - eexists. split; [reflexivity|]. cbn [items]. intros it Hit.
    apply entries_from in Hit as (q & Hq & Hit). exists q.
    replace (FileWatcher.files (_fileWatcher (advance (scanned env w))))
      with (FileWatcher.files (_fileWatcher (scanned env w))) in Hq by reflexivity.
    repeat split; [|now apply Hincl|exact Hit]. intros ->. apply Hp, Hincl, Hq.
  - intros c' r [= <-] Hin. now apply in_pruned in Hin.
Qed.

(** C7, as the code has it.  When the index is rebuilt and both writes go
    through, the [date] attribute of the index is the clock reading taken
    before the items are written, and the status file carries the next
    reading, taken after the index file was written; the two dates are the
    same exactly when the clock gave the same value twice. *)
Theorem status_date_is_a_later_reading w c :
  _fileTable (this w) = Some c -> Loki.find_dirty c <> [] ->
  outputFile_index env = None -> writeFileSync_status env = None ->
  let w' := fst (_finishHandlingChanges env w) in
  let n := clockReads (trace w) in
  exists doc st,
    indexFile (disk w') = Some doc /\ statusFile (disk w') = Some st /\
    date doc = getTime env n /\ status_date st = getTime env (S n) /\
    (date doc = status_date st <-> getTime env n = getTime env (S n)).
Proof.
  intros Hc Hd Ho Hs w' n.
  assert (Hw' : w' = done (rebuilt env w c)).
  { unfold w'. rewrite finish_always, (finish_block_rebuilds env w c) by assumption.
    reflexivity. }
  destruct (done_outputs (rebuilt env w c)) as (Hdisk & _).
  rewrite Hw', Hdisk. cbn. eexists. eexists. repeat split; auto.
Qed.

End Finalization.

(** ** Failures and other kinds of tag *)

Section PerFile.
Variable env : Env.
Import LokiFacts.

Lemma unchanged_since_true doc m : unchanged_since doc m = true <-> mtime doc = Some m.
Proof.
  unfold unchanged_since. destruct (mtime doc) as [m'|]; [|split; discriminate].
  rewrite String.eqb_eq. split; congruence.
Qed.

Lemma due_subject f c ins doc stats : subject env f c ins doc stats -> due env f c.
Proof.
  intros [d m Hb Hs Hu|Hb]; [right|now left].
  exists d, m. repeat split; auto. intros H. apply unchanged_since_true in H. congruence.
Qed.

Lemma due_not_unchanged f c doc m :
  due env f c -> Loki.by_file f c = Some doc -> statSync_mtime env f = Ok m ->
  unchanged_since doc m = true -> False.
Proof.
  intros [Hn|(d & m' & Hb & Hs & Hm)] Hb' Hs' Hu; [congruence|].
  apply unchanged_since_true in Hu. congruence.
Qed.

Lemma due_not_stat_error f c doc ex :
  due env f c -> Loki.by_file f c = Some doc -> statSync_mtime env f = Err ex -> False.
Proof. intros [Hn|(d & m' & Hb & Hs & Hm)] Hb' Hs'; congruence. Qed.

Lemma subject_stats f c ins doc stats :
  subject env f c ins doc stats ->
  or_empty stats = match Loki.by_file f c, statSync_mtime env f with
                   | Some _, Ok m => m
                   | _, _ => EmptyString
                   end.
Proof. intros [d m Hb Hs _|Hb]; cbn; now rewrite Hb, ?Hs. Qed.

(** C8, as the code has it.  When the tag reader succeeds with a kind other
    than ID3 or MP4, the callback stores nothing and reports nothing: the
    collection, the log and the flag [_errorsOccurred] are as before, no
    rejection is left unhandled, and the next callback is queued. *)
Theorem other_kind_is_passed_over w f c tag :
  _processedCount (this w) + 1 < _toProcessCount (this w) ->
  next_file w = Some f ->
  pathExists env f = Ok true ->
  _fileTable (this w) = Some c ->
  due env f c ->
  jsmediatags_read env f = Ok tag ->
  eligible tag = false ->
  let w' := _handleNextFile_callback env w in
  _fileTable (this w') = Some c /\
  logFile (disk w') = logFile (disk w) /\
  _errorsOccurred (this w') = _errorsOccurred (this w) /\
  tagReads (trace w') = tagReads (trace w) ++ [f] /\
  unhandled (trace w') = unhandled (trace w) /\
  immediates (trace w') = S (pred (immediates (trace w))).
Proof.
  intros Hpc Hf Hp Hc Hdue Hr He w'. unfold w'. rewrite callback_visits by assumption.
  pose proof (visit_visited env w f Hf) as V.
  destruct V as [ex Hp'|Hp'|Hp' Ht|c0 doc ex Hp' Ht Hb Hs|c0 doc m Hp' Ht Hb Hs Hu
                |c0 ins doc stats ex Hp' Ht Hsub Hr'|c0 ins doc stats tag0 Hp' Ht Hsub Hr' He'
                |c0 ins doc stats tag0 Hp' Ht Hsub Hr' He']; try congruence.
  - exfalso. assert (c0 = c) by congruence. subst. eapply due_not_stat_error; eauto.
  - exfalso. assert (c0 = c) by congruence. subst. eapply due_not_unchanged; eauto.
  - cbn. now repeat split.
Qed.

Lemma cached_failed f (ins : bool) doc stats ex c w :
  file doc = f ->
  Loki.by_file f c = (if ins then @None FileRecord else Some doc) ->
  cached f (queued (failed f ins doc stats ex c w)) =
  Some (apply_all (failure_changes stats) doc).
Proof.
  intros <- H. unfold cached. rewrite table_failed.
  apply by_file_upsert_same; [apply keeps_failure | exact H].
Qed.

(** X2. When the tag reader rejects for a path that is due for a read, the
    [catch] clause stores a record for the path without tag data and not
    dirty, with the [mtime] read from disk when the path had a record and
    the empty string when it had none; it logs a line and raises the flag.
    The next callback is queued and no rejection is left unhandled. *)
Lemma read_failure_is_recorded w f c ex :
  _processedCount (this w) + 1 < _toProcessCount (this w) ->
  next_file w = Some f ->
  pathExists env f = Ok true ->
  _fileTable (this w) = Some c ->
  due env f c ->
  jsmediatags_read env f = Err ex ->
  let w' := _handleNextFile_callback env w in
  (exists doc, cached f w' = Some doc /\ tagData doc = None /\ dirty doc = Some false /\
               mtime doc = Some (match Loki.by_file f c, statSync_mtime env f with
                                 | Some _, Ok m => m
                                 | _, _ => EmptyString
                                 end)) /\
  logFile (disk w') = logFile (disk w) ++ [failure_line f ex] /\
  _errorsOccurred (this w') = true /\
  unhandled (trace w') = unhandled (trace w) /\
  immediates (trace w') = S (pred (immediates (trace w))).
Proof.
  intros Hpc Hf Hp Hc Hdue Hr w'. unfold w'. rewrite callback_visits by assumption.
  pose proof (visit_visited env w f Hf) as V.
  destruct V as [ex' Hp'|Hp'|Hp' Ht|c0 doc ex' Hp' Ht Hb Hs|c0 doc m Hp' Ht Hb Hs Hu
                |c0 ins doc stats ex' Hp' Ht Hsub Hr'|c0 ins doc stats tag0 Hp' Ht Hsub Hr' He'
                |c0 ins doc stats tag0 Hp' Ht Hsub Hr' He']; try congruence.
  - exfalso. assert (c0 = c) by congruence. subst. eapply due_not_stat_error; eauto.
  - exfalso. assert (c0 = c) by congruence. subst. eapply due_not_unchanged; eauto.
  - assert (c0 = c) by congruence. assert (ex' = ex) by congruence. subst.
    destruct (subject_lookup _ _ _ _ _ _ Hsub) as [Hfile Hl].
    split; [|cbn; now repeat split].
    rewrite cached_failed by assumption.
    eexists. split; [reflexivity|]. cbn. repeat split.
    destruct Hsub as [d m Hb Hs Hu|Hb]; cbn; now rewrite Hb, ?Hs.
Qed.

(** X3. When [statSync] throws for a path that has a record, the [catch] clause
    keeps the record, without tag data, not dirty and with an empty [mtime],
    logs a line and raises the flag; the tag reader is not called. *)
Lemma stat_failure_is_recorded w f c doc ex :
  _processedCount (this w) + 1 < _toProcessCount (this w) ->
  next_file w = Some f ->
  pathExists env f = Ok true ->
  _fileTable (this w) = Some c ->
  Loki.by_file f c = Some doc ->
  statSync_mtime env f = Err ex ->
  let w' := _handleNextFile_callback env w in
  cached f w' = Some (set_tagData None (set_mtime EmptyString (set_dirty false doc))) /\
  logFile (disk w') = logFile (disk w) ++ [failure_line f ex] /\
  _errorsOccurred (this w') = true /\
  tagReads (trace w') = tagReads (trace w) /\
  immediates (trace w') = S (pred (immediates (trace w))).
Proof.
  intros Hpc Hf Hp Hc Hb Hs w'. unfold w'. rewrite callback_visits by assumption.
  pose proof (visit_visited env w f Hf) as V.
  destruct V as [ex' Hp'|Hp'|Hp' Ht|c0 doc0 ex' Hp' Ht Hb' Hs'|c0 doc0 m Hp' Ht Hb' Hs' Hu
                |c0 ins doc0 stats ex' Hp' Ht Hsub Hr'|c0 ins doc0 stats tag0 Hp' Ht Hsub Hr' He'
                |c0 ins doc0 stats tag0 Hp' Ht Hsub Hr' He']; try congruence.
  - assert (c0 = c) by congruence. subst.
    assert (doc0 = doc) by congruence. assert (ex' = ex) by congruence. subst.
    pose proof (by_file_some _ _ _ Hb) as [_ Hfile].
    split; [|cbn; now repeat split].
    now rewrite cached_failed.
  - exfalso. assert (c0 = c) by congruence. subst. apply due_subject in Hsub.
    eapply due_not_stat_error; eauto.
  - exfalso. assert (c0 = c) by congruence. subst. apply due_subject in Hsub.
    eapply due_not_stat_error; eauto.
  - exfalso. assert (c0 = c) by congruence. subst. apply due_subject in Hsub.
    eapply due_not_stat_error; eauto.
Qed.

(** C10. When the per-file step throws before a record exists for the path
    (the existence check throws, or the collection cannot be consulted), the
    [catch] clause finds [fileCachedData] undefined and throws a TypeError
    of its own: nothing is stored for the path, nothing is logged, the flag
    is not raised, the rejection stays unhandled; the [finally] clause has
    queued the next callback all the same, so the scan goes on with the next
    path. *)
Theorem early_exception_escapes_the_catch w f :
  (0 < immediates (trace w))%nat ->
  _processedCount (this w) + 1 < _toProcessCount (this w) ->
  next_file w = Some f ->
  (exists ex, pathExists env f = Err ex) \/
  (pathExists env f = Ok true /\ _fileTable (this w) = None) ->
  let w' := _handleNextFile_callback env w in
  snd (process_file env (enter (advance w))) = Throw TypeError /\
  _fileTable (this w') = _fileTable (this w) /\
  logFile (disk w') = logFile (disk w) /\
  _errorsOccurred (this w') = _errorsOccurred (this w) /\
  tagReads (trace w') = tagReads (trace w) /\
  unhandled (trace w') = unhandled (trace w) ++ [TypeError] /\
  immediates (trace w') = immediates (trace w) /\
  _processedCount (this w') = _processedCount (this w) + 1.
Proof.
  intros Hq Hpc Hf Hearly w'. unfold w'. rewrite callback_visits by assumption.
  assert (immediates (trace w) = S (pred (immediates (trace w)))) as Hq' by lia.
  split.
  - unfold next_file in Hf. methods. cbn. rewrite Hf. cbn.
    destruct Hearly as [[ex Hp]|[Hp Ht]]; rewrite Hp; cbn; [reflexivity|].
    now rewrite Ht.
  - pose proof (visit_visited env w f Hf) as V.
    destruct V as [ex' Hp'|Hp'|Hp' Ht|c0 doc ex' Hp' Ht Hb Hs|c0 doc m Hp' Ht Hb Hs Hu
                  |c0 ins doc stats ex' Hp' Ht Hsub Hr'|c0 ins doc stats tag0 Hp' Ht Hsub Hr' He'
                  |c0 ins doc stats tag0 Hp' Ht Hsub Hr' He'];
      try (destruct Hearly as [[ex Hp]|[Hp Ht0]]; congruence).
    + cbn. rewrite Hq' at 2. now repeat split.
    + cbn. rewrite Hq' at 2. now repeat split.
Qed.

End PerFile.

(** ** Start-up and mutual exclusion *)

Section Lifecycle.
Import LokiFacts.

Lemma visit_undefined env w : next_file w = None -> visit env w = queued (advance w).
Proof.
  unfold next_file. intros Hf. unfold visit. methods. cbn. now rewrite Hf.
Qed.

Lemma visit_guard env w :
  immediates (trace (visit env w)) = S (pred (immediates (trace w))) /\
  _busy (this (visit env w)) = _busy (this w).
Proof.
  destruct (next_file w) as [f|] eqn:Hf.
  - pose proof (visited_bookkeeping env _ _ _ (visit_visited env w f Hf)). tauto.
  - rewrite visit_undefined by assumption. now split.
Qed.

Lemma callback_cases env w :
  _handleNextFile_callback env w = visit env w \/
  _handleNextFile_callback env w = finishing env w.
Proof.
  unfold _handleNextFile_callback, visit, finishing. fold (advance w).
  destruct (_toProcessCount (this (advance w)) <=? _processedCount (this (advance w))); auto.
Qed.

Lemma start_guarded fileWatcher d : guarded (fst (start (new_Indexer fileWatcher d))).
Proof.
  unfold guarded, runs_under_way, start, _loadLokiFromFile, _createCollection.
  destruct d as [[[docs|]|] lg ix st]; cbn; lia.
Qed.

Lemma wipe_guard w :
  immediates (trace (settle (fun s => s) (wipe w))) = immediates (trace w) /\
  _busy (this (settle (fun s => s) (wipe w))) = _busy (this w).
Proof.
  unfold wipe, saveDatabase, fileTable_deref, fileTable_set, settle.
  cbv [bind modify gets ret throw]. cbn.
  destruct (_fileTable (this w)); cbn; auto.
Qed.

Lemma step_guarded w w' : guarded w -> step w w' -> guarded w'.
Proof.
  unfold guarded, runs_under_way. intros G S.
  destruct S as [emptied w Hi|env w Hq|fw w|w|w|w|w|w]; try exact G.
  - destruct (FileWatcher.dirty (_fileWatcher w)) eqn:Hd;
      [destruct (_busy (this w)) eqn:Hb|].
    + rewrite tick_passes by now right. now rewrite Hb.
    + destruct emptied as [[]|ex].
      * fold (interval_callback w). rewrite tick_starts by assumption. cbn. lia.
      * rewrite tick_rejected by assumption. cbn. lia.
    + now rewrite tick_passes by now left.
  - destruct (_busy (this w)) eqn:Hb; [|lia].
    destruct (callback_cases env w) as [->| ->].
    + destruct (visit_guard env w) as [-> ->]. rewrite Hb. lia.
    + destruct (finishing_done env w) as [-> ->]. lia.
  - destruct (wipe_guard w) as [-> ->]. exact G.
Qed.

Lemma reachable_guarded w : reachable w -> guarded w.
Proof.
  induction 1 as [fileWatcher d|w w' _ IH S]; [apply start_guarded|].
  exact (step_guarded w w' IH S).
Qed.

Lemma tick_table emptied w : _fileTable (this (tick emptied w)) = _fileTable (this w).
Proof.
  destruct (FileWatcher.dirty (_fileWatcher w)) eqn:Hd;
    [destruct (_busy (this w)) eqn:Hb|].
  - now rewrite tick_passes by now right.
  - destruct emptied as [[]|ex].
    + fold (interval_callback w). now rewrite tick_starts by assumption.
    + now rewrite tick_rejected by assumption.
  - now rewrite tick_passes by now left.
Qed.

(** Once [start] has run, the collection is there. *)
Lemma reachable_table w : reachable w -> exists c, _fileTable (this w) = Some c.
Proof.
  induction 1 as [fileWatcher d|w w' _ (c & Hc) S].
  - unfold start, _loadLokiFromFile, _createCollection.
    destruct d as [[[docs|]|] lg ix st]; cbn; eauto.
  - destruct S as [emptied w Hi|env w Hq|fw w|w|w|w|w|w]; try (exists c; exact Hc).
    + exists c. now rewrite tick_table.
    + destruct (callback_cases env w) as [->| ->].
      * destruct (next_file w) as [f|] eqn:Hf.
        -- exact (visited_table_some env _ _ _ c (visit_visited env w f Hf) Hc).
        -- rewrite visit_undefined by assumption. now exists c.
      * destruct (finishing_table env w c Hc) as [H|[_ H]]; rewrite H; eauto.
    + exists []. unfold wipe, saveDatabase, fileTable_deref, fileTable_set, settle.
      cbv [bind modify gets ret throw]. cbn. now rewrite Hc.
Qed.

(** The guard comes down and the hook is called however the [try] block ends. *)
Lemma finish_always_ends env w :
  let w' := fst (_finishHandlingChanges env w) in
  _busy (this w') = false /\
  events (trace w') =
    events (trace w) ++ (if _onIndexingDone (this w) then [IndexingDone] else []).
Proof.
  cbn zeta. rewrite finish_always. cbn [fst].
  pose proof (finish_block_preserves env (fun w => events (trace w))
                ltac:(repeat split) w) as He.
  pose proof (finish_block_preserves env (fun w => _onIndexingDone (this w))
                ltac:(repeat split) w) as Hh.
  cbn beta in He, Hh.
  destruct (finish_block env w) as [w1 c1]. cbn [fst] in *.
  unfold done. rewrite Hh.
  destruct (_onIndexingDone (this w)); cbn; rewrite He; [auto|now rewrite app_nil_r].
Qed.

(** C9. In every world a started indexer can get to, at most one run is
    under way, and none is unless the guard [_busy] is up.  A tick does
    nothing when the watcher's dirty signal is not set or the guard is up,
    whatever becomes of its log; a tick that starts a run found the signal
    set and the guard down (and could empty the log), and such a tick does
    start one, raising the guard and taking the signal.
    [_finishHandlingChanges] lowers the guard and calls the registered
    run-complete hook however its [try] block ends, in particular when a
    step of it throws. *)
Theorem at_most_one_run w :
  reachable w ->
  (runs_under_way w <= 1)%nat /\
  (runs_under_way w = 1%nat -> _busy (this w) = true) /\
  (forall emptied,
     FileWatcher.dirty (_fileWatcher w) = false \/ _busy (this w) = true ->
     tick emptied w = w) /\
  (forall emptied,
     runs_under_way (tick emptied w) <> runs_under_way w ->
     FileWatcher.dirty (_fileWatcher w) = true /\ _busy (this w) = false /\
     emptied = Ok tt) /\
  (FileWatcher.dirty (_fileWatcher w) = true -> _busy (this w) = false ->
     _busy (this (interval_callback w)) = true /\
     FileWatcher.dirty (_fileWatcher (interval_callback w)) = false /\
     runs_under_way (interval_callback w) = 1%nat) /\
  (forall env,
     let w' := fst (_finishHandlingChanges env w) in
     _busy (this w') = false /\
     events (trace w') =
       events (trace w) ++ (if _onIndexingDone (this w) then [IndexingDone] else [])).
Proof.
  intros R. pose proof (reachable_guarded w R) as G. unfold guarded in G.
  split; [destruct (_busy (this w)); lia|].
  split; [intros H1; destruct (_busy (this w)); [reflexivity | lia]|].
  split; [intros emptied; apply tick_passes|].
  split; [|split; [|intros env; apply finish_always_ends]].
  - intros emptied Hne.
    destruct (FileWatcher.dirty (_fileWatcher w)) eqn:Hd;
      [destruct (_busy (this w)) eqn:Hb|].
    + exfalso. apply Hne. now rewrite tick_passes by now right.
    + destruct emptied as [[]|ex]; [now repeat split|].
      exfalso. apply Hne. now rewrite tick_rejected by assumption.
    + exfalso. apply Hne. now rewrite tick_passes by now left.
  - intros Hd Hb. rewrite tick_starts by assumption. unfold runs_under_way in *. cbn.
    rewrite Hb in G. repeat split. lia.
Qed.

(** C6. When the cache file is there at start-up but holds no usable
    collection, [start] deletes the file and goes on with an empty
    collection that answers queries; when there is no cache file, [start]
    makes an empty collection.  In both cases [start] returns normally and
    the interval is running. *)
Theorem start_survives_an_unusable_cache fileWatcher log index status :
  (exists w',
      start (new_Indexer fileWatcher (mkDisk (Some NoFileData) log index status))
        = (w', Normal tt) /\
      lokiFile (disk w') = None /\
      _fileTable (this w') = Some [] /\
      getAllFiles w' = (w', Normal []) /\
      _interval (this w') = true) /\
  (exists w',
      start (new_Indexer fileWatcher (mkDisk None log index status)) = (w', Normal tt) /\
      lokiFile (disk w') = None /\
      _fileTable (this w') = Some [] /\
      getAllFiles w' = (w', Normal []) /\
      _interval (this w') = true).
Proof.
  split; eexists; (split; [reflexivity|]); cbn; repeat split.
Qed.

End Lifecycle.

(** ** Failures of the per-file step *)

Section Failures.
Variable env : Env.
Import LokiFacts.

(** When the [try] block throws although the existence check has answered
    and the collection is there, the file is on disk and either [statSync]
    threw for its record or the tag reader rejected. *)
Lemma try_block_throws w f c ex :
  next_file w = Some f ->
  (exists b, pathExists env f = Ok b) ->
  _fileTable (this w) = Some c ->
  snd (try_block env (enter (advance w))) = Throw ex ->
  pathExists env f = Ok true /\
  ((exists doc, Loki.by_file f c = Some doc /\ statSync_mtime env f = Err ex) \/
   (due env f c /\ jsmediatags_read env f = Err ex)).
Proof.
  unfold next_file. intros Hf [b Hp] Ht.
  destruct b.
  2: { unfold try_block. methods. cbn. rewrite Hf. cbn. rewrite Hp. cbn. discriminate. }
  open_world w. cbn in Ht, Hf. subst.
  destruct (Loki.by_file f c) as [doc|] eqn:Hb.
  - destruct (statSync_mtime env f) as [m|ex'] eqn:Hs.
    2: { unfold try_block. methods. cbn. rewrite Hf. cbn. rewrite Hp. cbn. rewrite Hb. cbn.
         rewrite Hs. cbn. intros [= <-]. split; [reflexivity|]. left. now exists doc. }
    destruct (unchanged_since doc m) eqn:Hu.
    { unfold try_block. methods. cbn. rewrite Hf. cbn. rewrite Hp. cbn. rewrite Hb. cbn.
      rewrite Hs. cbn. unfold unchanged_since in Hu. rewrite Hu. cbn. discriminate. }
    assert (Hsub : subject env f c false doc (Some m)) by now constructor.
    destruct (jsmediatags_read env f) as [tag|ex'] eqn:Hr.
    2: { unfold try_block. methods. cbn. rewrite Hf. cbn. rewrite Hp. cbn. rewrite Hb. cbn.
         rewrite Hs. cbn. unfold unchanged_since in Hu. rewrite Hu. cbn. rewrite Hr. cbn.
         intros [= <-]. split; [reflexivity|]. right. split; [|reflexivity].
         now apply (due_subject env f c false doc (Some m)). }
    unfold unchanged_since in Hu.
    destruct (eligible tag) eqn:He; destruct hookProgress;
      unfold try_block; methods; cbn; rewrite Hf; cbn; rewrite Hp; cbn; rewrite Hb; cbn;
      rewrite Hs; cbn; rewrite Hu; cbn; rewrite Hr; cbn; rewrite He; cbn; discriminate.
  - destruct (jsmediatags_read env f) as [tag|ex'] eqn:Hr.
    2: { unfold try_block. methods. cbn. rewrite Hf. cbn. rewrite Hp. cbn. rewrite Hb. cbn.
         rewrite Hr. cbn. intros [= <-]. split; [reflexivity|]. right.
         split; [now left | reflexivity]. }
    destruct (eligible tag) eqn:He; destruct hookProgress;
      unfold try_block; methods; cbn; rewrite Hf; cbn; rewrite Hp; cbn; rewrite Hb; cbn;
      rewrite Hr; cbn; rewrite He; cbn; discriminate.
Qed.

Lemma failure_line_explicit f ex :
  failure_line f ex =
  ((f ++ match ex_type ex with
         | Some t => if String.eqb t "tagfail" then " tag read fail."
                     else " could not be read, is it properly tagged?"
         | None => " could not be read, is it properly tagged?"
         end) ++ " : " ++ ex_json ex)%string.
Proof.
  unfold failure_line. destruct (ex_type ex) as [t|]; [|reflexivity].
  now destruct (String.eqb t "tagfail").
Qed.

(** What the [catch] clause leaves when it has a record to work on. *)
Lemma failed_outcome f (ins : bool) doc stats ex c w :
  file doc = f ->
  _fileTable (this w) = Some c ->
  Loki.by_file f c = (if ins then @None FileRecord else Some doc) ->
  let w' := queued (failed f ins doc stats ex c (advance w)) in
  (exists doc',
     cached f w' = Some doc' /\ file doc' = f /\ tagData doc' = None /\
     dirty doc' = Some false /\ mtime doc' = Some (or_empty stats)) /\
  (forall g, g <> f -> cached g w' = cached g w) /\
  logFile (disk w') = logFile (disk w) ++ [failure_line f ex] /\
  _errorsOccurred (this w') = true /\
  unhandled (trace w') = unhandled (trace w) /\
  immediates (trace w') = S (pred (immediates (trace w))).
Proof.
  intros Hfile Hc Hl. cbn zeta. split; [|split].
  - rewrite cached_failed by assumption. eexists. split; [reflexivity|].
    split; [|now repeat split].
    rewrite (apply_all_file (failure_changes stats) doc (keeps_failure stats)). exact Hfile.
  - intros g N. unfold cached. rewrite table_failed, Hc.
    apply by_file_upsert_other; [apply keeps_failure | congruence].
  - cbn. now repeat split.
Qed.

(** C5. When the per-file step throws, whatever it throws, the [catch]
    clause records the failure: the path has a record afterwards, without
    tag data and not dirty, whose [mtime] is the one read from disk when
    there was a record and [statSync] answered, and the empty string
    otherwise; no other record changes; one line goes to the log, which
    says [tag read fail.] for an error of type [tagfail] and [could not be
    read, is it properly tagged?] for any other; the flag [_errorsOccurred]
    is up; nothing is left unhandled and the next callback is queued, so
    the run goes on.  This holds in every world a started indexer can get
    to, for an existence check that answers, as fs-extra's does. *)
Theorem per_file_failure_is_recorded w f ex :
  reachable w ->
  _processedCount (this w) + 1 < _toProcessCount (this w) ->
  next_file w = Some f ->
  (exists b, pathExists env f = Ok b) ->
  snd (try_block env (enter (advance w))) = Throw ex ->
  let w' := _handleNextFile_callback env w in
  (exists doc,
     cached f w' = Some doc /\ file doc = f /\ tagData doc = None /\
     dirty doc = Some false /\
     mtime doc = Some match cached f w, statSync_mtime env f with
                      | Some _, Ok m => m
                      | _, _ => EmptyString
                      end) /\
  (forall g, g <> f -> cached g w' = cached g w) /\
  logFile (disk w') =
    logFile (disk w) ++
    [((f ++ match ex_type ex with
            | Some t => if String.eqb t "tagfail" then " tag read fail."
                        else " could not be read, is it properly tagged?"
            | None => " could not be read, is it properly tagged?"
            end) ++ " : " ++ ex_json ex)%string] /\
  _errorsOccurred (this w') = true /\
  unhandled (trace w') = unhandled (trace w) /\
  immediates (trace w') = S (pred (immediates (trace w))).
Proof.
  intros R Hpc Hf Hres Hthrow. cbn zeta.
  destruct (reachable_table w R) as (c & Hc).
  destruct (try_block_throws w f c ex Hf Hres Hc Hthrow) as (Hp & Hcase).
  rewrite callback_visits by assumption. rewrite <- failure_line_explicit.
  unfold cached at 2. rewrite Hc.
  pose proof (visit_visited env w f Hf) as V.
  destruct V as [ex' Hp'|Hp'|Hp' Ht|c0 doc ex' Hp' Ht Hb Hs|c0 doc m Hp' Ht Hb Hs Hu
                |c0 ins doc stats ex' Hp' Ht Hsub Hr|c0 ins doc stats tag Hp' Ht Hsub Hr He
                |c0 ins doc stats tag Hp' Ht Hsub Hr He]; try congruence.
  - assert (c0 = c) by congruence. subst c0.
    destruct Hcase as [(doc0 & Hb0 & Hs0)|[Hdue Hr]].
    + assert (ex' = ex) by congruence. subst ex'.
      pose proof (by_file_some _ _ _ Hb) as [_ Hfile].
      destruct (failed_outcome f false doc None ex c w Hfile Hc Hb) as (Hrec & Hrest).
      split; [|exact Hrest]. rewrite Hb, Hs. exact Hrec.
    + exfalso. eapply due_not_stat_error; eauto.
  - exfalso. assert (c0 = c) by congruence. subst c0.
    destruct Hcase as [(doc0 & Hb0 & Hs0)|[Hdue Hr]]; [congruence|].
    eapply due_not_unchanged; eauto.
  - assert (c0 = c) by congruence. subst c0.
    destruct Hcase as [(doc0 & Hb0 & Hs0)|[Hdue Hr']].
    + exfalso. apply due_subject in Hsub. eapply due_not_stat_error; eauto.
    + assert (ex' = ex) by congruence. subst ex'.
      destruct (subject_lookup env _ _ _ _ _ Hsub) as [Hfile Hl].
      destruct (failed_outcome f ins doc stats ex c (read f w) Hfile Hc Hl) as (Hrec & Hrest).
      split; [|exact Hrest]. rewrite <- (subject_stats env f c ins doc stats Hsub). exact Hrec.
  - exfalso. destruct Hcase as [(doc0 & Hb0 & Hs0)|[Hdue Hr']]; [|congruence].
    assert (c0 = c) by congruence. subst c0.
    apply due_subject in Hsub. eapply due_not_stat_error; eauto.
  - exfalso. destruct Hcase as [(doc0 & Hb0 & Hs0)|[Hdue Hr']]; [|congruence].
    assert (c0 = c) by congruence. subst c0.
    apply due_subject in Hsub. eapply due_not_stat_error; eauto.
Qed.

End Failures.

(** ** The code at work *)

Section Examples.
Import Scenario.
Import LokiFacts.

(** C2 at the input where the code departs from it.  A file seen for the
    first time is cached with an empty [mtime] instead of the one it has on
    disk, since [fileStats] is only read for a path that already has a
    record.  The next run, with nothing changed on disk and the same set of
    paths, therefore reads the file again, marks it dirty and rebuilds the
    index and the status file with new dates; only the run after that is
    quiet. *)
Theorem new_file_is_read_again_by_the_next_run :
  let w1 := run steady fresh in
  let w2 := run steady (retrigger w1) in
  let w3 := run steady (retrigger w2) in
  statSync_mtime steady a_mp3 = Ok stamp /\
  option_map mtime (cached a_mp3 w1) = Some (Some EmptyString) /\
  tagReads (trace w1) = [a_mp3] /\
  option_map date (indexFile (disk w1)) = Some (clock 0) /\
  statusFile (disk w1) = Some (mkStatus (clock 1)) /\
  FileWatcher.files (_fileWatcher (retrigger w1)) = FileWatcher.files (_fileWatcher fresh) /\
  tagReads (trace w2) = [a_mp3; a_mp3] /\
  option_map date (indexFile (disk w2)) = Some (clock 2) /\
  statusFile (disk w2) = Some (mkStatus (clock 3)) /\
  cached a_mp3 w2 = Some a_record /\
  tagReads (trace w3) = [a_mp3; a_mp3] /\
  indexFile (disk w3) = indexFile (disk w2) /\
  statusFile (disk w3) = statusFile (disk w2).
Proof. vm_compute. repeat split; reflexivity. Qed.

(** C1 fails as stated.  A run whose index write failed leaves the record
    of [a_mp3] marked dirty, with the [mtime] the file has on disk.  In the
    next run the file is unchanged and is not read, and yet its record is
    not the same afterwards: finishing has cleared the mark. *)
Lemma unchanged_dirty_record_is_changed :
  let w := retrigger (run Mishaps.disk_full (idling [a_stale] [a_mp3])) in
  idle w /\
  In a_mp3 (FileWatcher.files (_fileWatcher w)) /\
  cached a_mp3 w = Some a_pending /\
  statSync_mtime steady a_mp3 = Ok stamp /\ mtime a_pending = Some stamp /\
  tagReads (trace (run steady w)) = tagReads (trace w) /\
  cached a_mp3 (run steady w) = Some a_record /\
  a_record <> a_pending.
Proof.
  vm_compute. repeat split; try reflexivity.
  - now left.
  - discriminate.
Qed.

(** C4 fails as stated: a run that finds no dirty record returns before the
    orphans are removed.  Here [b_mp3] has left the watcher's set and
    [a_mp3] is unchanged; after the completed run the record of [b_mp3] is
    still cached. *)
Lemma orphan_survives_a_quiet_run :
  let w := idling [a_record; b_record] [a_mp3] in
  let w1 := run steady w in
  idle w /\ FileWatcher.dirty (_fileWatcher w) = true /\
  ~ In b_mp3 (FileWatcher.files (_fileWatcher w)) /\
  idle w1 /\
  cached b_mp3 w1 = Some b_record /\
  lokiFile (disk w1) = Some (FileData [a_record; b_record]).
Proof.
  repeat split; try (vm_compute; reflexivity).
  intros [H|[]]. discriminate H.
Qed.

(** C7 fails as stated: the two dates are two readings of the clock, and the
    index file is written between them. *)
Lemma status_date_differs_from_index_date :
  let w1 := run steady fresh in
  exists doc st,
    indexFile (disk w1) = Some doc /\ statusFile (disk w1) = Some st /\
    date doc = clock 0 /\ status_date st = clock 1 /\ date doc <> status_date st.
Proof.
  vm_compute. eexists. eexists. repeat split; try reflexivity. discriminate.
Qed.

(** C8 fails as stated: a tag of another kind leaves no record, no line in
    the log and the flag down. *)
Lemma other_kind_is_not_recorded :
  let w1 := run other_kind fresh in
  eligible flac_song = false /\
  tagReads (trace w1) = [a_mp3] /\
  cached a_mp3 w1 = None /\
  logFile (disk w1) = [] /\
  _errorsOccurred (this w1) = false.
Proof. vm_compute. repeat split; reflexivity. Qed.

End Examples.

(** ** A quiet run *)

Section QuietRun.
Variable env : Env.
Import LokiFacts.

(** When idempotence does hold: with every listed path settled and no record
    dirty, a triggered run reads no tag, leaves the collection as it is and
    writes neither the index nor the status file. *)
Lemma quiet_run_changes_nothing w c :
  idle w -> FileWatcher.dirty (_fileWatcher w) = true ->
  _fileTable (this w) = Some c ->
  settled env c (FileWatcher.files (_fileWatcher w)) ->
  Loki.find_dirty c = [] ->
  tagReads (trace (run env w)) = tagReads (trace w) /\
  _fileTable (this (run env w)) = Some c /\
  indexFile (disk (run env w)) = indexFile (disk w) /\
  statusFile (disk (run env w)) = statusFile (disk w) /\
  clockReads (trace (run env w)) = clockReads (trace w).
Proof.
  intros Hidle Hd Hc Hs Hclean.
  set (P := fun w' : World =>
              _fileKeys (this w') = FileWatcher.files (_fileWatcher w) /\
              _fileTable (this w') = Some c /\
              tagReads (trace w') = tagReads (trace w) /\
              indexFile (disk w') = indexFile (disk w) /\
              statusFile (disk w') = statusFile (disk w) /\
              clockReads (trace w') = clockReads (trace w)).
  assert (P (scanned env w)) as (_ & Hc' & Hr' & Hi' & Hst' & Hcl').
  { apply (scan_from_start env P); [|apply Hidle|apply le_n|unfold P; cbn; now repeat split].
    intros w' g (Hk & Ht & Hr & Hi & Hst & Hcl) Hin Hg.
    rewrite Hk in Hin. destruct (Hs g Hin) as (doc & m & Hb & Hm & Hmt).
    pose proof (visit_visited env w' g Hg) as V.
    destruct (visited_unchanged env _ _ _ c doc m V Ht Hb Hm Hmt) as [Ht' Hr''].
    pose proof (visited_bookkeeping env _ _ _ V) as (Hk' & _ & _ & _ & _ & _ & Hi'' & Hst'' & Hcl'' & _).
    unfold P. rewrite Hk', Ht', Hr'', Hi'', Hst'', Hcl''. now repeat split. }
  rewrite run_scanned by assumption.
  unfold finishing. rewrite finish_always.
  rewrite (finish_block_nothing_dirty env (advance (scanned env w)) c) by assumption.
  cbn [fst snd settle]. unfold done.
  destruct (_onIndexingDone (this (on_disk (set_lokiFile (Some (FileData c)))
                                     (advance (scanned env w))))); cbn;
    now repeat split.
Qed.

End QuietRun.

(** ** The theorems at work *)

Section Witnesses.
Import Scenario.
Import LokiFacts.

(** C1 at work: [a_mp3] is cached with the [mtime] it has on disk, [b_mp3] is not. *)
Lemma unchanged_file_witness :
  cached a_mp3 (run steady (idling [a_record; b_stale] [a_mp3; b_mp3])) = Some a_record.
Proof.
  refine (proj1 (proj2 (proj2 (unchanged_file_is_not_read_again steady
            (idling [a_record; b_stale] [a_mp3; b_mp3]) [a_record; b_stale]
            a_mp3 a_record stamp _ _ _ _ _ _ _))) _ _); try reflexivity.
  - split; reflexivity.
  - unfold unique. cbn. repeat constructor; [intros [H|[]]; discriminate H | intros []].
  - left. reflexivity.
Defined.

(** C3 at work: one pending record, one without tag data, one without a name. *)
Lemma rebuild_witness :
  exists doc,
    indexFile (disk (fst (_finishHandlingChanges steady
        (finishing_up [a_pending; b_untagged; c_nameless] [a_mp3; b_mp3; c_mp3])))) = Some doc /\
    In (mkItem (Some "Record"%string) (Some "Band"%string) (Some "Song"%string) "/a.mp3")
       (items doc) /\
    In "/music/b.mp3 has no tag data"%string
       (logFile (disk (fst (_finishHandlingChanges steady
          (finishing_up [a_pending; b_untagged; c_nameless] [a_mp3; b_mp3; c_mp3]))))).
Proof.
  destruct (rebuild_is_a_full_snapshot steady
              (finishing_up [a_pending; b_untagged; c_nameless] [a_mp3; b_mp3; c_mp3])
              [a_pending; b_untagged; c_nameless])
    as (doc & listed & Hix & HF & Hlisted & _ & Hlog & _).
  - reflexivity.
  - vm_compute. discriminate.
  - reflexivity.
  - exists doc. split; [exact Hix|]. split.
    + assert (In a_mp3 listed) as Hin.
      { apply Hlisted. split; [now left|].
        exists a_pending, (song_data "/a.mp3"). repeat split. }
      destruct (Forall2_in_l _ _ _ _ HF Hin) as (it & Hit & r & id3 & Hb & Ht & _ & ->).
      cbn in Hb. injection Hb as <-. cbn in Ht. injection Ht as <-. exact Hit.
    + apply (Hlog b_mp3 b_untagged); [right; left; reflexivity | reflexivity | reflexivity].
Defined.

(** C4 at work: [b_mp3] has left the watcher's set and [a_mp3] has changed on disk. *)
Lemma orphan_witness :
  cached b_mp3 (run steady (idling [a_stale; b_record] [a_mp3])) = None.
Proof.
  refine (proj1 (orphan_is_reaped_when_the_run_rebuilds steady
            (idling [a_stale; b_record] [a_mp3]) [a_pending; b_record] b_mp3
            _ _ _ _ _ _ _)); try reflexivity.
  - split; reflexivity.
  - vm_compute. discriminate.
  - intros [H|[]]. discriminate H.
Defined.

(** C7 at work. *)
Lemma status_date_witness :
  exists doc st,
    indexFile (disk (fst (_finishHandlingChanges steady (finishing_up [a_pending] [a_mp3]))))
      = Some doc /\
    statusFile (disk (fst (_finishHandlingChanges steady (finishing_up [a_pending] [a_mp3]))))
      = Some st /\
    date doc = clock 0 /\ status_date st = clock 1 /\
    (date doc = status_date st <-> clock 0 = clock 1).
Proof.
  apply (status_date_is_a_later_reading steady (finishing_up [a_pending] [a_mp3]) [a_pending]);
    try reflexivity.
  vm_compute. discriminate.
Defined.

(** C8 at work: the first callback of a run over [a_mp3], which carries a FLAC tag. *)
Lemma other_kind_witness :
  _fileTable (this (_handleNextFile_callback other_kind (started fresh))) = Some [].
Proof.
  refine (proj1 (other_kind_is_passed_over other_kind (started fresh) a_mp3 [] flac_song
            _ _ _ _ _ _ _)); try reflexivity.
  left. reflexivity.
Defined.

(** C5 at work: the tag reader fails for the only file of the first run. *)
Lemma per_file_failure_witness :
  logFile (disk (_handleNextFile_callback Mishaps.unreadable
     (interval_callback (fst (start (new_Indexer (watcher [a_mp3]) (mkDisk None [] None None)))))))
  = ["/music/a.mp3 could not be read, is it properly tagged? : {}"%string].
Proof.
  refine (proj1 (proj2 (proj2 (per_file_failure_is_recorded Mishaps.unreadable
            (interval_callback
               (fst (start (new_Indexer (watcher [a_mp3]) (mkDisk None [] None None)))))
            a_mp3 Mishaps.read_error _ _ _ _ _)))).
  - eapply reachable_step; [apply reachable_start|].
    apply (step_interval (Ok tt)). reflexivity.
  - cbn. lia.
  - reflexivity.
  - exists true. reflexivity.
  - reflexivity.
Defined.

(** C9 at work: the middle of a second run, with a tick that found the guard up. *)
Lemma at_most_one_run_witness :
  _busy (this second_run) = true /\ (runs_under_way second_run <= 1)%nat.
Proof.
  assert (reachable second_run) as R.
  { unfold second_run. cbv zeta.
    eapply reachable_step; [|apply step_interval; reflexivity].
    eapply reachable_step; [|apply step_interval; reflexivity].
    eapply reachable_step; [|apply step_watcher].
    eapply reachable_step; [|apply step_immediate; vm_compute; lia].
    eapply reachable_step; [|apply step_immediate; vm_compute; lia].
    eapply reachable_step; [|apply step_interval; reflexivity].
    apply reachable_start. }
  destruct (at_most_one_run second_run R) as (H1 & H2 & _).
  split; [apply H2; reflexivity | exact H1].
Defined.

(** C10 at work: the first callback of a run when the existence check throws. *)
Lemma early_exception_witness :
  unhandled (trace (_handleNextFile_callback check_throws (started fresh))) = [TypeError].
Proof.
  refine (proj1 (proj2 (proj2 (proj2 (proj2 (proj2
            (early_exception_escapes_the_catch check_throws (started fresh) a_mp3 _ _ _ _)))))));
    try reflexivity.
  - cbn. lia.
  - left. eexists. reflexivity.
Defined.

End Witnesses.

(** * Further properties *)

(** ** One visit, path by path *)

Section VisitOutcomes.
Variable env : Env.
Import LokiFacts.

Lemma not_in_removed f (fw : FileWatcher.t) :
  ~ In f (FileWatcher.files (FileWatcher.remove f fw)).
Proof.
  cbn. intros H. apply filter_In in H as [_ H].
  apply negb_true_iff in H. now rewrite String.eqb_refl in H.
Qed.

(** X4. A path that is gone from disk is taken out of the watcher's set, and
    that is all: the cache keeps its record, the tag reader is not called,
    nothing is logged and the flag is not raised. *)
Theorem vanished_file_is_dropped_quietly w f :
  _processedCount (this w) + 1 < _toProcessCount (this w) ->
  next_file w = Some f ->
  pathExists env f = Ok false ->
  let w' := _handleNextFile_callback env w in
  _fileWatcher w' = FileWatcher.remove f (_fileWatcher w) /\
  ~ In f (FileWatcher.files (_fileWatcher w')) /\
  _fileTable (this w') = _fileTable (this w) /\
  logFile (disk w') = logFile (disk w) /\
  _errorsOccurred (this w') = _errorsOccurred (this w) /\
  tagReads (trace w') = tagReads (trace w) /\
  unhandled (trace w') = unhandled (trace w) /\
  immediates (trace w') = S (pred (immediates (trace w))).
Proof.
  intros Hpc Hf Hp w'. unfold w'. rewrite callback_visits by assumption.
  pose proof (visit_visited env w f Hf) as V.
  destruct V; try congruence.
  cbn [_fileWatcher queued on_trace on_watcher advance on_this].
  split; [reflexivity|]. split; [apply not_in_removed|]. now repeat split.
Qed.

Lemma apply_success doc stats data :
  apply_all (success_changes env stats data) doc =
  mkFileRecord (file doc) (Some true) (Some (or_empty stats)) (Some data)
    (Some (isTagValid env data)).
Proof. reflexivity. Qed.

(** The visit of a path for which the tag reader delivers an ID3 or MP4 tag. *)
Lemma visit_delivered w f c tag :
  next_file w = Some f ->
  pathExists env f = Ok true ->
  _fileTable (this w) = Some c ->
  due env f c ->
  jsmediatags_read env f = Ok tag ->
  eligible tag = true ->
  let w' := visit env w in
  let data := tagData_of env tag f (FileWatcher.watchPath (_fileWatcher w)) in
  cached f w' =
    Some (mkFileRecord f (Some true)
            (Some match Loki.by_file f c, statSync_mtime env f with
                  | Some _, Ok m => m
                  | _, _ => EmptyString
                  end)
            (Some data) (Some (isTagValid env data))) /\
  (forall g, g <> f -> cached g w' = Loki.by_file g c) /\
  logFile (disk w') = logFile (disk w) /\
  _errorsOccurred (this w') = _errorsOccurred (this w) /\
  tagReads (trace w') = tagReads (trace w) ++ [f] /\
  events (trace w') =
    events (trace w) ++
    (if _onProgress (this w)
     then [Progress (floorPercent env (_processedCount (this w) + 1) (_toProcessCount (this w)))
             (title (tags tag)) (tags_artist (tags tag))]
     else []).
Proof.
  intros Hf Hp Hc Hdue Hr He w' data. unfold w'.
  pose proof (visit_visited env w f Hf) as V.
  destruct V as [ex Hp'|Hp'|Hp' Ht|c0 doc ex Hp' Ht Hb Hs|c0 doc m Hp' Ht Hb Hs Hu
                |c0 ins doc stats ex Hp' Ht Hsub Hr'|c0 ins doc stats tag0 Hp' Ht Hsub Hr' He'
                |c0 ins doc stats tag0 Hp' Ht Hsub Hr' He']; try congruence.
  - exfalso. assert (c0 = c) by congruence. subst. eapply due_not_stat_error; eauto.
  - exfalso. assert (c0 = c) by congruence. subst. eapply due_not_unchanged; eauto.
  - assert (c0 = c) by congruence. assert (tag0 = tag) by congruence. subst.
    destruct (subject_lookup env _ _ _ _ _ Hsub) as [Hfile Hl].
    unfold cached. rewrite table_indexed.
    replace (FileWatcher.watchPath (_fileWatcher (read f (advance w))))
      with (FileWatcher.watchPath (_fileWatcher w)) by reflexivity.
    fold data.
    split; [|split].
    + rewrite <- Hfile at 1.
      rewrite by_file_upsert_same; [|apply keeps_success|now rewrite Hfile].
      now rewrite apply_success, Hfile, (subject_stats env _ _ _ _ _ Hsub).
    + intros g N. apply by_file_upsert_other; [apply keeps_success|congruence].
    + unfold indexed.
      replace (_onProgress (this (read f (advance w)))) with (_onProgress (this w))
        by reflexivity.
      destruct (_onProgress (this w)); cbn; rewrite ?app_nil_r; now repeat split.
Qed.

(** X5. When the tag reader delivers an ID3 or MP4 tag, the path's record holds
    the tag afterwards and is marked dirty; its [mtime] is the one read from
    disk when the path had a record before and the empty string when it had
    none.  No other record changes, nothing is logged, the flag stays as it
    was, and the progress hook, when registered, is called once. *)
Theorem delivered_tag_is_stored w f c tag :
  _processedCount (this w) + 1 < _toProcessCount (this w) ->
  next_file w = Some f ->
  pathExists env f = Ok true ->
  _fileTable (this w) = Some c ->
  due env f c ->
  jsmediatags_read env f = Ok tag ->
  eligible tag = true ->
  let w' := _handleNextFile_callback env w in
  let data := tagData_of env tag f (FileWatcher.watchPath (_fileWatcher w)) in
  cached f w' =
    Some (mkFileRecord f (Some true)
            (Some match Loki.by_file f c, statSync_mtime env f with
                  | Some _, Ok m => m
                  | _, _ => EmptyString
                  end)
            (Some data) (Some (isTagValid env data))) /\
  (forall g, g <> f -> cached g w' = Loki.by_file g c) /\
  logFile (disk w') = logFile (disk w) /\
  _errorsOccurred (this w') = _errorsOccurred (this w) /\
  tagReads (trace w') = tagReads (trace w) ++ [f] /\
  events (trace w') =
    events (trace w) ++
    (if _onProgress (this w)
     then [Progress (floorPercent env (_processedCount (this w) + 1) (_toProcessCount (this w)))
             (title (tags tag)) (tags_artist (tags tag))]
     else []).
Proof.
  intros Hpc Hf Hp Hc Hdue Hr He. cbn zeta. rewrite callback_visits by assumption.
  now apply visit_delivered.
Qed.

Lemma prefix_append p : forall s, String.prefix p (p ++ s)%string = true.
Proof.
  induction p as [|a p IH]; intros s; cbn.
  - now destruct s.
  - destruct (Ascii.ascii_dec a a); [apply IH | congruence].
Qed.

Lemma substring_all s : substring 0 (String.length s) s = s.
Proof. induction s as [|a s IH]; cbn; [reflexivity | now rewrite IH]. Qed.

Lemma substring_append p : forall s,
  substring (String.length p) (String.length (p ++ s) - String.length p) (p ++ s)%string = s.
Proof.
  induction p as [|a p IH]; intros s; cbn.
  - rewrite Nat.sub_0_r. apply substring_all.
  - apply IH.
Qed.

(** [s.replace(pattern, replacement)] on a string that begins with the pattern. *)
Lemma replace_prefix p r s : replace p r (p ++ s)%string = (r ++ s)%string.
Proof.
  destruct (p ++ s)%string eqn:E; cbn [replace]; rewrite <- E, prefix_append, substring_append;
    reflexivity.
Qed.

(** X6. For a file under the watched folder the relative path kept in the record
    and written to the index is a slash followed by what comes after the
    watch path. *)
Theorem clipped_path_drops_the_watch_path tag f watchPath rest :
  toUnixPath env f = (watchPath ++ rest)%string ->
  clippedPath (tagData_of env tag f watchPath) = ("/" ++ rest)%string /\
  item_path (item_of (tagData_of env tag f watchPath)) = ("/" ++ rest)%string.
Proof.
  intros H. cbn [clippedPath tagData_of item_path item_of]. rewrite H.
  now rewrite replace_prefix.
Qed.

End VisitOutcomes.

(** ** Finishing, case by case *)

Section FinishOutcomes.
Variable env : Env.
Import LokiFacts.

(** X7. When no record is dirty, finishing saves the cache and stops there: the
    index file, the status file, the clock, the log and the collection
    (orphans included) are as before, the method returns early, the guard
    comes down. *)
Theorem nothing_dirty_nothing_rebuilt w c :
  _fileTable (this w) = Some c ->
  Loki.find_dirty c = [] ->
  let w' := fst (_finishHandlingChanges env w) in
  snd (_finishHandlingChanges env w) = Return /\
  indexFile (disk w') = indexFile (disk w) /\
  statusFile (disk w') = statusFile (disk w) /\
  clockReads (trace w') = clockReads (trace w) /\
  logFile (disk w') = logFile (disk w) /\
  _fileTable (this w') = Some c /\
  lokiFile (disk w') = Some (FileData c) /\
  _busy (this w') = false.
Proof.
  intros Hc Hd. cbn zeta. rewrite finish_always.
  rewrite (finish_block_nothing_dirty env w c Hc Hd). cbn [fst snd]. unfold done.
  destruct (_onIndexingDone (this (on_disk (set_lokiFile (Some (FileData c))) w))); cbn;
    now repeat split.
Qed.

Lemma finish_block_write_fails w c ex :
  _fileTable (this w) = Some c ->
  Loki.find_dirty c <> [] ->
  outputFile_index env = Some ex ->
  finish_block env w =
  (noted (complaints env c (FileWatcher.files (_fileWatcher w)))
         (existsb (mistagged env c) (FileWatcher.files (_fileWatcher w)))
         (on_trace (set_clockReads (S (clockReads (trace w))))
            (on_disk (set_lokiFile (Some (FileData c))) w)),
   Throw ex).
Proof.
  intros Hc Hd Ho.
  unfold finish_block, saveDatabase, fileTable_deref, Date_getTime.
  cbv [bind modify gets ret return_ await throw]. cbn. rewrite Hc.
  destruct (Loki.find_dirty c) as [|d ds] eqn:E; [congruence|].
  erewrite write_items_spec by (cbn; exact Hc). now rewrite Ho.
Qed.

(** X8. When the index file cannot be written, the rebuild stops at that point:
    neither file is written, the records stay dirty and the orphans stay in
    the collection, so the next run that finishes tries again; the cache
    saved before the attempt is the collection as it is; the rejection is
    left unhandled and the guard comes down all the same. *)
Theorem failed_index_write_keeps_records_pending w c ex :
  _fileTable (this w) = Some c ->
  Loki.find_dirty c <> [] ->
  outputFile_index env = Some ex ->
  let w' := finishing env w in
  indexFile (disk w') = indexFile (disk w) /\
  statusFile (disk w') = statusFile (disk w) /\
  _fileTable (this w') = Some c /\
  lokiFile (disk w') = Some (FileData c) /\
  unhandled (trace w') = unhandled (trace w) ++ [ex] /\
  _busy (this w') = false /\
  immediates (trace w') = pred (immediates (trace w)).
Proof.
  intros Hc Hd Ho. cbn zeta. unfold finishing. rewrite finish_always.
  rewrite (finish_block_write_fails (advance w) c ex) by assumption.
  cbn [fst snd settle]. unfold done.
  match goal with |- context [if ?b then _ else _] => destruct b end; cbn; now repeat split.
Qed.

Lemma finish_block_status_fails w c ex :
  _fileTable (this w) = Some c ->
  Loki.find_dirty c <> [] ->
  outputFile_index env = None ->
  writeFileSync_status env = Some ex ->
  finish_block env w =
  (on_trace (set_clockReads (S (S (clockReads (trace w)))))
     (on_disk (set_indexFile
                 (Some (mkIndex (getTime env (clockReads (trace w)))
                          (entries env c (FileWatcher.files (_fileWatcher w))))))
        (noted (complaints env c (FileWatcher.files (_fileWatcher w)))
           (existsb (mistagged env c) (FileWatcher.files (_fileWatcher w)))
           (on_trace (set_clockReads (S (clockReads (trace w))))
              (on_disk (set_lokiFile (Some (FileData c))) w)))),
   Throw ex).
Proof.
  intros Hc Hd Ho Hs.
  unfold finish_block, saveDatabase, fileTable_deref, Date_getTime.
  cbv [bind modify gets ret return_ await throw]. cbn. rewrite Hc.
  destruct (Loki.find_dirty c) as [|d ds] eqn:E; [congruence|].
  erewrite write_items_spec by (cbn; exact Hc). rewrite Ho. cbn. now rewrite Hs.
Qed.

(** X9. When the index file is written but the status file cannot be, the new
    index is on disk beside the old status file, and the records stay dirty:
    the next run that finishes writes both again. *)
Theorem failed_status_write_leaves_the_new_index w c ex :
  _fileTable (this w) = Some c ->
  Loki.find_dirty c <> [] ->
  outputFile_index env = None ->
  writeFileSync_status env = Some ex ->
  let w' := finishing env w in
  indexFile (disk w') =
    Some (mkIndex (getTime env (clockReads (trace w)))
            (entries env c (FileWatcher.files (_fileWatcher w)))) /\
  statusFile (disk w') = statusFile (disk w) /\
  _fileTable (this w') = Some c /\
  unhandled (trace w') = unhandled (trace w) ++ [ex] /\
  _busy (this w') = false.
Proof.
  intros Hc Hd Ho Hs. cbn zeta. unfold finishing. rewrite finish_always.
  rewrite (finish_block_status_fails (advance w) c ex) by assumption.
  cbn [fst snd settle]. unfold done.
  match goal with |- context [if ?b then _ else _] => destruct b end; cbn; now repeat split.
Qed.

(** X10. A rebuild that goes through leaves no record dirty in the
    collection: every record of a path the watcher still lists is the
    record as it was with its flag cleared, and every other record is
    gone. *)
Theorem rebuild_clears_every_dirty_flag w c :
  _fileTable (this w) = Some c -> unique c ->
  Loki.find_dirty c <> [] ->
  outputFile_index env = None -> writeFileSync_status env = None ->
  let w' := fst (_finishHandlingChanges env w) in
  exists c',
    _fileTable (this w') = Some c' /\
    Loki.find_dirty c' = [] /\
    (forall p, In p (FileWatcher.files (_fileWatcher w)) ->
               Loki.by_file p c' = option_map clear (Loki.by_file p c)) /\
    (forall p, ~ In p (FileWatcher.files (_fileWatcher w)) -> Loki.by_file p c' = None).
Proof.
  intros Hc U Hd Ho Hs. cbn zeta.
  rewrite finish_always, (finish_block_rebuilds env w c) by assumption. cbn [fst].
  destruct (done_outputs (rebuilt env w c)) as (_ & _ & Ht).
  rewrite Ht. cbn [rebuilt this _fileTable].
  rewrite cleaned_clears by assumption.
  eexists. split; [reflexivity|]. split; [|split].
  - apply filter_nothing. intros x Hx. apply in_pruned in Hx as [Hx _].
    apply in_map_iff in Hx as [y [<- _]]. apply clear_not_dirty.
  - intros p Hp. rewrite by_file_pruned_listed by assumption.
    apply by_file_mapped, clear_keeps_file.
  - intros p Hp. now apply by_file_pruned_orphan.
Qed.

End FinishOutcomes.

(** ** Whole runs *)

Section RunOutcomes.
Variable env : Env.
Import LokiFacts.

Lemma firstn_snoc {A} (l : list A) : forall n x,
  nth_error l n = Some x -> firstn (S n) l = firstn n l ++ [x].
Proof.
  induction l as [|a l IH]; intros [|n] x H; try discriminate.
  - now injection H as ->.
  - cbn [firstn app]. f_equal. now apply IH.
Qed.

Lemma nth_not_before {A} (l : list A) : forall n x,
  NoDup l -> nth_error l n = Some x -> ~ In x (firstn n l).
Proof.
  induction l as [|a l IH]; intros [|n] x N H; try discriminate.
  - intros [].
  - inversion N as [|? ? Ha N']; subst. cbn in H. intros [->|Hin].
    + apply Ha. eapply nth_error_In; eassumption.
    + now apply (IH n x).
Qed.

Lemma picked_nothing {A} (l : list A) : picked [] l.
Proof. induction l; now constructor. Qed.

Lemma picked_app {A} (a b c d : list A) :
  picked a b -> picked c d -> picked (a ++ c) (b ++ d).
Proof.
  intros H. induction H; intros Hc; cbn;
    [exact Hc | apply picked_skip; auto | apply picked_take; auto].
Qed.

Lemma picked_in {A} (a b : list A) : picked a b -> incl a b.
Proof.
  intros H. induction H; intros y Hy.
  - exact Hy.
  - right. auto.
  - destruct Hy as [->|Hy]; [now left | right; auto].
Qed.

Lemma picked_nodup {A} (a b : list A) : picked a b -> NoDup b -> NoDup a.
Proof.
  intros H. induction H; intros N.
  - constructor.
  - inversion N; auto.
  - inversion N as [|? ? Hx N']; subst. constructor; [|auto].
    intros Hin. apply Hx. eapply picked_in; eassumption.
Qed.

Lemma next_file_nth w f :
  next_file w = Some f ->
  0 <= _processedCount (this w) + 1 /\
  nth_error (_fileKeys (this w)) (Z.to_nat (_processedCount (this w) + 1)) = Some f.
Proof.
  unfold next_file, fileKeys_at. open_world w. cbn.
  destruct (Z.ltb_spec (pc0 + 1) 0); [discriminate|]. intros Hnth. split; [lia | exact Hnth].
Qed.

Lemma visit_been_through w f :
  next_file w = Some f -> been_through (visit env w) = been_through w ++ [f].
Proof.
  intros Hf. destruct (next_file_nth w f Hf) as [Hpc Hnth].
  pose proof (visited_bookkeeping env _ _ _ (visit_visited env w f Hf)) as (Hk & _ & Hp & _).
  unfold been_through. rewrite Hk, Hp.
  replace (Z.to_nat (_processedCount (this w) + 1 + 1))
    with (S (Z.to_nat (_processedCount (this w) + 1))) by lia.
  now apply firstn_snoc.
Qed.

Lemma visit_not_before w f :
  NoDup (_fileKeys (this w)) -> next_file w = Some f -> ~ In f (been_through w).
Proof.
  intros N Hf. destruct (next_file_nth w f Hf) as [_ Hnth]. now apply nth_not_before.
Qed.

(** An invariant of the visits that may speak of the snapshot and of the
    paths the scan has been through holds when the scan is over. *)
Lemma scan_through (P : World -> Prop) w :
  immediates (trace w) = 0%nat ->
  P (started w) ->
  (forall w' f, P w' -> _fileKeys (this w') = FileWatcher.files (_fileWatcher w) ->
                next_file w' = Some f -> P (visit env w')) ->
  P (scanned env w) /\
  been_through (scanned env w) = FileWatcher.files (_fileWatcher w) /\
  immediates (trace (scanned env w)) = 1%nat.
Proof.
  intros Hi H0 Hstep.
  destruct (scan_from_start env
              (fun w' => P w' /\ _fileKeys (this w') = FileWatcher.files (_fileWatcher w))
              ) with (w := w) (n := length (FileWatcher.files (_fileWatcher w)))
    as ((HP & _) & (Him & Hpc & _ & _) & Hk).
  - intros w' f [HP Hk] _ Hf. split; [now apply (Hstep w' f) |].
    now destruct (visited_bookkeeping env _ _ _ (visit_visited env w' f Hf)) as (-> & _).
  - exact Hi.
  - apply le_n.
  - now split.
  - fold (scanned env w) in *. split; [exact HP|]. split; [|exact Him].
    unfold been_through. rewrite Hpc, Hk.
    replace (Z.to_nat (Z.of_nat (length (FileWatcher.files (_fileWatcher w))) - 1 + 1))
      with (length (FileWatcher.files (_fileWatcher w))) by lia.
    apply firstn_all.
Qed.

Lemma finishing_beside {B} (proj : World -> B) w :
  beside_outputs proj ->
  (forall v u, proj (on_this (set_busy v) u) = proj u) ->
  (forall e u, proj (on_trace (add_event e) u) = proj u) ->
  (forall ex u, proj (on_trace (add_unhandled ex) u) = proj u) ->
  proj (finishing env w) = proj (advance w).
Proof.
  intros Hb Hbusy Hev Hun. unfold finishing. rewrite finish_always.
  pose proof (finish_block_preserves env proj Hb (advance w)) as Hp.
  destruct (finish_block env (advance w)) as [w1 c1]. cbn [fst snd] in *.
  assert (proj (done w1) = proj (advance w)) as Hd.
  { unfold done. rewrite Hbusy. destruct (_onIndexingDone (this w1)); [rewrite Hev|]; exact Hp. }
  destruct c1; cbn [settle]; [exact Hd | exact Hd | now rewrite Hun].
Qed.

Lemma finishing_watcher w : _fileWatcher (finishing env w) = _fileWatcher w.
Proof. now rewrite finishing_beside by (repeat split). Qed.

(** X11. The tag reader is called at most once for each position of the snapshot,
    in the order of the snapshot, and for no other path: what a run adds to
    the calls is picked from the snapshot in order.  When no path occurs
    twice in the snapshot, no path is read twice in a run. *)
Theorem reads_follow_the_snapshot w :
  idle w ->
  exists new,
    tagReads (trace (run env w)) = tagReads (trace w) ++ new /\
    picked new (FileWatcher.files (_fileWatcher w)) /\
    (forall p, In p new -> In p (FileWatcher.files (_fileWatcher w))) /\
    (NoDup (FileWatcher.files (_fileWatcher w)) -> NoDup new).
Proof.
  intros Hidle.
  assert (exists new, tagReads (trace (run env w)) = tagReads (trace w) ++ new /\
                      picked new (FileWatcher.files (_fileWatcher w))) as (new & Hr & Hp).
  { destruct (FileWatcher.dirty (_fileWatcher w)) eqn:Hd.
    - rewrite run_scanned, finishing_reads by assumption.
      destruct (scan_through
                  (fun w' => exists new, tagReads (trace w') = tagReads (trace w) ++ new /\
                                         picked new (been_through w')) w)
        as ((new & Hr & Hp) & Hbt & _).
      + apply Hidle.
      + exists []. cbn. rewrite app_nil_r. split; [reflexivity | constructor].
      + intros w' f (new & Hr & Hp) _ Hf. rewrite (visit_been_through w' f Hf).
        destruct (visited_reads env _ _ _ (visit_visited env w' f Hf)) as [->| ->].
        * exists new. split; [exact Hr|].
          rewrite <- (app_nil_r new). apply picked_app; [exact Hp | apply picked_nothing].
        * exists (new ++ [f]). rewrite Hr, app_assoc. split; [reflexivity|].
          apply picked_app; [exact Hp | apply picked_take, picked_nil].
      + exists new. now rewrite <- Hbt.
    - rewrite run_not_triggered by assumption. exists []. rewrite app_nil_r.
      split; [reflexivity | apply picked_nothing]. }
  exists new. repeat split; [exact Hr | exact Hp | now apply picked_in | now apply picked_nodup].
Qed.

Lemma filter_snoc {A} (f : A -> bool) l x :
  filter f (l ++ [x]) = filter f l ++ (if f x then [x] else []).
Proof. rewrite filter_app. cbn. now destruct (f x). Qed.

Lemma existsb_snoc {A} (f : A -> bool) l x : existsb f (l ++ [x]) = existsb f l || f x.
Proof. rewrite existsb_app. cbn. now rewrite orb_false_r. Qed.

Lemma existsb_eqb_in p l : In p l -> existsb (String.eqb p) l = true.
Proof. intros H. apply existsb_exists. exists p. split; [exact H | apply String.eqb_refl]. Qed.

Lemma visited_gone w f w' :
  visited env w f w' ->
  _fileWatcher w' =
  if gone env f then FileWatcher.remove f (_fileWatcher w) else _fileWatcher w.
Proof.
  intros V. unfold gone.
  destruct V; match goal with H : pathExists env f = _ |- _ => rewrite H end;
    unfold indexed; try destruct (_onProgress (this (read f (advance w)))); reflexivity.
Qed.

(** X12. After a triggered run the watcher's set is the snapshot without the
    paths the existence check found gone; the paths it found, and those it
    threw for, stay, in their order. *)
Theorem watcher_forgets_what_is_gone w :
  idle w -> FileWatcher.dirty (_fileWatcher w) = true ->
  FileWatcher.files (_fileWatcher (run env w)) =
    filter (fun p => negb (gone env p)) (FileWatcher.files (_fileWatcher w)) /\
  FileWatcher.watchPath (_fileWatcher (run env w)) = FileWatcher.watchPath (_fileWatcher w).
Proof.
  intros Hidle Hd. rewrite run_scanned, finishing_watcher by assumption.
  destruct (scan_through
              (fun w' =>
                 FileWatcher.files (_fileWatcher w') =
                   filter (fun p => negb (gone env p && existsb (String.eqb p) (been_through w')))
                          (FileWatcher.files (_fileWatcher w)) /\
                 FileWatcher.watchPath (_fileWatcher w') = FileWatcher.watchPath (_fileWatcher w)) w)
    as ((Hfiles & Hpath) & Hbt & _).
  - apply Hidle.
  - cbn. split; [|reflexivity]. symmetry. 
    rewrite <- (filter_ext (fun _ => true)); [|intros; now rewrite andb_false_r].
    induction (FileWatcher.files (_fileWatcher w)); cbn; congruence.
  - intros w' f (Hfiles & Hpath) _ Hf. rewrite (visit_been_through w' f Hf).
    rewrite (visited_gone _ _ _ (visit_visited env w' f Hf)).
    destruct (gone env f) eqn:G.
    + cbn. split; [|exact Hpath]. rewrite Hfiles, filter_filter. apply filter_ext. intros p.
      rewrite existsb_snoc. destruct (String.eqb_spec p f) as [->|N].
      * rewrite G, orb_true_r. cbn. apply andb_false_r.
      * cbn. now rewrite orb_false_r, andb_true_r.
    + split; [|exact Hpath]. rewrite Hfiles. apply filter_ext. intros p.
      rewrite existsb_snoc. destruct (String.eqb_spec p f) as [->|N].
      * now rewrite G.
      * now rewrite orb_false_r.
  - split; [|exact Hpath]. rewrite Hfiles, Hbt. apply filter_ext_in. intros p Hp.
    now rewrite existsb_eqb_in, andb_true_r.
Qed.

End RunOutcomes.

(** ** What a run leaves behind *)

Section RunResults.
Variable env : Env.
Import LokiFacts.

Lemma visited_reads_uncached w f w' c :
  visited env w f w' -> _fileTable (this w) = Some c -> Loki.by_file f c = None ->
  tagReads (trace w') = tagReads (trace w) ++ (if present env f then [f] else []).
Proof.
  intros V Hc Hn. unfold present.
  destruct V; match goal with H : pathExists env f = _ |- _ => rewrite H end;
    unfold indexed; try destruct (_onProgress (this (read f (advance w))));
    cbn; rewrite ?app_nil_r; try reflexivity; congruence.
Qed.

(** The scan of a snapshot none of whose paths has a record. *)
Lemma uncached_scan w c :
  immediates (trace w) = 0%nat ->
  _fileTable (this w) = Some c -> unique c ->
  NoDup (FileWatcher.files (_fileWatcher w)) ->
  (forall f, In f (FileWatcher.files (_fileWatcher w)) -> Loki.by_file f c = None) ->
  tagReads (trace (scanned env w)) =
  tagReads (trace w) ++ filter (present env) (FileWatcher.files (_fileWatcher w)).
Proof.
  intros Hi Hc U N Hnone.
  destruct (scan_through env
              (fun w' => exists c',
                 _fileTable (this w') = Some c' /\ unique c' /\
                 (forall g, In g (FileWatcher.files (_fileWatcher w)) ->
                            ~ In g (been_through w') -> Loki.by_file g c' = None) /\
                 tagReads (trace w') = tagReads (trace w) ++ filter (present env) (been_through w'))
              w) as ((c' & _ & _ & _ & Hr) & Hbt & _).
  - exact Hi.
  - exists c. cbn. rewrite app_nil_r. auto.
  - intros w' f (c' & Hc' & U' & Hn' & Hr') Hk Hf.
    pose proof (visit_visited env w' f Hf) as V.
    destruct (next_file_nth w' f Hf) as [_ Hnth].
    assert (In f (FileWatcher.files (_fileWatcher w))) as Hin
        by (rewrite <- Hk; eapply nth_error_In; eassumption).
    assert (~ In f (been_through w')) as Hnew
        by (apply visit_not_before; [now rewrite Hk | exact Hf]).
    destruct (visited_table env _ _ _ c' V Hc' U') as (c'' & Hc'' & U'' & Hother).
    exists c''. rewrite (visit_been_through env w' f Hf), filter_snoc.
    rewrite (visited_reads_uncached _ _ _ c' V Hc' (Hn' f Hin Hnew)), Hr', app_assoc.
    repeat split; try assumption.
    intros g Hg Hng. rewrite Hother.
    + apply Hn'; [exact Hg|]. intros H. apply Hng, in_or_app. now left.
    + intros ->. apply Hng, in_or_app. right. now left.
  - now rewrite Hr, Hbt.
Qed.

(** X13. A run over a snapshot none of whose paths has a cached record, as the
    first run over a library is, hands every path the existence check finds
    to the tag reader, once and in the order of the snapshot, and no other
    path. *)
Theorem first_run_reads_every_file w c :
  idle w -> FileWatcher.dirty (_fileWatcher w) = true ->
  _fileTable (this w) = Some c -> unique c ->
  NoDup (FileWatcher.files (_fileWatcher w)) ->
  (forall f, In f (FileWatcher.files (_fileWatcher w)) -> Loki.by_file f c = None) ->
  tagReads (trace (run env w)) =
  tagReads (trace w) ++ filter (present env) (FileWatcher.files (_fileWatcher w)).
Proof.
  intros Hidle Hd Hc U N Hnone.
  rewrite run_scanned, finishing_reads by assumption.
  now apply (uncached_scan w c); [apply Hidle | | | |].
Qed.

Lemma wipe_loaded w c :
  _fileTable (this w) = Some c ->
  wipe w =
  (on_disk (set_lokiFile (Some (FileData [])))
     (on_this (set_fileTable (Some []))
        (on_disk (set_statusFile None) (on_disk (set_indexFile None) w))),
   Normal tt).
Proof.
  intros Hc. open_world w. cbn in Hc. subst.
  unfold wipe, saveDatabase, fileTable_deref, fileTable_set.
  cbv [bind modify gets ret throw]. reflexivity.
Qed.

(** X14. [wipe] on a started indexer removes the index file and the status file
    and empties the collection and the saved cache; the next triggered run
    then reads every file of its snapshot that is on disk again, whatever
    was cached before. *)
Theorem wipe_makes_the_next_run_read_everything w c :
  idle w -> FileWatcher.dirty (_fileWatcher w) = true ->
  _fileTable (this w) = Some c ->
  NoDup (FileWatcher.files (_fileWatcher w)) ->
  let w0 := settle (fun s => s) (wipe w) in
  indexFile (disk w0) = None /\ statusFile (disk w0) = None /\
  _fileTable (this w0) = Some [] /\ lokiFile (disk w0) = Some (FileData []) /\
  unhandled (trace w0) = unhandled (trace w) /\
  tagReads (trace (run env w0)) =
    tagReads (trace w) ++ filter (present env) (FileWatcher.files (_fileWatcher w)).
Proof.
  intros [Hb Hi] Hd Hc N. cbn zeta. rewrite (wipe_loaded w c Hc). cbn [settle].
  repeat split; try reflexivity.
  set (w0 := on_disk _ _).
  rewrite run_scanned, finishing_reads; [|split; assumption|exact Hd].
  now apply (uncached_scan w0 []); [exact Hi | | constructor | exact N |].
Qed.

(** X15. [wipe] on an indexer that was never started removes the index file and
    the status file and then throws on the missing collection: the saved
    cache is not touched. *)
Theorem wipe_before_start_throws_after_removing w :
  _fileTable (this w) = None ->
  snd (wipe w) = Throw TypeError /\
  indexFile (disk (fst (wipe w))) = None /\
  statusFile (disk (fst (wipe w))) = None /\
  lokiFile (disk (fst (wipe w))) = lokiFile (disk w) /\
  _fileTable (this (fst (wipe w))) = None.
Proof.
  intros Hc. open_world w. cbn in Hc. subst.
  unfold wipe, saveDatabase, fileTable_deref, fileTable_set.
  cbv [bind modify gets ret throw]. cbn. now repeat split.
Qed.

(** X16. [start] on a cache file that holds a collection loads exactly its
    records: it returns normally, the collection in memory is the saved
    one, [getAllFiles] returns its documents in their order, the file is
    left as it is and the interval is installed. *)
Theorem start_loads_a_saved_cache fileWatcher c log index status :
  exists w',
    start (new_Indexer fileWatcher (mkDisk (Some (FileData c)) log index status))
      = (w', Normal tt) /\
    _fileTable (this w') = Some c /\
    getAllFiles w' = (w', Normal c) /\
    disk w' = mkDisk (Some (FileData c)) log index status /\
    _fileWatcher w' = fileWatcher /\
    _interval (this w') = true /\
    _busy (this w') = false.
Proof. eexists. split; [reflexivity|]. cbn. now repeat split. Qed.

Lemma scanned_flag w :
  immediates (trace w) = 0%nat ->
  FileWatcher.dirty (_fileWatcher (scanned env w)) = false.
Proof.
  intros Hi.
  destruct (scan_through env (fun w' => FileWatcher.dirty (_fileWatcher w') = false) w)
    as (H & _); [exact Hi | reflexivity | | exact H].
  intros w' f H _ Hf.
  pose proof (visited_bookkeeping env _ _ _ (visit_visited env w' f Hf))
    as (_ & _ & _ & _ & _ & _ & _ & _ & _ & -> & _). exact H.
Qed.

(** X17. A tick on an idle indexer ends in one of two ways.  When the log is
    emptied, the run it sets off comes to its end: the queue is empty, the
    guard is down and the flag is down, so that a second tick right after
    it starts nothing and changes nothing.  When emptying the log rejects,
    the flag has been taken and the guard raised but nothing is queued: the
    rejection is left unhandled, no callback is there to lower the guard,
    and every later tick is a no-op, whatever the watcher signals. *)
Theorem tick_ends_idle_or_leaves_the_guard_up w :
  idle w ->
  (idle (run env w) /\
   FileWatcher.dirty (_fileWatcher (run env w)) = false /\
   run env (run env w) = run env w) /\
  (forall ex, FileWatcher.dirty (_fileWatcher w) = true ->
     let w' := tick (Err ex) w in
     _busy (this w') = true /\
     immediates (trace w') = 0%nat /\
     FileWatcher.dirty (_fileWatcher w') = false /\
     unhandled (trace w') = unhandled (trace w) ++ [ex] /\
     (forall n, drain env n w' = w') /\
     (forall fw emptied,
        tick emptied (on_watcher (fun _ => fw) w') = on_watcher (fun _ => fw) w')).
Proof.
  intros Hidle. split.
  - pose proof (run_completes env w Hidle) as Hidle'.
    assert (FileWatcher.dirty (_fileWatcher (run env w)) = false) as Hflag.
    { destruct (FileWatcher.dirty (_fileWatcher w)) eqn:Hd.
      - rewrite run_scanned, finishing_watcher by assumption. apply scanned_flag, Hidle.
      - now rewrite run_not_triggered. }
    split; [exact Hidle'|]. split; [exact Hflag|]. now apply run_not_triggered.
  - intros ex Hd. cbn zeta. destruct Hidle as [Hb Hi].
    rewrite tick_rejected by assumption. cbn. rewrite Hi.
    repeat split.
    + intros n. apply drain_idle. cbn. exact Hi.
    + intros fw emptied. apply tick_passes. now right.
Qed.

(** The rest of a run, from any point of its scan. *)
Lemma rest_of_the_run k w (P : World -> Prop) :
  scanning k w -> P w ->
  (forall w' f, P w' -> next_file w' = Some f -> P (visit env w')) ->
  exists w', P w' /\ immediates (trace w') = 1%nat /\
             drain env (callbacks_left w) w = finishing env w'.
Proof.
  intros Hs HP Hstep. pose proof Hs as (Hi & Hpc & Htpc & Hle).
  set (L := length (_fileKeys (this w))) in *.
  destruct (scan_invariant env P (fun w' f H _ Hf => Hstep w' f H Hf) (L - k) k w Hs)
    as (HP' & Hs' & Hk'); [fold L; lia | exact HP |].
  exists (drain env (L - k) w). split; [exact HP'|]. split; [apply Hs'|].
  replace (callbacks_left w) with ((L - k) + 1)%nat by (unfold callbacks_left; lia).
  rewrite drain_add. cbn [drain]. destruct Hs' as (Him & Hrest). rewrite Him.
  apply callback_finishes. rewrite Hk'. fold L. replace L with (k + (L - k))%nat at 1 by lia.
  now split.
Qed.

(** X18. A change the watcher signals while a run is under way outlives the
    run: the ticks that fall into the run leave the flag up, whatever
    becomes of their log, the rest of the run does not touch it, and the
    run ends idle with the flag still up.  The first tick after the run
    starts the next one when its log is emptied; when emptying the log
    rejects, that tick has taken the flag and left the guard up, and the
    change is not picked up. *)
Theorem signal_during_a_run_outlives_it w k :
  scanning k w -> _busy (this w) = true ->
  let w1 := on_watcher (FileWatcher.set_dirty true) w in
  (forall emptied, tick emptied w1 = w1) /\
  let w2 := drain env (callbacks_left w1) w1 in
  idle w2 /\
  FileWatcher.dirty (_fileWatcher w2) = true /\
  tick (Ok tt) w2 = started w2 /\
  (forall ex,
     FileWatcher.dirty (_fileWatcher (tick (Err ex) w2)) = false /\
     _busy (this (tick (Err ex) w2)) = true /\
     immediates (trace (tick (Err ex) w2)) = 0%nat).
Proof.
  intros Hs Hb. cbn zeta.
  split; [intros emptied; apply tick_passes; right; now destruct w as [[] [] [] []]|].
  destruct (rest_of_the_run k (on_watcher (FileWatcher.set_dirty true) w)
              (fun w' => FileWatcher.dirty (_fileWatcher w') = true))
    as (w' & Hflag & Him & ->).
  - now destruct w as [[] [] [] []].
  - now destruct w as [[] [] [] []].
  - intros w' f H Hf.
    pose proof (visited_bookkeeping env _ _ _ (visit_visited env w' f Hf))
      as (_ & _ & _ & _ & _ & _ & _ & _ & _ & -> & _). exact H.
  - destruct (finishing_done env w') as [Hb' Hi'].
    assert (FileWatcher.dirty (_fileWatcher (finishing env w')) = true) as Hd'
        by now rewrite finishing_watcher.
    assert (immediates (trace (finishing env w')) = 0%nat) as Hi0 by now rewrite Hi', Him.
    split; [now split|]. split; [exact Hd'|]. split; [now apply tick_starts|].
    intros ex. rewrite tick_rejected by assumption. cbn. now repeat split.
Qed.

End RunResults.

(** ** What a run reports *)

Section RunReports.
Variable env : Env.
Import LokiFacts.

Lemma visited_events w f w' :
  visited env w f w' ->
  (exists ps, events (trace w') = events (trace w) ++ ps /\ Forall is_progress ps /\
              (_onProgress (this w) = false -> ps = [])) /\
  _onIndexingDone (this w') = _onIndexingDone (this w) /\
  _onProgress (this w') = _onProgress (this w).
Proof.
  intros V.
  destruct V; unfold indexed;
    try destruct (_onProgress (this (read f (advance w)))) eqn:Hook;
    (split; [|split; reflexivity]);
    try (exists []; cbn; rewrite app_nil_r; now repeat split).
  eexists [_]. cbn. repeat split; [now repeat constructor|].
  intros Hoff. destruct w as [[] ? ? ?]. cbn in *. congruence.
Qed.

Lemma finishing_events w :
  events (trace (finishing env w)) =
  events (trace w) ++ fired (_onIndexingDone (this w)) IndexingDone.
Proof.
  unfold finishing. rewrite finish_always.
  pose proof (finish_block_preserves env
                (fun w => (events (trace w), _onIndexingDone (this w)))
                ltac:(repeat split) (advance w)) as Hp.
  destruct (finish_block env (advance w)) as [w1 c1]. cbn [fst snd] in *.
  injection Hp as He Hh.
  replace (events (trace (advance w))) with (events (trace w)) in He
    by now destruct w as [? ? ? []].
  replace (_onIndexingDone (this (advance w))) with (_onIndexingDone (this w)) in Hh
    by now destruct w as [[] ? ? ?].
  unfold done, fired. rewrite Hh.
  destruct (_onIndexingDone (this w)), c1; cbn; rewrite He, ?app_nil_r; reflexivity.
Qed.

(** X19. The events of a tick that finds the signal set on an idle indexer.
    When the log is emptied: [onIndexingStart]'s callback once at the start
    when one is registered, then nothing but progress reports (none without
    a progress callback), then [onIndexingDone]'s callback once at the end
    when one is registered, whatever happened to the files and to the
    writes of the index and of the status file in between.  When emptying
    the log rejects: [onIndexingStart]'s callback only; [onIndexingDone]'s
    is not called. *)
Theorem run_is_bracketed_by_its_events w :
  idle w -> FileWatcher.dirty (_fileWatcher w) = true ->
  (exists ps,
     events (trace (run env w)) =
       events (trace w) ++ fired (_onIndexingStart (this w)) IndexingStart
         ++ ps ++ fired (_onIndexingDone (this w)) IndexingDone /\
     Forall is_progress ps /\
     (_onProgress (this w) = false -> ps = [])) /\
  (forall ex,
     events (trace (tick (Err ex) w)) =
       events (trace w) ++ fired (_onIndexingStart (this w)) IndexingStart).
Proof.
  intros Hidle Hd.
  split; [|intros ex; now rewrite tick_rejected by (assumption || apply Hidle)].
  rewrite run_scanned, finishing_events by assumption.
  destruct (scan_through env
              (fun w' => (exists ps,
                 events (trace w') =
                   events (trace w) ++ fired (_onIndexingStart (this w)) IndexingStart ++ ps /\
                 Forall is_progress ps /\ (_onProgress (this w) = false -> ps = [])) /\
                 _onIndexingDone (this w') = _onIndexingDone (this w) /\
                 _onProgress (this w') = _onProgress (this w)) w)
    as (((ps & He & Hps & Hoff) & Hdone & _) & _).
  - apply Hidle.
  - split; [|split; reflexivity]. exists []. cbn. rewrite app_nil_r. now repeat split.
  - intros w' f ((ps & He & Hps & Hoff) & Hdone & Hprog) _ Hf.
    destruct (visited_events _ _ _ (visit_visited env w' f Hf))
      as ((qs & He' & Hqs & Hoff') & Hdone' & Hprog').
    split; [|split; congruence].
    exists (ps ++ qs). rewrite He', He, <- !app_assoc. split; [reflexivity|].
    split; [now apply Forall_app|].
    intros H. rewrite Hoff, Hoff' by congruence. reflexivity.
  - exists ps. rewrite He, Hdone, <- !app_assoc. now repeat split.
Qed.

End RunReports.

(** ** A library of well-tagged files *)

Section WellTagged.
Variable env : Env.
Import LokiFacts.

Lemma flat_map_some {A B} (g : A -> option B) (h : A -> B) l :
  (forall p, In p l -> g p = Some (h p)) -> flat_map (fun p => olist (g p)) l = map h l.
Proof.
  induction l as [|a l IH]; intros H; [reflexivity|]. cbn.
  rewrite (H a (or_introl eq_refl)), IH; [reflexivity | intros; apply H; now right].
Qed.

Lemma flat_map_none {A B} (g : A -> option B) l :
  (forall p, In p l -> g p = None) -> flat_map (fun p => olist (g p)) l = [].
Proof.
  induction l as [|a l IH]; intros H; [reflexivity|]. cbn.
  rewrite (H a (or_introl eq_refl)), IH; [reflexivity | intros; apply H; now right].
Qed.

Lemma existsb_none {A} (g : A -> bool) l :
  (forall p, In p l -> g p = false) -> existsb g l = false.
Proof.
  induction l as [|a l IH]; intros H; [reflexivity|]. cbn.
  rewrite (H a (or_introl eq_refl)), IH; [reflexivity | intros; apply H; now right].
Qed.

Lemma well_tagged_scan w c tag_of :
  immediates (trace w) = 0%nat ->
  _fileTable (this w) = Some c -> unique c ->
  NoDup (FileWatcher.files (_fileWatcher w)) ->
  (forall f, In f (FileWatcher.files (_fileWatcher w)) ->
     Loki.by_file f c = None /\ pathExists env f = Ok true /\
     jsmediatags_read env f = Ok (tag_of f) /\ eligible (tag_of f) = true /\
     isTagValid env (tagData_of env (tag_of f) f (FileWatcher.watchPath (_fileWatcher w))) = true) ->
  exists c',
    _fileTable (this (scanned env w)) = Some c' /\ unique c' /\
    (forall g, In g (FileWatcher.files (_fileWatcher w)) ->
       Loki.by_file g c' =
       Some (first_record env tag_of (FileWatcher.watchPath (_fileWatcher w)) g)) /\
    logFile (disk (scanned env w)) = [] /\
    _errorsOccurred (this (scanned env w)) = false /\
    clockReads (trace (scanned env w)) = clockReads (trace w) /\
    FileWatcher.files (_fileWatcher (scanned env w)) = FileWatcher.files (_fileWatcher w).
Proof.
  intros Hi Hc U N Hall.
  set (files := FileWatcher.files (_fileWatcher w)) in *.
  set (wp := FileWatcher.watchPath (_fileWatcher w)) in *.
  destruct (scan_through env
              (fun w' => exists c',
                 _fileTable (this w') = Some c' /\ unique c' /\
                 (forall g, In g files -> ~ In g (been_through w') -> Loki.by_file g c' = None) /\
                 (forall g, In g (been_through w') ->
                    Loki.by_file g c' = Some (first_record env tag_of wp g)) /\
                 logFile (disk w') = [] /\ _errorsOccurred (this w') = false /\
                 clockReads (trace w') = clockReads (trace w) /\
                 FileWatcher.files (_fileWatcher w') = files /\
                 FileWatcher.watchPath (_fileWatcher w') = wp) w)
    as ((c' & Hc' & U' & _ & Hin' & Hlog & Herr & Hclock & Hfiles & _) & Hbt & _).
  - exact Hi.
  - exists c. cbn. repeat split; try assumption; try reflexivity.
    + intros g Hg _. now apply Hall.
    + intros g [].
  - intros w' f (c' & Hc' & U' & Hn' & Hin' & Hlog & Herr & Hclock & Hfiles & Hwp) Hk Hf.
    pose proof (visit_visited env w' f Hf) as V.
    destruct (next_file_nth w' f Hf) as [_ Hnth].
    assert (In f files) as Hin by (unfold files; rewrite <- Hk; eapply nth_error_In; eassumption).
    assert (~ In f (been_through w')) as Hnew
        by (apply visit_not_before; [now rewrite Hk | exact Hf]).
    destruct (Hall f Hin) as (_ & Hp & Hr & He & Hv).
    pose proof (Hn' f Hin Hnew) as Hnone.
    destruct (visit_delivered env w' f c' (tag_of f) Hf Hp Hc' (or_introl Hnone) Hr He)
      as (Hcf & Hother & Hlog' & Herr' & _).
    destruct (visited_table env _ _ _ c' V Hc' U') as (c'' & Hc'' & U'' & _).
    pose proof (visited_bookkeeping env _ _ _ V) as (_ & _ & _ & _ & _ & _ & _ & _ & Hcl' & _).
    pose proof (visited_gone env _ _ _ V) as Hw'.
    unfold gone in Hw'. rewrite Hp in Hw'.
    unfold cached in Hcf, Hother. rewrite Hc'' in Hcf, Hother.
    rewrite Hnone, Hwp, Hv in Hcf.
    exists c''. rewrite (visit_been_through env w' f Hf), Hlog', Herr', Hcl', Hw'.
    repeat split; try assumption.
    + intros g Hg Hng. rewrite Hother.
      * apply Hn'; [exact Hg|]. intros H. apply Hng, in_or_app. now left.
      * intros ->. apply Hng, in_or_app. right. now left.
    + intros g Hg. apply in_app_or in Hg as [Hg|[<-|[]]].
      * rewrite Hother; [now apply Hin'|]. intros ->. contradiction.
      * exact Hcf.
  - exists c'. repeat split; try assumption. intros g Hg. apply Hin'. now rewrite Hbt.
Qed.

(** X21. The first run over a library of well-tagged files: when every file of
    the snapshot is on disk, has no cached record and carries an ID3 or MP4
    tag that is valid, and both writes go through, the index file holds one
    item for each file of the snapshot, in the order of the snapshot, built
    from the file's own tag; the status file is written; the log is empty
    and the flag is down; and every file has its record, no longer dirty.
    The record's [mtime] is the empty string, not the file's. *)
Theorem well_tagged_library_is_indexed w c tag_of :
  idle w -> FileWatcher.dirty (_fileWatcher w) = true ->
  _fileTable (this w) = Some c -> unique c ->
  NoDup (FileWatcher.files (_fileWatcher w)) ->
  FileWatcher.files (_fileWatcher w) <> [] ->
  (forall f, In f (FileWatcher.files (_fileWatcher w)) ->
     Loki.by_file f c = None /\ pathExists env f = Ok true /\
     jsmediatags_read env f = Ok (tag_of f) /\ eligible (tag_of f) = true /\
     isTagValid env (tagData_of env (tag_of f) f (FileWatcher.watchPath (_fileWatcher w))) = true) ->
  outputFile_index env = None -> writeFileSync_status env = None ->
  let watchPath := FileWatcher.watchPath (_fileWatcher w) in
  let n := clockReads (trace w) in
  indexFile (disk (run env w)) =
    Some (mkIndex (getTime env n)
            (map (fun f => item_of (tagData_of env (tag_of f) f watchPath))
                 (FileWatcher.files (_fileWatcher w)))) /\
  statusFile (disk (run env w)) = Some (mkStatus (getTime env (S n))) /\
  logFile (disk (run env w)) = [] /\
  _errorsOccurred (this (run env w)) = false /\
  (forall f, In f (FileWatcher.files (_fileWatcher w)) ->
     cached f (run env w) =
     Some (mkFileRecord f (Some false) (Some EmptyString)
             (Some (tagData_of env (tag_of f) f watchPath)) (Some true))).
Proof.
  intros Hidle Hd Hc U N Hne Hall Ho Hs. cbn zeta.
  destruct (well_tagged_scan w c tag_of (proj2 Hidle) Hc U N Hall)
    as (c' & Hc' & U' & Hrec & Hlog & Herr & Hclock & Hfiles).
  set (files := FileWatcher.files (_fileWatcher w)) in *.
  set (wp := FileWatcher.watchPath (_fileWatcher w)) in *.
  assert (Loki.find_dirty c' <> []) as Hdirty.
  { destruct files as [|g rest] eqn:E; [congruence|].
    assert (In (first_record env tag_of wp g) c') as Hin
        by (apply (by_file_some g), Hrec; now left).
    intros E'. assert (In (first_record env tag_of wp g) (Loki.find_dirty c')) as Hin'
        by (apply filter_In; split; [exact Hin | reflexivity]).
    now rewrite E' in Hin'. }
  assert (forall p, In p files -> entry env c' p =
                                  Some (item_of (tagData_of env (tag_of p) p wp))) as Hentry.
  { intros p Hp. unfold entry. rewrite (Hrec p Hp). cbn.
    now destruct (Hall p Hp) as (_ & _ & _ & _ & ->). }
  assert (forall p, In p files -> complaint env c' p = None) as Hcomplaint.
  { intros p Hp. unfold complaint. rewrite (Hrec p Hp). cbn.
    now destruct (Hall p Hp) as (_ & _ & _ & _ & ->). }
  assert (forall p, In p files -> mistagged env c' p = false) as Hmis.
  { intros p Hp. unfold mistagged. rewrite (Hrec p Hp). cbn.
    now destruct (Hall p Hp) as (_ & _ & _ & _ & ->). }
  rewrite run_scanned, (finishing_rebuilt env _ c') by assumption.
  destruct (done_outputs (rebuilt env (advance (scanned env w)) c')) as (-> & -> & Ht).
  unfold cached. rewrite Ht.
  cbn [rebuilt disk this indexFile statusFile logFile _errorsOccurred _fileTable].
  replace (FileWatcher.files (_fileWatcher (advance (scanned env w))))
    with files by (symmetry; exact Hfiles).
  replace (clockReads (trace (advance (scanned env w))))
    with (clockReads (trace w)) by (symmetry; exact Hclock).
  replace (logFile (disk (advance (scanned env w)))) with (@nil string)
    by (symmetry; exact Hlog).
  replace (_errorsOccurred (this (advance (scanned env w)))) with false
    by (symmetry; exact Herr).
  unfold entries, complaints.
  rewrite (flat_map_some _ _ _ Hentry), (flat_map_none _ _ Hcomplaint), (existsb_none _ _ Hmis).
  repeat split.
  intros f Hf. rewrite by_file_pruned_listed by exact Hf.
  rewrite cleaned_clears by exact U'.
  rewrite by_file_mapped by apply clear_keeps_file.
  now rewrite (Hrec f Hf).
Qed.

End WellTagged.

(** ** Files that already have a record *)

Section Settling.
Variable env : Env.
Import LokiFacts.

Lemma visited_settles w f w' c :
  visited env w f w' -> _fileTable (this w) = Some c -> settles env c f ->
  exists doc' m, cached f w' = Some doc' /\ statSync_mtime env f = Ok m /\ mtime doc' = Some m.
Proof.
  intros V Hc (Hp & doc0 & m0 & Hb0 & Hs0 & Hok).
  destruct V as [ex Hp'|Hp'|Hp' Ht|c0 doc ex Hp' Ht Hb Hs|c0 doc m Hp' Ht Hb Hs Hu
                |c0 ins doc stats ex Hp' Ht Hsub Hr|c0 ins doc stats tag Hp' Ht Hsub Hr He
                |c0 ins doc stats tag Hp' Ht Hsub Hr He]; try congruence.
  - assert (c0 = c) by congruence. subst c0.
    exists doc, m. unfold cached. cbn. rewrite Hc, Hb. repeat split; [exact Hs|].
    now apply unchanged_since_true.
  - assert (c0 = c) by congruence. subst c0.
    destruct (subject_lookup env _ _ _ _ _ Hsub) as [Hfile Hl].
    destruct Hsub as [d m Hb Hs Hu|Hb]; [|congruence].
    exists (apply_all (failure_changes (Some m)) d), m.
    split; [now apply cached_failed | split; [exact Hs | reflexivity]].
  - assert (c0 = c) by congruence. subst c0. exfalso.
    destruct Hsub as [d m Hb Hs Hu|Hb]; [|congruence].
    destruct Hok as [Hm|Hall].
    + assert (d = doc0) by congruence. assert (m = m0) by congruence. subst.
      apply unchanged_since_true in Hm. congruence.
    + rewrite (Hall tag Hr) in He. discriminate.
  - assert (c0 = c) by congruence. subst c0.
    destruct (subject_lookup env _ _ _ _ _ Hsub) as [Hfile Hl].
    destruct Hsub as [d m Hb Hs Hu|Hb]; [|congruence].
    eexists. exists m. unfold cached. rewrite table_indexed. rewrite <- Hfile at 1.
    rewrite by_file_upsert_same; [|apply keeps_success|now rewrite Hfile].
    split; [reflexivity | split; [exact Hs | reflexivity]].
Qed.

Lemma settling_scan w c :
  immediates (trace w) = 0%nat ->
  _fileTable (this w) = Some c -> unique c ->
  (forall f, In f (FileWatcher.files (_fileWatcher w)) -> settles env c f) ->
  exists c1,
    _fileTable (this (scanned env w)) = Some c1 /\ unique c1 /\
    settled env c1 (FileWatcher.files (_fileWatcher w)) /\
    FileWatcher.files (_fileWatcher (scanned env w)) = FileWatcher.files (_fileWatcher w).
Proof.
  intros Hi Hc U Hall.
  set (files := FileWatcher.files (_fileWatcher w)) in *.
  destruct (scan_through env
              (fun w' => exists c',
                 _fileTable (this w') = Some c' /\ unique c' /\
                 (forall g, In g files -> settles env c' g) /\
                 (forall g, In g (been_through w') ->
                    exists doc m, Loki.by_file g c' = Some doc /\
                                  statSync_mtime env g = Ok m /\ mtime doc = Some m) /\
                 FileWatcher.files (_fileWatcher w') = files) w)
    as ((c1 & Hc1 & U1 & _ & Hdone & Hfiles) & Hbt & _).
  - exact Hi.
  - exists c. split; [exact Hc|]. split; [exact U|]. split; [exact Hall|].
    split; [intros g []|reflexivity].
  - intros w' f (c' & Hc' & U' & Hall' & Hdone & Hfiles) Hk Hf.
    pose proof (visit_visited env w' f Hf) as V.
    destruct (next_file_nth w' f Hf) as [_ Hnth].
    assert (In f files) as Hin by (unfold files; rewrite <- Hk; eapply nth_error_In; eassumption).
    destruct (visited_settles _ _ _ c' V Hc' (Hall' f Hin)) as (doc' & m & Hcf & Hs & Hm).
    destruct (visited_table env _ _ _ c' V Hc' U') as (c'' & Hc'' & U'' & Hother).
    pose proof (visited_gone env _ _ _ V) as Hw'.
    unfold gone in Hw'. rewrite (proj1 (Hall' f Hin)) in Hw'.
    unfold cached in Hcf. rewrite Hc'' in Hcf.
    exists c''. rewrite (visit_been_through env w' f Hf), Hw'.
    split; [exact Hc''|]. split; [exact U''|]. split; [|split; [|exact Hfiles]].
    + intros g Hg. split; [apply (proj1 (Hall' g Hg))|].
      destruct (string_dec g f) as [->|Ngf].
      * exists doc', m. auto.
      * destruct (Hall' g Hg) as (_ & d & mg & Hb & Hsg & Hok).
        exists d, mg. rewrite Hother by exact Ngf. auto.
    + intros g Hg. destruct (string_dec g f) as [->|Ngf].
      * exists doc', m. auto.
      * rewrite Hother by exact Ngf. apply Hdone.
        apply in_app_or in Hg as [Hg|[<-|[]]]; [exact Hg | congruence].
  - exists c1. split; [exact Hc1|]. split; [exact U1|]. split; [|exact Hfiles].
    intros f Hf. apply Hdone. now rewrite Hbt.
Qed.

Lemma clear_mtime x : mtime (clear x) = mtime x.
Proof. unfold clear. now destruct (Loki.is_dirty x). Qed.

Lemma finishing_settles w c1 :
  _fileTable (this w) = Some c1 -> unique c1 ->
  settled env c1 (FileWatcher.files (_fileWatcher w)) ->
  outputFile_index env = None -> writeFileSync_status env = None ->
  exists c2,
    _fileTable (this (finishing env w)) = Some c2 /\
    Loki.find_dirty c2 = [] /\
    settled env c2 (FileWatcher.files (_fileWatcher w)).
Proof.
  intros Hc U Hset Ho Hs.
  destruct (Loki.find_dirty c1) as [|d ds] eqn:Hd.
  - exists c1. split; [|split; assumption].
    unfold finishing. rewrite finish_always.
    rewrite (finish_block_nothing_dirty env (advance w) c1) by assumption.
    cbn [fst snd settle].
    destruct (done_outputs (on_disk (set_lokiFile (Some (FileData c1))) (advance w)))
      as (_ & _ & ->). exact Hc.
  - assert (Loki.find_dirty c1 <> []) as Hne by (rewrite Hd; discriminate).
    rewrite (finishing_rebuilt env w c1) by assumption.
    rewrite done_rebuilt_table, cleaned_clears by assumption.
    eexists. split; [reflexivity|]. split.
    + apply filter_nothing. intros x Hx. apply in_pruned in Hx as [Hx _].
      apply in_map_iff in Hx as [y [<- _]]. apply clear_not_dirty.
    + intros f Hf. destruct (Hset f Hf) as (doc & m & Hb & Hm & Hmt).
      exists (clear doc), m. rewrite by_file_pruned_listed by exact Hf.
      rewrite by_file_mapped by apply clear_keeps_file.
      rewrite Hb, clear_mtime. now repeat split.
Qed.

(** X22. When every file of the snapshot is on disk and already has a record,
    one run settles the cache: afterwards no record is dirty and every
    file's record carries the [mtime] the file has on disk, so that the
    next triggered run, with nothing changed on disk, reads no tag and
    writes neither the index nor the status file.  (A file seen for the
    first time is not settled by its first run.) *)
Theorem cached_files_settle_after_one_run w c :
  idle w -> FileWatcher.dirty (_fileWatcher w) = true ->
  _fileTable (this w) = Some c -> unique c ->
  (forall f, In f (FileWatcher.files (_fileWatcher w)) -> settles env c f) ->
  outputFile_index env = None -> writeFileSync_status env = None ->
  let w1 := run env w in
  let w2 := run env (on_watcher (FileWatcher.set_dirty true) w1) in
  (exists c1, _fileTable (this w1) = Some c1 /\ Loki.find_dirty c1 = [] /\
              settled env c1 (FileWatcher.files (_fileWatcher w))) /\
  FileWatcher.files (_fileWatcher w1) = FileWatcher.files (_fileWatcher w) /\
  tagReads (trace w2) = tagReads (trace w1) /\
  _fileTable (this w2) = _fileTable (this w1) /\
  indexFile (disk w2) = indexFile (disk w1) /\
  statusFile (disk w2) = statusFile (disk w1).
Proof.
  intros Hidle Hd Hc U Hall Ho Hs. cbn zeta.
  pose proof (run_completes env w Hidle) as Hidle1.
  destruct (settling_scan w c (proj2 Hidle) Hc U Hall) as (c1 & Hc1 & U1 & Hset1 & Hfiles1).
  assert (FileWatcher.files (_fileWatcher (run env w)) = FileWatcher.files (_fileWatcher w))
    as Hfiles by (now rewrite run_scanned, finishing_watcher by assumption).
  assert (exists c2, _fileTable (this (run env w)) = Some c2 /\ Loki.find_dirty c2 = [] /\
                     settled env c2 (FileWatcher.files (_fileWatcher w)))
    as (c2 & Hc2 & Hclean & Hset2).
  { rewrite run_scanned by assumption. rewrite <- Hfiles1 in Hset1 |- *.
    now apply (finishing_settles (scanned env w) c1). }
  split; [now exists c2|]. split; [exact Hfiles|].
  destruct (quiet_run_changes_nothing env
              (on_watcher (FileWatcher.set_dirty true) (run env w)) c2)
    as (Hr & Ht & Hi & Hst & _); try assumption; try reflexivity.
  - cbn. now rewrite Hfiles.
  - rewrite Ht, Hr, Hi, Hst. repeat split; try reflexivity. symmetry. exact Hc2.
Qed.

End Settling.

(** ** The further properties at work *)

Section FurtherWitnesses.
Import Scenario.
Import Mishaps.
Import LokiFacts.

(** A vanished file at work: [a_mp3] is cached but gone from disk. *)
Lemma vanished_file_witness :
  _fileWatcher (_handleNextFile_callback all_gone (started (idling [a_record] [a_mp3]))) =
  FileWatcher.remove a_mp3 (_fileWatcher (started (idling [a_record] [a_mp3]))).
Proof.
  refine (proj1 (vanished_file_is_dropped_quietly all_gone
            (started (idling [a_record] [a_mp3])) a_mp3 _ _ _)); try reflexivity.
Defined.

(** A delivered tag at work: the first callback of the first run over [a_mp3]. *)
Lemma delivered_tag_witness :
  cached a_mp3 (_handleNextFile_callback steady (started fresh)) =
  Some (mkFileRecord a_mp3 (Some true) (Some EmptyString) (Some (song_data "/a.mp3"))
          (Some true)).
Proof.
  refine (proj1 (delivered_tag_is_stored steady (started fresh) a_mp3 [] song _ _ _ _ _ _ _));
    try reflexivity.
  left. reflexivity.
Defined.

(** A rejected read at work: the reader fails for [a_mp3]. *)
Lemma read_failure_witness :
  logFile (disk (_handleNextFile_callback unreadable (started fresh))) =
  ["/music/a.mp3 could not be read, is it properly tagged? : {}"%string].
Proof.
  refine (proj1 (proj2 (read_failure_is_recorded unreadable (started fresh) a_mp3 [] read_error
            _ _ _ _ _ _))); try reflexivity.
  left. reflexivity.
Defined.

(** A failing [statSync] at work: [a_mp3] is cached and cannot be stat'ed. *)
Lemma stat_failure_witness :
  cached a_mp3 (_handleNextFile_callback stat_throws (started (idling [a_record] [a_mp3]))) =
  Some (mkFileRecord a_mp3 (Some false) (Some EmptyString) None (Some true)).
Proof.
  refine (proj1 (stat_failure_is_recorded stat_throws (started (idling [a_record] [a_mp3]))
            a_mp3 [a_record] a_record (mkExn None "{}") _ _ _ _ _ _)); reflexivity.
Defined.

(** The relative path at work. *)
Lemma clipped_path_witness :
  clippedPath (tagData_of steady song a_mp3 "/music/") = "/a.mp3"%string.
Proof.
  refine (proj1 (clipped_path_drops_the_watch_path steady song a_mp3 "/music/" "a.mp3" _)).
  reflexivity.
Defined.

(** Finishing with nothing dirty at work. *)
Lemma nothing_dirty_witness :
  snd (_finishHandlingChanges steady (finishing_up [a_record] [a_mp3])) = Return.
Proof.
  refine (proj1 (nothing_dirty_nothing_rebuilt steady (finishing_up [a_record] [a_mp3])
            [a_record] _ _)); reflexivity.
Defined.

(** A full disk at work: the pending record stays pending. *)
Lemma failed_index_write_witness :
  _fileTable (this (finishing disk_full (finishing_up [a_pending] [a_mp3]))) = Some [a_pending].
Proof.
  refine (proj1 (proj2 (proj2 (failed_index_write_keeps_records_pending disk_full
            (finishing_up [a_pending] [a_mp3]) [a_pending] (mkExn None "{}") _ _ _))));
    try reflexivity.
  discriminate.
Defined.

(** A locked status file at work: the old status file stays beside the new index. *)
Lemma failed_status_write_witness :
  statusFile (disk (finishing status_locked (finishing_up [a_pending] [a_mp3]))) = None.
Proof.
  refine (proj1 (proj2 (failed_status_write_leaves_the_new_index status_locked
            (finishing_up [a_pending] [a_mp3]) [a_pending] (mkExn None "{}") _ _ _ _)));
    try reflexivity.
  discriminate.
Defined.

(** A rebuild at work: one pending record, one clean one. *)
Lemma rebuild_clears_witness :
  exists c',
    _fileTable (this (fst (_finishHandlingChanges steady
                             (finishing_up [a_pending; b_record] [a_mp3; b_mp3])))) = Some c' /\
    Loki.find_dirty c' = [].
Proof.
  destruct (rebuild_clears_every_dirty_flag steady
              (finishing_up [a_pending; b_record] [a_mp3; b_mp3]) [a_pending; b_record])
    as (c' & Ht & Hd & _).
  - reflexivity.
  - unfold unique. cbn. repeat constructor; [intros [H|[]]; discriminate H | intros []].
  - discriminate.
  - reflexivity.
  - reflexivity.
  - exists c'. split; assumption.
Defined.

(** The order of the reads at work: a first run over two files. *)
Lemma reads_follow_witness :
  exists new,
    tagReads (trace (run steady (idling [] [a_mp3; b_mp3]))) =
      tagReads (trace (idling [] [a_mp3; b_mp3])) ++ new /\
    picked new [a_mp3; b_mp3].
Proof.
  destruct (reads_follow_the_snapshot steady (idling [] [a_mp3; b_mp3]))
    as (new & Hr & Hp & _).
  - split; reflexivity.
  - exists new. split; assumption.
Defined.

(** The watcher's set at work: both files are gone. *)
Lemma watcher_forgets_witness :
  FileWatcher.files (_fileWatcher (run all_gone (idling [a_record] [a_mp3; b_mp3]))) = [].
Proof.
  refine (proj1 (watcher_forgets_what_is_gone all_gone (idling [a_record] [a_mp3; b_mp3]) _ _));
    [split; reflexivity | reflexivity].
Defined.

(** A first run at work. *)
Lemma first_run_witness :
  tagReads (trace (run steady (idling [] [a_mp3; b_mp3]))) = [a_mp3; b_mp3].
Proof.
  refine (first_run_reads_every_file steady (idling [] [a_mp3; b_mp3]) [] _ _ _ _ _ _);
    try reflexivity.
  - split; reflexivity.
  - constructor.
  - repeat constructor; [intros [H|[]]; discriminate H | intros []].
Defined.

(** [wipe] at work: [a_mp3] is cached and unchanged, and is read again all the same. *)
Lemma wipe_witness :
  tagReads (trace (run steady (settle (fun s => s) (wipe (idling [a_record] [a_mp3]))))) =
  [a_mp3].
Proof.
  refine (proj2 (proj2 (proj2 (proj2 (proj2
            (wipe_makes_the_next_run_read_everything steady (idling [a_record] [a_mp3])
               [a_record] _ _ _ _)))))); try reflexivity.
  - split; reflexivity.
  - repeat constructor. intros [].
Defined.

(** [wipe] before [start] at work. *)
Lemma wipe_before_start_witness :
  snd (wipe (new_Indexer (watcher [a_mp3]) (mkDisk None [] None (Some (mkStatus (clock 0))))))
  = Throw TypeError.
Proof.
  refine (proj1 (wipe_before_start_throws_after_removing
            (new_Indexer (watcher [a_mp3]) (mkDisk None [] None (Some (mkStatus (clock 0))))) _)).
  reflexivity.
Defined.

(** The two ends of a tick at work: the log is emptied, or not. *)
Lemma tick_ends_witness :
  run steady (run steady fresh) = run steady fresh /\
  _busy (this (tick (Err (mkExn None "{}")) fresh)) = true.
Proof.
  split.
  - refine (proj2 (proj2 (proj1 (tick_ends_idle_or_leaves_the_guard_up steady fresh _)))).
    split; reflexivity.
  - refine (proj1 (proj2 (tick_ends_idle_or_leaves_the_guard_up steady fresh _)
                     (mkExn None "{}") _)); [split|]; reflexivity.
Defined.

(** A signal during a run at work: the watcher fires right after the tick. *)
Lemma signal_during_a_run_witness :
  FileWatcher.dirty
    (_fileWatcher (drain steady (callbacks_left (retrigger (started fresh)))
                     (retrigger (started fresh)))) = true.
Proof.
  refine (proj1 (proj2 (proj2 (signal_during_a_run_outlives_it steady (started fresh) 0 _ _))));
    [apply started_scanning|]; reflexivity.
Defined.

(** The events at work: all three callbacks are registered. *)
Lemma run_events_witness :
  exists ps,
    events (trace (run steady fresh)) = [IndexingStart] ++ ps ++ [IndexingDone] /\
    Forall is_progress ps.
Proof.
  destruct (proj1 (run_is_bracketed_by_its_events steady fresh (conj eq_refl eq_refl) eq_refl))
    as (ps & He & Hps & _).
  exists ps. split; [exact He | exact Hps].
Defined.

(** A well-tagged library at work. *)
Lemma well_tagged_witness :
  indexFile (disk (run steady fresh)) =
  Some (mkIndex (clock 0) [mkItem (Some "Record"%string) (Some "Band"%string) (Some "Song"%string) "/a.mp3"]).
Proof.
  refine (proj1 (well_tagged_library_is_indexed steady fresh [] (fun _ => song)
            _ _ _ _ _ _ _ _ _)); try reflexivity.
  - split; reflexivity.
  - constructor.
  - repeat constructor. intros [].
  - discriminate.
  - intros f [<-|[]]. repeat split; reflexivity.
Defined.

(** Settling at work: [a_mp3] has a stale record. *)
Lemma settle_witness :
  tagReads (trace (run steady (retrigger (run steady (idling [a_stale] [a_mp3]))))) =
  tagReads (trace (run steady (idling [a_stale] [a_mp3]))).
Proof.
  refine (proj1 (proj2 (proj2 (cached_files_settle_after_one_run steady
            (idling [a_stale] [a_mp3]) [a_stale] _ _ _ _ _ _ _)))); try reflexivity.
  - split; reflexivity.
  - unfold unique. cbn. repeat constructor. intros [].
  - intros f [<-|[]]. split; [reflexivity|]. exists a_stale, stamp.
    repeat split. right. intros tag [= <-]. reflexivity.
Defined.

(** The unique index at work. *)
Lemma unique_index_witness :
  exists c', _fileTable (this (run steady (idling [a_stale] [a_mp3]))) = Some c' /\ unique c'.
Proof.
  apply (run_keeps_unique steady (idling [a_stale] [a_mp3]) [a_stale]);
    [split; reflexivity | reflexivity |].
  unfold unique. cbn. repeat constructor. intros [].
Defined.

End FurtherWitnesses.
